(** * bg-remover: the pixel classification and mask compositing engine

    A shallow embedding of [bg-remover-core.js] (class
    [BackgroundRemoverCore]) and the properties its specification states
    about it: colour-distance classification with feathering, multi-pass
    classification, connected-component labelling of a text mask, and the
    compositing of text regions over the person cut-out.

    JavaScript numbers are IEEE-754 doubles.  The finite doubles are
    modelled as the rationals they denote, and each arithmetic operation
    as the exact result rounded to the nearest double, ties to even
    (section "Numbers").  Pixel buffers are Node [Buffer]s: flat lists of
    bytes, written through [ToUint8], where a write outside the buffer has
    no effect and a read outside it gives [undefined].  A call takes a
    limited number of arguments and an array has a limited length: the
    [RangeError]s of [Math.min(...xs)] and of [new Array(n)] are part of
    the model, the first with the runtime's limit as a parameter. *)

From Stdlib Require Import ZArith QArith Qpower Qround Lia Lqa.
From Stdlib Require Import Floats Uint63.
From Stdlib Require Import Ascii String.
From stdpp Require Import base list numbers strings pretty.

Local Open Scope Z_scope.

(* ================================================================= *)
(** ** Numbers: doubles as rationals, rounding to nearest even *)

Section Numbers.
Local Open Scope Q_scope.

(** Exponent of the least subnormal double, [2^-1074]. *)
Definition emin : Z := (-1074)%Z.

Definition pow2 (e : Z) : Q := 2 ^ e.

(** [floor (log2 q)] for a positive rational. *)
Definition ilog2 (q : Q) : Z :=
  let k := (Z.log2 (Qnum q) - Z.log2 (Zpos (Qden q)))%Z in
  if Qle_bool (pow2 k) q then k else (k - 1)%Z.

(** Nearest integer, ties to the even one. *)
Definition half_even (q : Q) : Z :=
  let f := Qfloor q in
  match Qcompare (q - inject_Z f) (1 # 2) with
  | Lt => f
  | Gt => (f + 1)%Z
  | Eq => if Z.even f then f else (f + 1)%Z
  end.

(** Exponent of the unit in the last place of a 53-bit significand. *)
Definition ulp_exp (q : Q) : Z := Z.max (ilog2 q - 52) emin.

Definition round_pos (q : Q) : Q :=
  let e := ulp_exp q in inject_Z (half_even (q / pow2 e)) * pow2 e.

(** The double nearest to [q].  Overflow to [Infinity] is not
    represented: no quantity of this program comes near [2^1024]. *)
Definition RN (q : Q) : Q :=
  match Qcompare q 0 with
  | Eq => 0
  | Gt => round_pos q
  | Lt => - round_pos (- q)
  end.

Definition js_add (x y : Q) : Q := RN (x + y).
Definition js_sub (x y : Q) : Q := RN (x - y).
Definition js_mul (x y : Q) : Q := RN (x * y).
(** The engine divides by [feather] only under the guard [feather > 0]. *)
Definition js_div (x y : Q) : Q := RN (x / y).
(** [Math.floor] of a finite double, as the integer it returns. *)
Definition js_floor (x : Q) : Z := Qfloor x.

(** [Math.sqrt] of a non-negative integer-valued double: the double
    nearest to the real square root.  With [e] the exponent of the
    result's last place, the significand is the integer nearest to
    [sqrt n / 2^e = sqrt (n / 4^e)]. *)
Definition sqrt_exp (n : Z) : Z := (Z.log2 n / 2 - 52)%Z.

Definition sqrt_scaled (n : Z) : Q := inject_Z n / pow2 (2 * sqrt_exp n).

Definition nearest_root (s : Q) : Z :=
  let k := Z.sqrt (Qfloor s) in
  match Qcompare (4 * s) (inject_Z ((2 * k + 1) * (2 * k + 1))) with
  | Lt => k
  | Gt => (k + 1)%Z
  | Eq => if Z.even k then k else (k + 1)%Z
  end.

Definition js_sqrt (n : Z) : Q :=
  if (n <=? 0)%Z then 0
  else inject_Z (nearest_root (sqrt_scaled n)) * pow2 (sqrt_exp n).

(** The rational a kernel float denotes (finite values only), used to
    compare the model above with the machine's doubles on samples. *)
Definition float_value (f : float) : option Q :=
  match Prim2SF f with
  | S754_zero _ => Some 0
  | S754_finite s m e =>
      Some ((if s then - inject_Z (Zpos m) else inject_Z (Zpos m)) * pow2 e)
  | _ => None
  end.

Definition float_of_Z (z : Z) : float := PrimFloat.of_uint63 (Uint63.of_Z z).

Definition same_value (f : float) (q : Q) : bool :=
  match float_value f with
  | Some v => Qeq_bool v q
  | None => false
  end.

End Numbers.

(* ================================================================= *)
(** ** Colours and the colour metric *)

Record RGBColor := { r : Z; g : Z; b : Z }.

(** [calculateColorDistance(color1, color2)].  The channel differences
    and the sum of their squares are small integers, exact in doubles. *)
Definition calculateColorDistance (color1 color2 : RGBColor) : Q :=
  let rDiff := r color1 - r color2 in
  let gDiff := g color1 - g color2 in
  let bDiff := b color1 - b color2 in
  js_sqrt (rDiff * rDiff + gDiff * gDiff + bDiff * bDiff).

(* ================================================================= *)
(** ** Bitmaps *)

(** [image.bitmap]: [data] holds [r, g, b, a] per pixel, row-major. *)
Record Bitmap := { bitmap_width : Z; bitmap_height : Z; bitmap_data : list Z }.

Definition toUint8 (v : Z) : Z := v mod 256.

(** [data[i]]: [None] stands for [undefined]. *)
Definition byteAt (data : list Z) (i : Z) : option Z :=
  if i <? 0 then None else data !! Z.to_nat i.

(** [data[i] = v] on a [Buffer]: ignored outside the buffer. *)
Definition setByte (data : list Z) (i v : Z) : list Z :=
  if i <? 0 then data else <[Z.to_nat i := toUint8 v]> data.

(** Jimp's [image.scan(0, 0, width, height, f)] calls [f(x, y, idx)] for
    every pixel, row by row, with [idx = (width * y + x) << 2] the offset
    of the pixel's red byte (no buffer is long enough for the 32-bit
    shift to wrap). *)
Definition scanOffsets (width height : Z) : list Z :=
  y ← seqZ 0 height; x ← seqZ 0 width; [Z.shiftl (width * y + x) 2].

Definition scan (f : list Z → Z → list Z) (image : Bitmap) : Bitmap :=
  {| bitmap_width := bitmap_width image;
     bitmap_height := bitmap_height image;
     bitmap_data :=
       foldl f (bitmap_data image)
             (scanOffsets (bitmap_width image) (bitmap_height image)) |}.

(** Jimp's [image.getPixelIndex(x, y)] with the default edge handling
    ([EDGE_EXTEND]): coordinates are clamped into the bitmap; [-1] when
    the bitmap has no such pixel. *)
Definition getPixelIndex (image : Bitmap) (x y : Z) : Z :=
  let w := bitmap_width image in
  let h := bitmap_height image in
  let xi := if x <? 0 then 0 else if w <=? x then w - 1 else x in
  let yi := if y <? 0 then 0 else if h <=? y then h - 1 else y in
  if (xi <? 0) || (w <=? xi) || (yi <? 0) || (h <=? yi) then -1
  else Z.shiftl (w * yi + xi) 2.

(* ================================================================= *)
(** ** The engine's configuration *)

Record ColorPass := { color : RGBColor; pass_threshold : Z }.

(** The [options] object handed to the constructor; [None] is a missing
    property. *)
Record Options := {
  opt_verbose : option bool;
  opt_mode : option string;
  opt_targetColor : option RGBColor;
  opt_threshold : option Z;
  opt_feather : option Z;
  opt_colorPasses : option (list ColorPass);
  opt_textPadding : option Z;
  opt_textDetectionMode : option string;
  opt_textColors : option (list RGBColor);
  opt_textThreshold : option Z
}.

(** The fields of [this]. *)
Record Core := {
  verbose : bool;
  mode : string;
  targetColor : option RGBColor;
  threshold : Z;
  feather : Z;
  colorPasses : option (list ColorPass);
  textPadding : Z;
  textDetectionMode : string;
  textColors : list RGBColor;
  textThreshold : Z
}.

(** [v || d] on a number: [undefined] and [0] are falsy. *)
Definition numberOr (v : option Z) (d : Z) : Z :=
  match v with
  | Some n => if n =? 0 then d else n
  | None => d
  end.

(** [v || d] on a string: [undefined] and the empty string are falsy. *)
Definition stringOr (v : option string) (d : string) : string :=
  match v with
  | Some EmptyString => d
  | Some s => s
  | None => d
  end.

Definition constructor (options : Options) : Core :=
  {| verbose := default false (opt_verbose options);
     mode := stringOr (opt_mode options) "ai";
     targetColor := opt_targetColor options;
     threshold := numberOr (opt_threshold options) 50;
     feather := numberOr (opt_feather options) 0;
     colorPasses := opt_colorPasses options;
     textPadding := numberOr (opt_textPadding options) 5;
     textDetectionMode := stringOr (opt_textDetectionMode options) "ocr";
     textColors := default [ {| r := 255; g := 255; b := 255 |} ]
                           (opt_textColors options);
     textThreshold := numberOr (opt_textThreshold options) 40 |}.

Definition supportedFormats : list string :=
  [".jpg"; ".jpeg"; ".png"; ".webp"; ".bmp"; ".gif"]%string.

(* ================================================================= *)
(** ** Colour classification: the two scan callbacks *)

(** The callback of the single-pass scan in [removeBackgroundColor].
    A pixel with an [undefined] channel has distance [NaN], which fails
    both comparisons; no scan offset reaches one. *)
Definition singlePassPixel (this : Core) (target : RGBColor)
    (data : list Z) (idx : Z) : list Z :=
  match byteAt data (idx + 0), byteAt data (idx + 1),
        byteAt data (idx + 2), byteAt data (idx + 3) with
  | Some r, Some g, Some b, Some a =>
      let distance :=
        calculateColorDistance {| r := r; g := g; b := b |} target in
      if Qle_bool distance (inject_Z (threshold this)) then
        setByte data (idx + 3) 0
      else if (0 <? feather this)
              && Qle_bool distance
                   (js_add (inject_Z (threshold this)) (inject_Z (feather this)))
      then
        let featherRatio :=
          js_div (js_sub distance (inject_Z (threshold this)))
                 (inject_Z (feather this)) in
        setByte data (idx + 3) (js_floor (js_mul (inject_Z a) featherRatio))
      else data
  | _, _, _, _ => data
  end.

(** The callback of one pass of the multi-pass scan. *)
Definition multiPassPixel (pass : ColorPass) (data : list Z) (idx : Z) : list Z :=
  match byteAt data (idx + 0), byteAt data (idx + 1),
        byteAt data (idx + 2), byteAt data (idx + 3) with
  | Some r, Some g, Some b, Some a =>
      if a =? 0 then data
      else
        let distance :=
          calculateColorDistance {| r := r; g := g; b := b |} (color pass) in
        if Qle_bool distance (inject_Z (pass_threshold pass)) then
          setByte data (idx + 3) 0
        else data
  | _, _, _, _ => data
  end.

(** The pixel work of the two branches of [removeBackgroundColor]. *)
Definition classifySinglePass (this : Core) (target : RGBColor)
    (image : Bitmap) : Bitmap :=
  scan (singlePassPixel this target) image.

Definition classifyMultiPass (passes : list ColorPass) (image : Bitmap) : Bitmap :=
  foldl (fun image pass => scan (multiPassPixel pass) image) image passes.

(* ================================================================= *)
(** ** Regions and connected-component labelling *)

(** What a region carries besides its box: the component's cell count
    (colour detection) or the recognised word (OCR). *)
Inductive RegionInfo :=
| pixelCount (count : Z)
| recognised (text : string) (confidence : Q).

Record Region := { x : Z; y : Z; width : Z; height : Z; info : RegionInfo }.

(** [array[i]] used as a condition: [undefined] is falsy. *)
Definition flagAt (flags : list bool) (i : Z) : bool :=
  if i <? 0 then false else default false (flags !! Z.to_nat i).

Definition directions : list (Z * Z) :=
  [(-1, 0); (1, 0); (0, -1); (0, 1); (-1, -1); (-1, 1); (1, -1); (1, 1)].

Definition minRegionSize : Z := 50.

(** The body of [for (const [dx, dy] of directions)] for the cell
    [(x, y)] just taken from the queue. *)
Definition visitNeighbour (mask : list bool) (width height : Z) (cell : Z * Z)
    (state : list bool * list (Z * Z)) (d : Z * Z) : list bool * list (Z * Z) :=
  let '(visited, queue) := state in
  let nx := cell.1 + d.1 in
  let ny := cell.2 + d.2 in
  let nidx := ny * width + nx in
  if (0 <=? nx) && (nx <? width) && (0 <=? ny) && (ny <? height)
     && negb (flagAt visited nidx) && flagAt mask nidx
  then (<[Z.to_nat nidx := true]> visited, queue ++ [(nx, ny)])
  else state.

(** [while (queue.length > 0)]: one unit of fuel per cell taken from the
    queue; [None] when the fuel runs out. *)
Fixpoint bfsLoop (fuel : nat) (mask : list bool) (width height : Z)
    (visited : list bool) (queue points : list (Z * Z))
    : option (list (Z * Z) * list bool) :=
  match queue with
  | [] => Some (points, visited)
  | cell :: rest =>
      match fuel with
      | O => None
      | S fuel' =>
          let '(visited', queue') :=
            foldl (visitNeighbour mask width height cell) (visited, rest)
                  directions in
          bfsLoop fuel' mask width height visited' queue' (points ++ [cell])
      end
  end.

(** [bfs(startX, startY)], with the shared [visited] array passed in and
    returned. *)
Definition bfs (fuel : nat) (mask : list bool) (width height : Z)
    (visited : list bool) (startX startY : Z)
    : option (list (Z * Z) * list bool) :=
  bfsLoop fuel mask width height
          (<[Z.to_nat (startY * width + startX) := true]> visited)
          [(startX, startY)] [].

(** The two [RangeError]s the labelling can throw, by their messages. *)
Definition stackOverflow : string := "Maximum call stack size exceeded".
Definition invalidArrayLength : string := "Invalid array length".

(** [Math.min(...xs)] and [Math.max(...xs)].  A call takes only so many
    arguments: spreading a longer array throws a [RangeError].  How many
    depends on the JavaScript runtime and on its stack, so the limit in force,
    [argumentLimit], is a parameter.  (The code spreads lists of at least
    50 numbers only; of no number at all the two are [Infinity] and
    [-Infinity], which [0] stands for.) *)
Definition minOf (argumentLimit : Z) (zs : list Z) : string + Z :=
  if argumentLimit <? Z.of_nat (length zs) then inl stackOverflow
  else inr (match zs with
            | [] => 0
            | z :: zs' => foldl Z.min z zs'
            end).

Definition maxOf (argumentLimit : Z) (zs : list Z) : string + Z :=
  if argumentLimit <? Z.of_nat (length zs) then inl stackOverflow
  else inr (match zs with
            | [] => 0
            | z :: zs' => foldl Z.max z zs'
            end).

(** A step that may throw, followed by what uses its value. *)
Definition andThen {A B} (outcome : string + A) (k : A → string + B) : string + B :=
  match outcome with
  | inl error => inl error
  | inr a => k a
  end.

(** The bounding box of a component, as the body of
    [if (component.length >= minRegionSize)] computes it. *)
Definition boundingRegion (argumentLimit : Z) (component : list (Z * Z))
    : string + Region :=
  let xs := fst <$> component in
  let ys := snd <$> component in
  andThen (minOf argumentLimit xs) (λ minX,
  andThen (maxOf argumentLimit xs) (λ maxX,
  andThen (minOf argumentLimit ys) (λ minY,
  andThen (maxOf argumentLimit ys) (λ maxY,
  inr {| x := minX; y := minY;
         width := maxX - minX + 1; height := maxY - minY + 1;
         info := pixelCount (Z.of_nat (length component)) |})))).

(** [new Array(size).fill(false)]: a size that is negative or above
    [2^32 - 1] throws a [RangeError].  (Running out of memory is outside
    the model.) *)
Definition arrayOfFalse (size : Z) : string + list bool :=
  if (size <? 0) || (2 ^ 32 <=? size) then inl invalidArrayLength
  else inr (replicate (Z.to_nat size) false).

(** The body of the two nested loops over [y] and [x].  The state is
    [None] when the fuel of a traversal ran out, [Some (inl error)] once
    an error was thrown (nothing more is done then), and otherwise holds
    the [visited] array and the regions so far. *)
Definition labelCell (argumentLimit : Z) (mask : list bool) (width height : Z)
    (state : option (string + list bool * list Region)) (cell : Z * Z)
    : option (string + list bool * list Region) :=
  outcome ← state;
  match outcome with
  | inl error => Some (inl error)
  | inr (visited, regions) =>
      let idx := cell.2 * width + cell.1 in
      if flagAt mask idx && negb (flagAt visited idx) then
        '(component, visited') ←
          bfs (Z.to_nat (width * height)) mask width height visited cell.1 cell.2;
        if minRegionSize <=? Z.of_nat (length component)
        then Some (andThen (boundingRegion argumentLimit component)
                           (λ region, inr (visited', regions ++ [region])))
        else Some (inr (visited', regions))
      else Some (inr (visited, regions))
  end.

Definition rowMajor (width height : Z) : list (Z * Z) :=
  y ← seqZ 0 height; x ← seqZ 0 width; [(x, y)].

(** [findConnectedComponents(mask, width, height)]: [Some (inr regions)]
    when it returns, [Some (inl message)] when it throws. *)
Definition findConnectedComponents (argumentLimit : Z) (mask : list bool)
    (width height : Z) : option (string + list Region) :=
  match arrayOfFalse (width * height) with
  | inl error => Some (inl error)
  | inr visited =>
      outcome ← foldl (labelCell argumentLimit mask width height)
                      (Some (inr (visited, []))) (rowMajor width height);
      Some (andThen outcome (λ state, inr state.2))
  end.

(** [detectTextByColor(image)]: the text mask, then its components. *)
Definition matchesTextColor (this : Core) (image : Bitmap) (cell : Z * Z) : bool :=
  let idx := getPixelIndex image cell.1 cell.2 in
  match byteAt (bitmap_data image) (idx + 0),
        byteAt (bitmap_data image) (idx + 1),
        byteAt (bitmap_data image) (idx + 2) with
  | Some r, Some g, Some b =>
      existsb (fun textColor =>
                 Qle_bool (calculateColorDistance {| r := r; g := g; b := b |}
                                                  textColor)
                          (inject_Z (textThreshold this)))
              (textColors this)
  | _, _, _ => false
  end.

Definition textMaskOf (this : Core) (image : Bitmap) : list bool :=
  let width := bitmap_width image in
  let height := bitmap_height image in
  foldl (fun textMask cell =>
           if matchesTextColor this image cell
           then <[Z.to_nat (cell.2 * width + cell.1) := true]> textMask
           else textMask)
        (replicate (Z.to_nat (width * height)) false)
        (rowMajor width height).

(** The mask is a [new Array(width * height)] too: that throws before
    anything is marked. *)
Definition detectTextByColor (argumentLimit : Z) (this : Core) (image : Bitmap)
    : option (string + list Region) :=
  match arrayOfFalse (bitmap_width image * bitmap_height image) with
  | inl error => Some (inl error)
  | inr _ =>
      findConnectedComponents argumentLimit (textMaskOf this image)
                              (bitmap_width image) (bitmap_height image)
  end.

(* ================================================================= *)
(** ** Mask compositing *)

(** The half-open range of a [for (let p = lo; p < hi; p++)] loop. *)
Definition range (lo hi : Z) : list Z := seqZ lo (hi - lo).

(** The four assignments of the innermost loop body, as (offset, value)
    pairs: the colour comes from the original image, alpha is 255. *)
Definition pixelWrites (originalImage combinedMask : Bitmap) (px py : Z)
    : list (Z * Z) :=
  let idx := getPixelIndex combinedMask px py in
  [ (idx + 0, default 0 (byteAt (bitmap_data originalImage) (idx + 0)));
    (idx + 1, default 0 (byteAt (bitmap_data originalImage) (idx + 1)));
    (idx + 2, default 0 (byteAt (bitmap_data originalImage) (idx + 2)));
    (idx + 3, 255) ].

(** The pixels the two loops of one region visit: the padded box,
    cut to the original image's size. *)
Definition regionPixels (originalImage : Bitmap) (padding : Z) (region : Region)
    : list (Z * Z) :=
  py ← range (Z.max 0 (y region - padding))
             (Z.min (bitmap_height originalImage)
                    (y region + height region + padding));
  px ← range (Z.max 0 (x region - padding))
             (Z.min (bitmap_width originalImage)
                    (x region + width region + padding));
  [(px, py)].

Definition regionWrites (originalImage combinedMask : Bitmap) (padding : Z)
    (region : Region) : list (Z * Z) :=
  '(px, py) ← regionPixels originalImage padding region;
  pixelWrites originalImage combinedMask px py.

Definition applyWrites (data : list Z) (writes : list (Z * Z)) : list Z :=
  foldl (fun data w => setByte data w.1 w.2) data writes.

(** [for (const region of textRegions)] over [combinedMask]. *)
Definition compositeRegions (originalImage : Bitmap) (padding : Z)
    (textRegions : list Region) (combinedMask : Bitmap) : Bitmap :=
  foldl (fun mask region =>
           {| bitmap_width := bitmap_width mask;
              bitmap_height := bitmap_height mask;
              bitmap_data :=
                applyWrites (bitmap_data mask)
                            (regionWrites originalImage mask padding region) |})
        combinedMask textRegions.

(* ================================================================= *)
(** ** The asynchronous methods: errors and observable steps *)

(** What a run does to the outside world, in order. *)
Inductive Event :=
| Decoded                        (* Jimp.read gave a bitmap *)
| Segmented                      (* the AI collaborator gave a cut-out *)
| Classified                     (* the colour scans ran over the pixels *)
| Composited                     (* the text regions were drawn on the mask *)
| Saved (image : Bitmap)         (* image.writeAsync(outputPath) *)
| ConsoleError (message : string).

(** A computation that may throw [Error(message)] and appends to the log
    of events. *)
Definition Run (A : Type) : Type := list Event → (string + A) * list Event.

Definition ret {A} (a : A) : Run A := fun log => (inr a, log).

Definition throw {A} (message : string) : Run A := fun log => (inl message, log).

Definition bind {A B} (m : Run A) (k : A → Run B) : Run B :=
  fun log =>
    match m log with
    | (inl message, log') => (inl message, log')
    | (inr a, log') => k a log'
    end.

Definition emit (e : Event) : Run unit := fun log => (inr tt, log ++ [e]).

(** [await] on a collaborator whose outcome is given. *)
Definition await {A} (outcome : string + A) : Run A := fun log => (outcome, log).

(** [try { body } catch (error) { handler(error.message) }]. *)
Definition tryCatch {A} (body : Run A) (handler : string → Run A) : Run A :=
  fun log =>
    match body log with
    | (inl message, log') => handler message log'
    | (inr a, log') => (inr a, log')
    end.

Notation "'let*' x := m 'in' k" := (bind m (fun x => k))
  (at level 10, x name, m at level 100, k at level 200, only parsing).
Notation "m ;;; k" := (bind m (fun _ => k))
  (at level 100, k at level 200, right associativity, only parsing).

(** One recognised word of Tesseract's result. *)
Record BBox := { x0 : Z; y0 : Z; x1 : Z; y1 : Z }.
Record Word := { bbox : option BBox; word_text : string; word_confidence : Q }.

(** Everything outside the engine that a run of one image depends on. *)
Record World := {
  inputPath : string;
  inputName : string;                  (* path.basename(inputPath) *)
  inputExt : string;                   (* path.extname(inputPath).toLowerCase() *)
  fileExists : bool;                   (* fs.access(inputPath) succeeds *)
  decoded : string + Bitmap;           (* Jimp.read(inputPath) *)
  cutout : string + Bitmap;            (* removeBackground(fileUrl), decoded *)
  recognition : string + option (list Word);
                                       (* Tesseract.recognize: result.data.words *)
  saveError : option string;           (* fs.mkdir or writeAsync throws *)
  argumentLimit : Z                    (* the most arguments a call can take *)
}.

(** [this.supportedFormats.includes(inputExt)]. *)
Definition isSupported (ext : string) : bool :=
  existsb (String.eqb ext) supportedFormats.

(** The two checks every method starts with. *)
Definition checkInput (world : World) : Run unit :=
  (if fileExists world then ret tt
   else throw ("Input file not found: " +:+ inputPath world)) ;;;
  if isSupported (inputExt world) then ret tt
  else throw ("Unsupported file format: " +:+ inputExt world).

Definition save (world : World) (image : Bitmap) : Run unit :=
  match saveError world with
  | Some message => throw message
  | None => emit (Saved image)
  end.

Definition reportFailure (world : World) (message : string) : Run bool :=
  emit (ConsoleError ("Error processing " +:+ inputName world +:+ ": " +:+ message)) ;;;
  ret false.

(** [removeBackgroundColor(inputPath, outputPath)]. *)
Definition removeBackgroundColor (this : Core) (world : World) : Run bool :=
  tryCatch
    (checkInput world ;;;
     match colorPasses this with
     | Some (pass :: passes) =>
         let* image := await (decoded world) in
         emit Decoded ;;;
         emit Classified ;;;
         save world (classifyMultiPass (pass :: passes) image) ;;;
         ret true
     | _ =>
         match targetColor this with
         | None => throw "Target color not specified. Use --target-color option."
         | Some target =>
             let* image := await (decoded world) in
             emit Decoded ;;;
             emit Classified ;;;
             save world (classifySinglePass this target image) ;;;
             ret true
         end
     end)
    (reportFailure world).

Definition wordRegions (words : list Word) : list Region :=
  word ← words;
  match bbox word with
  | Some box =>
      [ {| x := x0 box; y := y0 box;
           width := x1 box - x0 box; height := y1 box - y0 box;
           info := recognised (word_text word) (word_confidence word) |} ]
  | None => []
  end.

(** [detectTextRegions(imagePath)]. *)
Definition detectTextRegions (world : World) : Run (list Region) :=
  tryCatch
    (let* words := await (recognition world) in
     ret (wordRegions (default [] words)))
    (fun message =>
       emit (ConsoleError ("Text detection error: " +:+ message)) ;;;
       ret []).

(** [removeBackgroundHybrid(inputPath, outputPath, format)].  A
    [RangeError] thrown by colour detection is caught like every other
    error.  (The [None] of the labelling's fuel never occurs; it is given
    a message only to make the match complete.) *)
Definition removeBackgroundHybrid (this : Core) (world : World) : Run bool :=
  tryCatch
    (checkInput world ;;;
     let* personMask := await (cutout world) in
     emit Segmented ;;;
     let* originalImage := await (decoded world) in
     emit Decoded ;;;
     let* textRegions :=
       (if String.eqb (textDetectionMode this) "ocr" then
          detectTextRegions world
        else if String.eqb (textDetectionMode this) "color" then
          match detectTextByColor (argumentLimit world) this originalImage with
          | Some outcome => await outcome
          | None => throw "labelling ran out of fuel"
          end
        else ret []) in
     emit Composited ;;;
     save world (compositeRegions originalImage (textPadding this)
                                  textRegions personMask) ;;;
     ret true)
    (reportFailure world).

(* ================================================================= *)
(** ** Sample inputs *)

Definition noOptions : Options :=
  {| opt_verbose := None; opt_mode := None; opt_targetColor := None;
     opt_threshold := None; opt_feather := None; opt_colorPasses := None;
     opt_textPadding := None; opt_textDetectionMode := None;
     opt_textColors := None; opt_textThreshold := None |}.

Definition blue : RGBColor := {| r := 0; g := 0; b := 255 |}.
Definition black : RGBColor := {| r := 0; g := 0; b := 0 |}.

(** [new BackgroundRemoverCore({mode: 'color', targetColor, threshold, feather})]. *)
Definition colorCore (target : RGBColor) (threshold feather : Z) : Core :=
  constructor
    {| opt_verbose := None; opt_mode := Some "color"%string;
       opt_targetColor := Some target;
       opt_threshold := Some threshold; opt_feather := Some feather;
       opt_colorPasses := None;
       opt_textPadding := None; opt_textDetectionMode := None;
       opt_textColors := None; opt_textThreshold := None |}.

(** A one-row bitmap holding the given bytes. *)
Definition rowBitmap (pixels : Z) (data : list Z) : Bitmap :=
  {| bitmap_width := pixels; bitmap_height := 1; bitmap_data := data |}.

(* ================================================================= *)
(** ** Notions the specification uses *)

(** A byte, as a [Buffer] holds them. *)
Definition isByte (v : Z) : Prop := 0 ≤ v ≤ 255.

(** An [RGBColor]: three 8-bit channels. *)
Definition validColor (c : RGBColor) : Prop :=
  isByte (r c) ∧ isByte (g c) ∧ isByte (b c).

(** The square of the Euclidean distance between two colours. *)
Definition squaredDistance (c1 c2 : RGBColor) : Z :=
  (r c1 - r c2) * (r c1 - r c2) + (g c1 - g c2) * (g c1 - g c2)
  + (b c1 - b c2) * (b c1 - b c2).

(** [sqrt n <= t] over the reals, for integers [n >= 0] and [t]. *)
Definition rootWithin (n t : Z) : bool := (0 <=? t) && (n <=? t * t).

(** An integer that a double holds exactly. *)
Definition safeInteger (z : Z) : Prop := Z.abs z < 2 ^ 53.

(** The offset of pixel [(x, y)] in the data of a bitmap [width] wide. *)
Definition pixelOffset (width x y : Z) : Z := 4 * (width * y + x).

(** [floor (alpha * (sqrt n - threshold) / feather)] over the reals, for
    [alpha >= 0] and [feather > 0]: the feathered alpha as the
    specification writes it, for a pixel at squared distance [n].  Since
    [alpha * threshold] is an integer the floor is that of
    [(floor (sqrt (alpha^2 * n)) - alpha * threshold) / feather]. *)
Definition exactFeatherAlpha (alpha n threshold feather : Z) : Z :=
  (Z.sqrt (alpha * alpha * n) - alpha * threshold) / feather.


(** The checks that compare [js_sqrt] with the integers it must
    separate, and with the machine's own square root. *)
Definition rootCheck (t : Z) : bool :=
  Qeq_bool (js_sqrt (t * t)) (inject_Z t)
  && negb (Qle_bool (js_sqrt (t * t + 1)) (inject_Z t)).

Definition sqrtAgrees (n : Z) : bool :=
  same_value (PrimFloat.sqrt (float_of_Z n)) (js_sqrt n).

(** The alpha the feathering branch of the single-pass callback stores
    for a pixel of alpha [a] at squared distance [n]:
    [Math.floor(a * featherRatio)], with
    [featherRatio = (distance - threshold) / feather], every operation
    rounded to a double. *)
Definition featherAlpha (this : Core) (n a : Z) : Z :=
  js_floor
    (js_mul (inject_Z a)
            (js_div (js_sub (js_sqrt n) (inject_Z (threshold this)))
                    (inject_Z (feather this)))).

(** A decoded bitmap: non-negative dimensions and four bytes per pixel. *)
Definition wellFormed (image : Bitmap) : Prop :=
  0 ≤ bitmap_width image ∧ 0 ≤ bitmap_height image
  ∧ Z.of_nat (length (bitmap_data image))
    = 4 * (bitmap_width image * bitmap_height image)
  ∧ Forall isByte (bitmap_data image).

(** The colour and alpha of pixel [(x, y)]. *)
Definition pixelAt (image : Bitmap) (x y : Z) : option (RGBColor * Z) :=
  let idx := pixelOffset (bitmap_width image) x y in
  r ← byteAt (bitmap_data image) idx;
  g ← byteAt (bitmap_data image) (idx + 1);
  b ← byteAt (bitmap_data image) (idx + 2);
  a ← byteAt (bitmap_data image) (idx + 3);
  Some ({| r := r; g := g; b := b |}, a).

(** What the single-pass callback leaves in the alpha byte of a pixel
    of alpha [a] at squared distance [n] from the target colour, with
    the two comparisons of the distance read over the reals. *)
Definition singlePassAlpha (this : Core) (n a : Z) : Z :=
  if rootWithin n (threshold this) then 0
  else if (0 <? feather this) && rootWithin n (threshold this + feather this)
       then toUint8 (featherAlpha this n a)
       else a.

(** The byte that any write of the compositing loops stores at offset
    [i]: 255 in an alpha slot, the original image's byte elsewhere.
    (When the mask has no pixels [getPixelIndex] is always [-1], which
    puts the alpha slot at offset 2.) *)
Definition writtenValue (originalImage combinedMask : Bitmap) (i : Z) : Z :=
  let alphaSlot :=
    if (0 <? bitmap_width combinedMask) && (0 <? bitmap_height combinedMask)
    then i mod 4 =? 3 else i =? 2 in
  if alphaSlot then 255
  else toUint8 (default 0 (byteAt (bitmap_data originalImage) i)).

(** All the writes of the compositing loops over a list of regions. *)
Definition allWrites (originalImage combinedMask : Bitmap) (padding : Z)
    (textRegions : list Region) : list (Z * Z) :=
  textRegions ≫= regionWrites originalImage combinedMask padding.

(** A two-pixel image, a cut-out of it that kept the first pixel only,
    and a region over the second pixel. *)
Definition sampleOriginal : Bitmap := rowBitmap 2 [10; 20; 30; 255; 40; 50; 60; 255].
Definition sampleCutout : Bitmap := rowBitmap 2 [10; 20; 30; 255; 0; 0; 0; 0].
Definition sampleRegion : Region :=
  {| x := 1; y := 0; width := 1; height := 1; info := pixelCount 50 |}.

(** A world in which the input decodes to [sampleOriginal], the AI gives
    [sampleCutout], and the OCR engine throws. *)
Definition sampleWorld : World :=
  {| inputPath := "in/photo.png"; inputName := "photo.png"; inputExt := ".png";
     fileExists := true;
     decoded := inr sampleOriginal;
     cutout := inr sampleCutout;
     recognition := inl "worker failed"%string;
     saveError := None; argumentLimit := 125000 |}.

(* ----------------------------------------------------------------- *)
(** Connected components of a mask, as the specification means them *)

(** The index of cell [(x, y)] in a mask [width] wide. *)
Definition cellIndex (width : Z) (c : Z * Z) : Z := c.2 * width + c.1.

Definition inGrid (width height : Z) (c : Z * Z) : Prop :=
  0 ≤ c.1 < width ∧ 0 ≤ c.2 < height.

(** A [true] cell of the mask. *)
Definition isSet (mask : list bool) (width height : Z) (c : Z * Z) : Prop :=
  inGrid width height c ∧ flagAt mask (cellIndex width c) = true.

(** Two distinct cells that touch by a side or by a corner. *)
Definition adjacent8 (c1 c2 : Z * Z) : Prop :=
  c1 ≠ c2 ∧ -1 ≤ c2.1 - c1.1 ≤ 1 ∧ -1 ≤ c2.2 - c1.2 ≤ 1.

(** [connected start c]: a path of [true] cells leads from [start] to
    [c], each step to one of the eight neighbours. *)
Inductive connected (mask : list bool) (width height : Z) (start : Z * Z)
    : Z * Z → Prop :=
| connected_start :
    isSet mask width height start → connected mask width height start start
| connected_step c c' :
    connected mask width height start c →
    adjacent8 c c' → isSet mask width height c' →
    connected mask width height start c'.

(** A list of cells that holds exactly one 8-connected component. *)
Definition isComponent (mask : list bool) (width height : Z)
    (component : list (Z * Z)) : Prop :=
  ∃ start, isSet mask width height start
           ∧ ∀ c, c ∈ component ↔ connected mask width height start c.

(** A component that passes the size filter. *)
Definition bigEnough (component : list (Z * Z)) : Prop :=
  minRegionSize ≤ Z.of_nat (length component).

#[global] Instance bigEnough_dec component : Decision (bigEnough component).
Proof. unfold bigEnough. apply _. Defined.

(** The bounding box of a component with its cell count: the least and
    the greatest of the coordinates. *)
Definition least (zs : list Z) : Z :=
  match zs with
  | [] => 0
  | z :: zs' => foldl Z.min z zs'
  end.

Definition greatest (zs : list Z) : Z :=
  match zs with
  | [] => 0
  | z :: zs' => foldl Z.max z zs'
  end.

Definition boxOf (component : list (Z * Z)) : Region :=
  {| x := least component.*1; y := least component.*2;
     width := greatest component.*1 - least component.*1 + 1;
     height := greatest component.*2 - least component.*2 + 1;
     info := pixelCount (Z.of_nat (length component)) |}.

(** A component whose cells one call can take as arguments. *)
Definition spreads (argumentLimit : Z) (component : list (Z * Z)) : Prop :=
  Z.of_nat (length component) ≤ argumentLimit.

#[global] Instance spreads_dec argumentLimit component :
  Decision (spreads argumentLimit component).
Proof. unfold spreads. apply _. Defined.

(** A size [new Array] accepts. *)
Definition arraySize (size : Z) : Prop := 0 ≤ size < 2 ^ 32.

#[global] Instance arraySize_dec size : Decision (arraySize size).
Proof. unfold arraySize. apply _. Defined.

(** How the labelling of a mask with the given components ends: with
    the boxes of the components that pass the size filter, if the
    [visited] array can be made and each of those components can be
    spread; with a [RangeError] otherwise. *)
Definition labelled (argumentLimit width height : Z)
    (components : list (list (Z * Z))) : string + list Region :=
  if decide (arraySize (width * height)) then
    if decide (Forall (spreads argumentLimit) (filter bigEnough components))
    then inr (boxOf <$> filter bigEnough components)
    else inl stackOverflow
  else inl invalidArrayLength.

(** The state of the labelling loops against the components found so
    far: the visited cells are those of the components, each component
    is whole, no cell is in two of them (or twice in one), and the
    regions are the boxes of those that pass the size filter. *)
Definition labelInvariant (mask : list bool) (width height : Z)
    (visited : list bool) (regions : list Region)
    (components : list (list (Z * Z))) : Prop :=
  Z.of_nat (length visited) = width * height
  ∧ (∀ c, inGrid width height c →
       flagAt visited (cellIndex width c) = true
       ↔ ∃ component, component ∈ components ∧ c ∈ component)
  ∧ Forall (isComponent mask width height) components
  ∧ NoDup (mjoin components)
  ∧ regions = boxOf <$> filter bigEnough components.

(** [region] is the bounding box of [component], [minX .. maxX] by
    [minY .. maxY], and carries its cell count. *)
Definition boundsTightly (region : Region) (component : list (Z * Z)) : Prop :=
  (∀ c, c ∈ component →
     x region ≤ c.1 < x region + width region
     ∧ y region ≤ c.2 < y region + height region)
  ∧ (∃ c, c ∈ component ∧ c.1 = x region)
  ∧ (∃ c, c ∈ component ∧ c.1 = x region + width region - 1)
  ∧ (∃ c, c ∈ component ∧ c.2 = y region)
  ∧ (∃ c, c ∈ component ∧ c.2 = y region + height region - 1)
  ∧ info region = pixelCount (Z.of_nat (length component)).

(** A [width] by [height] mask that is [true] on the cells for which
    [inside x y] holds. *)
Definition maskOf (width height : Z) (inside : Z → Z → bool) : list bool :=
  '(x, y) ← rowMajor width height; [inside x y].

(** The [width] by [height] mask with every cell [true]. *)
Definition fullMask (width height : Z) : list bool :=
  replicate (Z.to_nat (width * height)) true.

(** A 12 by 12 mask with a 10 by 10 block at (1, 1), and one with a
    five-cell diagonal. *)
Definition blockMask : list bool :=
  maskOf 12 12 (λ x y, (1 <=? x) && (x <=? 10) && (1 <=? y) && (y <=? 10)).
Definition diagonalMask : list bool :=
  maskOf 12 12 (λ x y, (x =? y) && (x <? 5)).

(* ================================================================= *)
(** ** Notions for the further properties *)

(** [distance <= pass.threshold] for a pixel of colour [c]. *)
Definition passMatches (c : RGBColor) (pass : ColorPass) : bool :=
  Qle_bool (calculateColorDistance c (color pass)) (inject_Z (pass_threshold pass)).

(** The alpha a list of passes leaves to a pixel of colour [c] and
    alpha [a]. *)
Definition multiPassAlpha (passes : list ColorPass) (c : RGBColor) (a : Z) : Z :=
  if (a =? 0) || existsb (passMatches c) passes then 0 else a.

(** Whether pixel [(px, py)] lies in the box of [region] grown by
    [padding] on every side. *)
Definition inPaddedBox (padding : Z) (region : Region) (px py : Z) : bool :=
  (x region - padding <=? px) && (px <? x region + width region + padding)
  && (y region - padding <=? py) && (py <? y region + height region + padding).

(** The [true] cells of a mask, row by row. *)
Definition setCells (mask : list bool) (width height : Z) : list (Z * Z) :=
  filter (λ c, flagAt mask (cellIndex width c) = true) (rowMajor width height).

(** A region that lies inside a [width] by [height] image and carries
    a plausible cell count. *)
Definition regionInside (imageWidth imageHeight : Z) (region : Region) : Prop :=
  0 ≤ x region ∧ 0 ≤ y region
  ∧ 1 ≤ width region ∧ 1 ≤ height region
  ∧ x region + width region ≤ imageWidth
  ∧ y region + height region ≤ imageHeight
  ∧ ∃ count, info region = pixelCount count
             ∧ minRegionSize ≤ count ≤ width region * height region.

(** [distance <= this.textThreshold] against one of the text colours. *)
Definition nearTextColor (this : Core) (c : RGBColor) : bool :=
  existsb (λ textColor,
             Qle_bool (calculateColorDistance c textColor)
                      (inject_Z (textThreshold this)))
          (textColors this).

(** Whether an [await]ed collaborator gave a value. *)
Definition succeeded {A} (outcome : string + A) : bool :=
  match outcome with inr _ => true | inl _ => false end.

(** Whether the text detection of a hybrid run throws.  OCR absorbs its
    errors and an unknown mode detects nothing, so only colour detection
    can: when the labelling of the decoded image throws. *)
Definition detectionThrows (this : Core) (world : World) : bool :=
  String.eqb (textDetectionMode this) "color"
  && match decoded world with
     | inr originalImage =>
         match detectTextByColor (argumentLimit world) this originalImage with
         | Some (inr _) => false
         | _ => true
         end
     | inl _ => false
     end.

(** Whether a colour run has something to classify against: a
    non-empty pass list or a target colour. *)
Definition hasColourTarget (this : Core) : bool :=
  match colorPasses this with
  | Some (_ :: _) => true
  | _ => match targetColor this with Some _ => true | None => false end
  end.

(* ================================================================= *)
(** ** Strings: [split], [trim], [parseInt] *)

(** A JavaScript string is modelled by the string of its code units,
    for code units below 256.  Among these the white space that [trim]
    and [parseInt] skip is TAB, LF, VT, FF, CR, the space and the
    no-break space. *)
Definition isWhiteSpace (c : ascii) : bool :=
  match N_of_ascii c with
  | 9 | 10 | 11 | 12 | 13 | 32 | 160 => true
  | _ => false
  end%N.

Fixpoint trimStart (s : string) : string :=
  match s with
  | String c rest => if isWhiteSpace c then trimStart rest else s
  | EmptyString => EmptyString
  end.

Fixpoint trimEnd (s : string) : string :=
  match s with
  | String c rest =>
      match trimEnd rest with
      | EmptyString => if isWhiteSpace c then EmptyString else String c EmptyString
      | kept => String c kept
      end
  | EmptyString => EmptyString
  end.

(** [s.trim()]. *)
Definition trim (s : string) : string := trimEnd (trimStart s).

(** [s.split(separator)] for a one-character separator: the pieces
    between the separators, at least one. *)
Fixpoint split (separator : ascii) (s : string) : list string :=
  match s with
  | EmptyString => [EmptyString]
  | String c rest =>
      if Ascii.eqb c separator then EmptyString :: split separator rest
      else match split separator rest with
           | piece :: pieces => String c piece :: pieces
           | [] => [String c EmptyString]
           end
  end.

Definition digitValue (c : ascii) : option Z :=
  let n := Z.of_N (N_of_ascii c) in
  if (48 <=? n) && (n <=? 57) then Some (n - 48) else None.

(** The integer that the longest prefix of decimal digits of [s]
    denotes, continuing from [value]; [None] when there is no digit. *)
Fixpoint readDigits (s : string) (value : option Z) : option Z :=
  match s with
  | String c rest =>
      match digitValue c with
      | Some d => readDigits rest (Some (10 * default 0 value + d))
      | None => value
      end
  | EmptyString => value
  end.

(** [parseInt(s, 10)]: leading white space, an optional sign, then
    decimal digits; whatever follows the digits is ignored.  [None] is
    [NaN].  The result is the integer read (the engine holds the double
    nearest to it, the same number below [2^53]). *)
Definition parseInt (s : string) : option Z :=
  match trimStart s with
  | String c rest =>
      if Ascii.eqb c "-" then Z.opp <$> readDigits rest None
      else if Ascii.eqb c "+" then readDigits rest None
      else readDigits (String c rest) None
  | EmptyString => None
  end.

(* ================================================================= *)
(** ** The command line: [parseRGBColor] and [parseArgs] *)

(** [colorStr.split(',').map(s => parseInt(s.trim(), 10))]. *)
Definition channelParts (colorStr : string) : list (option Z) :=
  (λ s, parseInt (trim s)) <$> split "," colorStr.

(** [isNaN(v) || v < 0 || v > 255]. *)
Definition badChannel (v : option Z) : bool :=
  match v with
  | None => true
  | Some n => (n <? 0) || (255 <? n)
  end.

(** [parts.length !== 3 || parts.some(v => isNaN(v) || v < 0 || v > 255)]. *)
Definition badParts (parts : list (option Z)) : bool :=
  negb (length parts =? 3)%nat || existsb badChannel parts.

(** The object [{ r: parts[0], g: parts[1], b: parts[2] }] (the array
    [parts] itself, for a text colour) of three numbers. *)
Definition colorOfParts (parts : list (option Z)) : option RGBColor :=
  match parts with
  | [Some r; Some g; Some b] => Some {| r := r; g := g; b := b |}
  | _ => None
  end.

(** [parseRGBColor(rgbString)]; [None] is [null]. *)
Definition parseRGBColor (rgbString : string) : option RGBColor :=
  let parts := channelParts rgbString in
  if badParts parts then None else colorOfParts parts.

(** The [options] object of [parseArgs].  A string option is [None]
    when it is [null] or [undefined]; a number is [None] when it is
    [NaN]. *)
Record CliOptions := {
  cli_input : option string;
  cli_output : option string;
  cli_format : option string;
  cli_zip : bool;
  cli_help : bool;
  cli_singleFile : option string;
  cli_mode : option string;
  cli_targetColor : option string;
  cli_threshold : option Z;
  cli_feather : option Z;
  cli_textPadding : option Z;
  cli_textDetectionMode : option string;
  cli_textColors : option string;
  cli_textThreshold : option Z;
  cli_targetColorParsed : option RGBColor;
  cli_textColorsParsed : option (list RGBColor)
}.

Definition defaultOptions : CliOptions :=
  {| cli_input := Some "./input"%string; cli_output := Some "./output"%string;
     cli_format := Some "png"%string; cli_zip := false; cli_help := false;
     cli_singleFile := None;
     cli_mode := Some "ai"%string; cli_targetColor := None;
     cli_threshold := Some 50; cli_feather := Some 0;
     cli_textPadding := Some 5;
     cli_textDetectionMode := Some "color"%string;
     cli_textColors := Some "255,255,255"%string;
     cli_textThreshold := Some 60;
     cli_targetColorParsed := None; cli_textColorsParsed := None |}.

(** The options a flag writes. *)
Inductive Setting :=
| SetHelp | SetZip
| SetInput (v : option string) | SetOutput (v : option string)
| SetFormat (v : option string) | SetSingleFile (v : option string)
| SetMode (v : option string) | SetTargetColor (v : option string)
| SetThreshold (n : option Z) | SetFeather (n : option Z)
| SetTextPadding (n : option Z) | SetTextDetectionMode (v : option string)
| SetTextColors (v : option string) | SetTextThreshold (n : option Z)
| SetTargetColorParsed (c : option RGBColor)
| SetTextColorsParsed (cs : option (list RGBColor)).

(** [options.field = value]. *)
Definition assign (setting : Setting) (o : CliOptions) : CliOptions :=
  let pick {A} (field : CliOptions → A) (new : option A) : A :=
    default (field o) new in
  {| cli_input := pick cli_input (match setting with SetInput v => Some v | _ => None end);
     cli_output := pick cli_output (match setting with SetOutput v => Some v | _ => None end);
     cli_format := pick cli_format (match setting with SetFormat v => Some v | _ => None end);
     cli_zip := pick cli_zip (match setting with SetZip => Some true | _ => None end);
     cli_help := pick cli_help (match setting with SetHelp => Some true | _ => None end);
     cli_singleFile :=
       pick cli_singleFile (match setting with SetSingleFile v => Some v | _ => None end);
     cli_mode := pick cli_mode (match setting with SetMode v => Some v | _ => None end);
     cli_targetColor :=
       pick cli_targetColor (match setting with SetTargetColor v => Some v | _ => None end);
     cli_threshold :=
       pick cli_threshold (match setting with SetThreshold n => Some n | _ => None end);
     cli_feather :=
       pick cli_feather (match setting with SetFeather n => Some n | _ => None end);
     cli_textPadding :=
       pick cli_textPadding (match setting with SetTextPadding n => Some n | _ => None end);
     cli_textDetectionMode :=
       pick cli_textDetectionMode
            (match setting with SetTextDetectionMode v => Some v | _ => None end);
     cli_textColors :=
       pick cli_textColors (match setting with SetTextColors v => Some v | _ => None end);
     cli_textThreshold :=
       pick cli_textThreshold
            (match setting with SetTextThreshold n => Some n | _ => None end);
     cli_targetColorParsed :=
       pick cli_targetColorParsed
            (match setting with SetTargetColorParsed c => Some c | _ => None end);
     cli_textColorsParsed :=
       pick cli_textColorsParsed
            (match setting with SetTextColorsParsed cs => Some cs | _ => None end) |}.

(** [args[++i]] and the arguments after it. *)
Definition following (rest : list string) : list string :=
  match rest with
  | [] => rest
  | _ :: after => after
  end.

(** [arg === long || arg === short]. *)
Definition isFlag (arg long short : string) : bool :=
  String.eqb arg long || String.eqb arg short.

(** [parseInt(args[++i], 10)]: a missing argument is [undefined], which
    reads as [NaN]. *)
Definition parseIntArg (value : option string) : option Z := value ≫= parseInt.

(** The [for] loop over the arguments. *)
Fixpoint parseLoop (args : list string) (options : CliOptions) : CliOptions :=
  match args with
  | [] => options
  | arg :: rest =>
      let value := head rest in
      let after := following rest in
      if isFlag arg "--help" "-h" then parseLoop rest (assign SetHelp options)
      else if isFlag arg "--input" "-i" then
        parseLoop after (assign (SetInput value) options)
      else if isFlag arg "--output" "-o" then
        parseLoop after (assign (SetOutput value) options)
      else if isFlag arg "--format" "-f" then
        parseLoop after (assign (SetFormat value) options)
      else if isFlag arg "--zip" "-z" then parseLoop rest (assign SetZip options)
      else if isFlag arg "--mode" "-m" then
        parseLoop after (assign (SetMode value) options)
      else if isFlag arg "--target-color" "-c" then
        parseLoop after (assign (SetTargetColor value) options)
      else if isFlag arg "--threshold" "-t" then
        parseLoop after (assign (SetThreshold (parseIntArg value)) options)
      else if String.eqb arg "--feather" then
        parseLoop after (assign (SetFeather (parseIntArg value)) options)
      else if String.eqb arg "--text-padding" then
        parseLoop after (assign (SetTextPadding (parseIntArg value)) options)
      else if String.eqb arg "--text-detection" then
        parseLoop after (assign (SetTextDetectionMode value) options)
      else if String.eqb arg "--text-colors" then
        parseLoop after (assign (SetTextColors value) options)
      else if String.eqb arg "--text-threshold" then
        parseLoop after (assign (SetTextThreshold (parseIntArg value)) options)
      else if negb (String.prefix "-" arg) then
        parseLoop rest (assign (SetSingleFile (Some arg)) options)
      else parseLoop rest options
  end.

(** How a call ends: it returns, the process exits, or an error is
    thrown. *)
Inductive Completion (A : Type) :=
| Returns (a : A)
| Exits (code : Z)
| Throws (error : string).
Arguments Returns {A} a.
Arguments Exits {A} code.
Arguments Throws {A} error.

(** The ANSI colour codes of [colors]. *)
Definition escape (code : string) : string := String "027" ("[" +:+ code +:+ "m").
Definition ansiReset : string := escape "0".
Definition ansiRed : string := escape "31".
Definition ansiYellow : string := escape "33".

(** A string in a template literal: [undefined] and [null] are printed
    by name. *)
Definition shown (absent : string) (v : option string) : string := default absent v.

(** A string used as a condition: [null], [undefined] and the empty
    string are falsy. *)
Definition truthy (v : option string) : bool :=
  match v with
  | Some (String _ _) => true
  | _ => false
  end.

(** [[...].includes(v)]. *)
Definition oneOf (allowed : list string) (v : option string) : bool :=
  match v with
  | Some s => existsb (String.eqb s) allowed
  | None => false
  end.

(** The callback of [options.textColors.split(';').map(...)].  Its error
    branch evaluates [colors.red] inside the initialiser of the block's
    own [const colors], which is still uninitialised there: a
    [ReferenceError] is thrown before anything is printed. *)
Definition textColorError : string :=
  "ReferenceError: Cannot access 'colors' before initialization".

Definition parseTextColor (colorStr : string) : string + RGBColor :=
  let parts := channelParts colorStr in
  if badParts parts then inl textColorError
  else match colorOfParts parts with
       | Some c => inr c
       | None => inl textColorError
       end.

(** [Array.prototype.map] with a callback that may throw: the first
    error ends it. *)
Fixpoint mapThrowing {A B} (f : A → string + B) (l : list A) : string + list B :=
  match l with
  | [] => inr []
  | a :: l' =>
      match f a with
      | inl error => inl error
      | inr b =>
          match mapThrowing f l' with
          | inl error => inl error
          | inr bs => inr (b :: bs)
          end
      end
  end.

(** [parseArgs()] on [process.argv.slice(2)]: the lines written with
    [console.error], and how the call ends. *)
Definition parseArgs (args : list string) : list string * Completion CliOptions :=
  let options := parseLoop args defaultOptions in
  if negb (oneOf ["ai"; "color"; "hybrid"]%string (cli_mode options)) then
    ([ansiRed +:+ "Error: Invalid mode '" +:+ shown "undefined" (cli_mode options)
       +:+ "'. Use 'ai', 'color', or 'hybrid'" +:+ ansiReset],
     Exits 1)
  else if bool_decide (cli_mode options = Some "color"%string)
          && negb (truthy (cli_targetColor options)) then
    ([ansiRed +:+ "Error: --target-color required for color mode" +:+ ansiReset;
      ansiYellow +:+ "Example: --target-color " +:+ String "034" "0,0,255"
       +:+ String "034" " (blue)" +:+ ansiReset],
     Exits 1)
  else
    let parsed :=
      if truthy (cli_targetColor options)
      then Some (parseRGBColor (default EmptyString (cli_targetColor options)))
      else None in
    match parsed with
    | Some None =>
        ([ansiRed +:+ "Error: Invalid RGB color format '"
           +:+ default EmptyString (cli_targetColor options) +:+ "'" +:+ ansiReset;
          ansiYellow +:+ "Use format: " +:+ String "034" "r,g,b"
           +:+ String "034" " (e.g., " +:+ String "034" "0,0,255"
           +:+ String "034" ")" +:+ ansiReset],
         Exits 1)
    | _ =>
        let options :=
          match parsed with
          | Some rgb => assign (SetTargetColorParsed rgb) options
          | None => options
          end in
        if negb (oneOf ["png"; "webp"]%string (cli_format options)) then
          ([ansiRed +:+ "Error: Invalid format. Use 'png' or 'webp'" +:+ ansiReset],
           Exits 1)
        else if truthy (cli_textColors options) then
          match mapThrowing parseTextColor
                  (split ";" (default EmptyString (cli_textColors options))) with
          | inl error => ([], Throws error)
          | inr colors => ([], Returns (assign (SetTextColorsParsed (Some colors)) options))
          end
        else ([], Returns options)
    end.

(** The object [main] hands to the constructor.  [verbose: false] and a
    [NaN] are falsy like a missing property; [textColorsParsed] is an
    array, truthy whenever it is there. *)
Definition coreOptions (options : CliOptions) : Options :=
  {| opt_verbose := Some false;
     opt_mode := cli_mode options;
     opt_targetColor := cli_targetColorParsed options;
     opt_threshold := cli_threshold options;
     opt_feather := cli_feather options;
     opt_colorPasses := None;
     opt_textPadding := cli_textPadding options;
     opt_textDetectionMode := cli_textDetectionMode options;
     opt_textColors :=
       Some (default [ {| r := 255; g := 255; b := 255 |} ]
                     (cli_textColorsParsed options));
     opt_textThreshold := cli_textThreshold options |}.

(** [new BackgroundRemoverCore({...})] in [main]. *)
Definition mainCore (options : CliOptions) : Core := constructor (coreOptions options).

(** Whether every character of [s] passes the test [p]. *)
Fixpoint allChars (p : ascii → bool) (s : string) : bool :=
  match s with
  | String c rest => p c && allChars p rest
  | EmptyString => true
  end.

Definition isDigit (c : ascii) : bool := bool_decide (is_Some (digitValue c)).

Definition notComma (c : ascii) : bool := negb (Ascii.eqb c ",").

(** White space only. *)
Definition blank (s : string) : Prop := allChars isWhiteSpace s = true.

(** A string with no comma that does not begin with a digit: what may
    follow a number in a colour without changing it. *)
Definition trailing (s : string) : Prop :=
  allChars notComma s = true
  ∧ match s with
    | String c _ => isDigit c = false
    | EmptyString => True
    end.

(** What the decimal numeral of a byte has to satisfy. *)
Definition byteChecks (n : Z) : bool :=
  bool_decide (readDigits (pretty n) None = Some n)
  && allChars isDigit (pretty n)
  && negb (String.eqb (pretty n) EmptyString).

(** The settings the loop makes: every one but the two parsed fields. *)
Definition fromFlag (setting : Setting) : Prop :=
  match setting with
  | SetTargetColorParsed _ | SetTextColorsParsed _ => False
  | _ => True
  end.

(* ================================================================= *)
(** ** The colour white and [getTimestamp] *)

Definition white : RGBColor := {| r := 255; g := 255; b := 255 |}.

(** [s.replace(/[:.]/g, '-')]. *)
Fixpoint dashed (s : string) : string :=
  match s with
  | String c rest =>
      String (if Ascii.eqb c ":" || Ascii.eqb c "." then "-"%char else c)
             (dashed rest)
  | EmptyString => EmptyString
  end.

(** [getTimestamp()], from [now.toISOString()]. *)
Definition getTimestamp (iso : string) : string :=
  default EmptyString (head (split "." (dashed iso))).

(* ================================================================= *)
(** ** The router, AI mode and batch processing *)

(** What the router and the batch loop do to the outside world: the
    steps of the colour and hybrid methods, and what they add.
    ([this.log] lines, printed only in verbose mode, are left out as they
    are above.) *)
Inductive Output :=
| Engine (e : Event)             (* a step of one of the methods above *)
| ConsoleLog (line : string)     (* console.log *)
| ConsoleWarn (line : string)    (* console.warn *)
| MadeDirectory                  (* fs.mkdir(..., { recursive: true }) *)
| WroteFile (bytes : list Z).    (* fs.writeFile(outputPath, buffer) *)

Module Job.

(** The same kind of computation as [Run], over the wider log. *)
Definition t (A : Type) : Type := list Output → (string + A) * list Output.

Definition ret {A} (a : A) : t A := fun log => (inr a, log).

Definition throw {A} (message : string) : t A := fun log => (inl message, log).

Definition bind {A B} (m : t A) (k : A → t B) : t B :=
  fun log =>
    match m log with
    | (inl message, log') => (inl message, log')
    | (inr a, log') => k a log'
    end.

Definition emit (o : Output) : t unit := fun log => (inr tt, log ++ [o]).

Definition await {A} (outcome : string + A) : t A := fun log => (outcome, log).

Definition tryCatch {A} (body : t A) (handler : string → t A) : t A :=
  fun log =>
    match body log with
    | (inl message, log') => handler message log'
    | (inr a, log') => (inr a, log')
    end.

(** A call of one of the methods above: its events join the log. *)
Definition call {A} (m : Run A) : t A :=
  fun log => let '(outcome, events) := m [] in (outcome, log ++ (Engine <$> events)).

End Job.

Notation "'let+' x := m 'in' k" := (Job.bind m (fun x => k))
  (at level 10, x name, m at level 100, k at level 200, only parsing).
Notation "m ;;+ k" := (Job.bind m (fun _ => k))
  (at level 100, k at level 200, right associativity, only parsing).

(** What one image meets besides its [World]: the AI collaborator's raw
    answer and the file system under the output path. *)
Record Scene := {
  world : World;
  segmentation : string + list Z;    (* removeBackground(fileUrl), its bytes *)
  outputDirError : option string;    (* fs.mkdir(path.dirname(outputPath)) throws *)
  writeError : option string         (* fs.writeFile(outputPath, buffer) throws *)
}.

Definition makeDirectory (error : option string) : Job.t unit :=
  match error with
  | Some message => Job.throw message
  | None => Job.emit MadeDirectory
  end.

Definition writeFile (error : option string) (bytes : list Z) : Job.t unit :=
  match error with
  | Some message => Job.throw message
  | None => Job.emit (WroteFile bytes)
  end.

(** [removeBackgroundAI(inputPath, outputPath, format)]. *)
Definition removeBackgroundAI (scene : Scene) (format : string) : Job.t bool :=
  Job.tryCatch
    (Job.call (checkInput (world scene)) ;;+
     let+ buffer := Job.await (segmentation scene) in
     makeDirectory (outputDirError scene) ;;+
     (if String.eqb format "webp" then
        Job.emit (ConsoleWarn
                    "  Warning: WebP output not available. Saving as PNG instead.")
      else Job.ret tt) ;;+
     writeFile (writeError scene) buffer ;;+
     Job.ret true)
    (fun message =>
       Job.emit (Engine (ConsoleError
                           ("Error processing " +:+ inputName (world scene)
                            +:+ ": " +:+ message))) ;;+
       Job.ret false).

(** [removeBackground(inputPath, outputPath, format)], the router. *)
Definition removeBackground (this : Core) (scene : Scene) (format : string)
    : Job.t bool :=
  if String.eqb (mode this) "ai" then removeBackgroundAI scene format
  else if String.eqb (mode this) "color" then
    Job.call (removeBackgroundColor this (world scene))
  else if String.eqb (mode this) "hybrid" then
    Job.call (removeBackgroundHybrid this (world scene))
  else
    Job.throw ("Unknown mode: " +:+ mode this +:+ ". Use 'ai', 'color', or 'hybrid'.").

(** One entry of [stats.files]; [output] is missing for a failure. *)
Record FileReport := {
  input : string;
  output : option string;
  status : string
}.

Record Stats := {
  total : Z;
  success : Z;
  failed : Z;
  skipped : Z;
  files : list FileReport
}.

(** A name [fs.readdir] lists, with what the loop derives from it and
    what the engine meets at [path.join(inputDir, file)]. *)
Record DirEntry := {
  file : string;
  extension : string;     (* path.extname(file).toLowerCase() *)
  stem : string;          (* path.basename(file, path.extname(file)) *)
  scene : Scene
}.

Record Directory := {
  inputDir : string;
  directoryExists : bool;                  (* fs.access(inputDir) succeeds *)
  listing : string + list DirEntry;        (* fs.readdir(inputDir) *)
  outputDirFailure : option string         (* fs.mkdir(outputDir) throws *)
}.

(** [isSupportedFormat(file)]. *)
Definition isSupportedFormat (entry : DirEntry) : bool :=
  isSupported (extension entry).

Definition succeededReport (entry : DirEntry) : FileReport :=
  {| input := file entry; output := Some (stem entry +:+ ".png");
     status := "success" |}.

Definition failedReport (entry : DirEntry) : FileReport :=
  {| input := file entry; output := None; status := "failed" |}.

(** The update of [stats] after one file. *)
Definition record (ok : bool) (entry : DirEntry) (stats : Stats) : Stats :=
  if ok then
    {| total := total stats; success := success stats + 1;
       failed := failed stats; skipped := skipped stats;
       files := files stats ++ [succeededReport entry] |}
  else
    {| total := total stats; success := success stats;
       failed := failed stats + 1; skipped := skipped stats;
       files := files stats ++ [failedReport entry] |}.

(** The [for] loop over [imageFiles], from index [i]. *)
Fixpoint processFiles (this : Core) (format : string) (count i : nat)
    (imageFiles : list DirEntry) (stats : Stats) : Job.t Stats :=
  match imageFiles with
  | [] => Job.ret stats
  | entry :: rest =>
      Job.emit (ConsoleLog ("[" +:+ pretty (i + 1)%nat +:+ "/" +:+ pretty count
                            +:+ "] Processing: " +:+ file entry)) ;;+
      let+ ok := removeBackground this (scene entry) format in
      Job.emit (ConsoleLog EmptyString) ;;+
      processFiles this format count (S i) rest (record ok entry stats)
  end.

Definition newStats (count : Z) : Stats :=
  {| total := count; success := 0; failed := 0; skipped := 0; files := [] |}.

(** [processBatch(inputDir, outputDir, format)]. *)
Definition processBatch (this : Core) (directory : Directory) (format : string)
    : Job.t Stats :=
  Job.tryCatch
    ((if directoryExists directory then Job.ret tt
      else Job.throw ("Input directory not found: " +:+ inputDir directory)) ;;+
     let+ entries := Job.await (listing directory) in
     let imageFiles := List.filter isSupportedFormat entries in
     if (length imageFiles =? 0)%nat then
       Job.emit (ConsoleLog "No supported image files found in input directory") ;;+
       Job.ret (newStats 0)
     else
       Job.emit (ConsoleLog ("Found " +:+ pretty (length imageFiles)
                             +:+ " image(s) to process" +:+ String "010" EmptyString)) ;;+
       makeDirectory (outputDirFailure directory) ;;+
       processFiles this format (length imageFiles) 0 imageFiles
                    (newStats (Z.of_nat (length imageFiles))))
    (fun message =>
       Job.emit (Engine (ConsoleError ("Batch processing error: " +:+ message))) ;;+
       Job.throw message).

(** Whether the run of one image goes through, read off the world. *)
Definition runSucceeds (this : Core) (scene : Scene) : bool :=
  fileExists (world scene) && isSupported (inputExt (world scene))
  && if String.eqb (mode this) "ai" then
       succeeded (segmentation scene)
       && bool_decide (outputDirError scene = None)
       && bool_decide (writeError scene = None)
     else if String.eqb (mode this) "color" then
       hasColourTarget this && succeeded (decoded (world scene))
       && bool_decide (saveError (world scene) = None)
     else
       succeeded (cutout (world scene)) && succeeded (decoded (world scene))
       && negb (detectionThrows this (world scene))
       && bool_decide (saveError (world scene) = None).

Definition knownMode (this : Core) : bool :=
  String.eqb (mode this) "ai" || String.eqb (mode this) "color"
  || String.eqb (mode this) "hybrid".

(** The report of one file. *)
Definition reportOf (this : Core) (entry : DirEntry) : FileReport :=
  if runSucceeds this (scene entry) then succeededReport entry
  else failedReport entry.

Definition tally (this : Core) (stats : Stats) (entries : list DirEntry) : Stats :=
  foldl (λ stats entry, record (runSucceeds this (scene entry)) entry stats)
        stats entries.

(* ================================================================= *)
(** ** Further sample inputs *)

(** A blue pixel and a transparent reddish one; the pass that removes
    blue. *)
Definition bluePair : Bitmap := rowBitmap 2 [0; 0; 255; 255; 200; 10; 10; 0].
Definition bluePass : ColorPass := {| color := blue; pass_threshold := 10 |}.

(** An engine whose text detection mode is misspelt. *)
Definition misconfigured : Core :=
  constructor
    {| opt_verbose := None; opt_mode := Some "hybrid"%string;
       opt_targetColor := None; opt_threshold := None; opt_feather := None;
       opt_colorPasses := None; opt_textPadding := None;
       opt_textDetectionMode := Some "colour"%string;
       opt_textColors := None; opt_textThreshold := None |}.

(** A directory with one image that processes and one that does not
    decode, and a file that is no image. *)
Definition sampleScene : Scene :=
  {| world := sampleWorld; segmentation := inr [137; 80; 78; 71];
     outputDirError := None; writeError := None |}.

Definition brokenScene : Scene :=
  {| world :=
       {| inputPath := "in/broken.jpg"; inputName := "broken.jpg";
          inputExt := ".jpg"; fileExists := true;
          decoded := inl "Could not find MIME for Buffer"%string;
          cutout := inl "Could not find MIME for Buffer"%string;
          recognition := inr None; saveError := None;
          argumentLimit := 125000 |};
     segmentation := inl "Invalid image"%string;
     outputDirError := None; writeError := None |}.

Definition sampleDirectory : Directory :=
  {| inputDir := "in"; directoryExists := true;
     listing :=
       inr [ {| file := "photo.png"; extension := ".png"; stem := "photo";
                scene := sampleScene |};
             {| file := "notes.txt"; extension := ".txt"; stem := "notes";
                scene := sampleScene |};
             {| file := "broken.jpg"; extension := ".jpg"; stem := "broken";
                scene := brokenScene |} ];
     outputDirFailure := None |}.

(** An engine in hybrid mode that detects text by colour, and a world
    with the white card below on a runtime that takes no more than 49
    arguments in a call. *)
Definition colourDetecting : Core :=
  constructor
    {| opt_verbose := None; opt_mode := Some "hybrid"%string;
       opt_targetColor := None; opt_threshold := None; opt_feather := None;
       opt_colorPasses := None; opt_textPadding := None;
       opt_textDetectionMode := Some "color"%string;
       opt_textColors := None; opt_textThreshold := None |}.

Definition cardWorld (card cut : Bitmap) (limit : Z) : World :=
  {| inputPath := "in/card.png"; inputName := "card.png"; inputExt := ".png";
     fileExists := true; decoded := inr card; cutout := inr cut;
     recognition := inr None; saveError := None; argumentLimit := limit |}.

(** A 10 by 5 image, white all over. *)
Definition whiteCard : Bitmap :=
  {| bitmap_width := 10; bitmap_height := 5;
     bitmap_data := mjoin (replicate 50 [255; 255; 255; 255]) |}.
Definition clearCard : Bitmap :=
  {| bitmap_width := 10; bitmap_height := 5;
     bitmap_data := mjoin (replicate 50 [0; 0; 0; 0]) |}.

(* ================================================================= *)
(** ** Proof tactics *)

(** Well-formedness of a bitmap and validity of a colour given by
    their bytes. *)
Ltac concrete_bitmap :=
  unfold wellFormed, rowBitmap; simpl;
  repeat split; try lia; repeat constructor; unfold isByte; lia.

Ltac concrete_color := unfold validColor, isByte; simpl; lia.

(** Membership in lists built with [++] and [::], as a disjunction. *)
Ltac split_elems :=
  repeat (rewrite elem_of_app || rewrite elem_of_cons || rewrite elem_of_nil).

Ltac split_elems_in H :=
  repeat (rewrite elem_of_app in H || rewrite elem_of_cons in H
          || rewrite elem_of_nil in H).

(* ================================================================= *)
(** * Properties *)

(* ================================================================= *)
(** ** Rounding to nearest is monotone, and exact on small integers *)

Section NumberFacts.
Local Open Scope Q_scope.

Lemma pow2_pos e : 0 < pow2 e.
Proof. apply Qpower_0_lt. reflexivity. Qed.

Lemma pow2_add a b : pow2 (a + b) == pow2 a * pow2 b.
Proof. apply Qpower_plus. discriminate. Qed.

Lemma pow2_le a b : (a <= b)%Z -> pow2 a <= pow2 b.
Proof. intros H. apply Qpower_le_compat_l; [exact H | discriminate]. Qed.

Lemma pow2_lt a b : (a < b)%Z -> pow2 a < pow2 b.
Proof. intros H. apply Qpower_lt_compat_l; [exact H | reflexivity]. Qed.

Lemma pow2_lt_inv a b : pow2 a < pow2 b -> (a < b)%Z.
Proof. intros H. apply (Qpower_lt_compat_l_inv 2); [exact H | reflexivity]. Qed.

Lemma pow2_Z e : (0 <= e)%Z -> pow2 e == inject_Z (2 ^ e).
Proof. intros H. unfold pow2. rewrite Zpower_Qpower by exact H. reflexivity. Qed.

Lemma pow2_succ a : pow2 (a + 1) == 2 * pow2 a.
Proof. rewrite pow2_add. change (pow2 1) with 2. ring. Qed.

Lemma Q_as_div (q : Q) : q == inject_Z (Qnum q) / inject_Z (Zpos (Qden q)).
Proof. destruct q as [n d]. simpl. apply Qmake_Qdiv. Qed.

Lemma ilog2_spec q : 0 < q -> pow2 (ilog2 q) <= q /\ q < pow2 (ilog2 q + 1).
Proof.
  intros Hq.
  assert (Hn : (0 < Qnum q)%Z).
  { destruct q as [n d]. unfold Qlt in Hq. simpl in *. lia. }
  set (n := Qnum q) in *. set (d := Zpos (Qden q)).
  assert (Hd : (0 < d)%Z) by (unfold d; lia).
  pose proof (Z.log2_spec n Hn) as [Hn1 Hn2].
  pose proof (Z.log2_spec d Hd) as [Hd1 Hd2].
  pose proof (Z.log2_nonneg n) as Hln. pose proof (Z.log2_nonneg d) as Hld.
  set (ln := Z.log2 n) in *. set (ld := Z.log2 d) in *.
  assert (HA : pow2 ln <= inject_Z n /\ inject_Z n < 2 * pow2 ln).
  { rewrite pow2_Z by exact Hln. split.
    - rewrite <- Zle_Qle. exact Hn1.
    - change 2 with (inject_Z 2). rewrite <- inject_Z_mult, <- Zlt_Qlt.
      replace (2 * 2 ^ ln)%Z with (2 ^ Z.succ ln)%Z; [exact Hn2|].
      rewrite Z.pow_succ_r by exact Hln. reflexivity. }
  assert (HB : pow2 ld <= inject_Z d /\ inject_Z d < 2 * pow2 ld).
  { rewrite pow2_Z by exact Hld. split.
    - rewrite <- Zle_Qle. exact Hd1.
    - change 2 with (inject_Z 2). rewrite <- inject_Z_mult, <- Zlt_Qlt.
      replace (2 * 2 ^ ld)%Z with (2 ^ Z.succ ld)%Z; [exact Hd2|].
      rewrite Z.pow_succ_r by exact Hld. reflexivity. }
  assert (Hk : pow2 ln == pow2 (ln - ld) * pow2 ld).
  { rewrite <- pow2_add. replace (ln - ld + ld)%Z with ln by ring. reflexivity. }
  pose proof (pow2_pos ld) as Pld. pose proof (pow2_pos (ln - ld)) as Pk.
  assert (Pd : 0 < inject_Z d).
  { change 0 with (inject_Z 0). rewrite <- Zlt_Qlt. exact Hd. }
  assert (Hqd : q * inject_Z d == inject_Z n).
  { rewrite (Q_as_div q) at 1. fold n. fold d. field. intro E. lra. }
  destruct HA as [HA1 HA2], HB as [HB1 HB2].
  unfold ilog2. fold n d ln ld.
  destruct (Qle_bool (pow2 (ln - ld)) q) eqn:E.
  - apply Qle_bool_iff in E. split; [exact E|].
    rewrite pow2_succ.
    apply Qnot_le_lt. intro C.
    assert (2 * pow2 (ln - ld) * inject_Z d <= q * inject_Z d) by nra.
    nra.
  - assert (E' : q < pow2 (ln - ld)).
    { apply Qnot_le_lt. intro C. apply Qle_bool_iff in C. congruence. }
    replace (ln - ld - 1 + 1)%Z with (ln - ld)%Z by ring. split; [|exact E'].
    assert (Hs : pow2 (ln - ld) == 2 * pow2 (ln - ld - 1)).
    { rewrite <- pow2_succ. replace (ln - ld - 1 + 1)%Z with (ln - ld)%Z by ring. reflexivity. }
    apply Qnot_lt_le. intro C.
    assert (q * inject_Z d < pow2 (ln - ld - 1) * inject_Z d) by nra.
    pose proof (pow2_pos (ln - ld - 1)). nra.
Qed.

Lemma ilog2_mono x y : 0 < x -> x <= y -> (ilog2 x <= ilog2 y)%Z.
Proof.
  intros Hx Hxy.
  destruct (ilog2_spec x Hx) as [A _].
  destruct (ilog2_spec y) as [_ B]; [lra|].
  assert (H : pow2 (ilog2 x) < pow2 (ilog2 y + 1)) by lra.
  apply pow2_lt_inv in H. lia.
Qed.

Lemma half_even_bounds q : (Qfloor q <= half_even q <= Qfloor q + 1)%Z.
Proof.
  unfold half_even. destruct (Qcompare _ _); [destruct (Z.even _)| |]; lia.
Qed.

Lemma half_even_Z k : half_even (inject_Z k) = k.
Proof.
  unfold half_even. rewrite Qfloor_Z.
  assert (E : inject_Z k - inject_Z k == 0) by ring.
  rewrite E. reflexivity.
Qed.

Lemma half_even_mono x y : x <= y -> (half_even x <= half_even y)%Z.
Proof.
  intros Hxy. pose proof (Qfloor_resp_le x y Hxy) as Hf.
  pose proof (half_even_bounds x) as Bx. pose proof (half_even_bounds y) as By.
  destruct (Z.eq_dec (Qfloor x) (Qfloor y)) as [E|NE]; [|lia].
  unfold half_even. rewrite E.
  destruct (Qcompare_spec (x - inject_Z (Qfloor y)) (1 # 2)) as [Hx|Hx|Hx];
  destruct (Qcompare_spec (y - inject_Z (Qfloor y)) (1 # 2)) as [Hy|Hy|Hy];
  try destruct (Z.even (Qfloor y)); try lia; exfalso; lra.
Qed.

Lemma half_even_ge k q : inject_Z k <= q -> (k <= half_even q)%Z.
Proof. intros H. rewrite <- (half_even_Z k). apply half_even_mono, H. Qed.

Lemma half_even_le k q : q <= inject_Z k -> (half_even q <= k)%Z.
Proof. intros H. rewrite <- (half_even_Z k). apply half_even_mono, H. Qed.

Lemma ulp_exp_mono x y : 0 < x -> x <= y -> (ulp_exp x <= ulp_exp y)%Z.
Proof.
  intros Hx Hxy. unfold ulp_exp. pose proof (ilog2_mono x y Hx Hxy). lia.
Qed.

Lemma div_pow2_le x y e : x <= y -> x / pow2 e <= y / pow2 e.
Proof.
  intros H. unfold Qdiv. apply Qmult_le_compat_r; [exact H|].
  apply Qlt_le_weak, Qinv_lt_0_compat, pow2_pos.
Qed.

Lemma scaled_lt_pow53 x : 0 < x -> x / pow2 (ulp_exp x) < pow2 53.
Proof.
  intros Hx. destruct (ilog2_spec x Hx) as [_ B].
  pose proof (pow2_pos (ulp_exp x)) as P.
  apply Qlt_shift_div_r; [exact P|].
  rewrite <- pow2_add.
  eapply Qlt_le_trans; [exact B|]. apply pow2_le. unfold ulp_exp. lia.
Qed.

Lemma scaled_ge_pow52 y : 0 < y -> (emin < ulp_exp y)%Z -> pow2 52 <= y / pow2 (ulp_exp y).
Proof.
  intros Hy He. destruct (ilog2_spec y Hy) as [A _].
  pose proof (pow2_pos (ulp_exp y)) as P.
  apply Qle_shift_div_l; [exact P|].
  rewrite <- pow2_add.
  eapply Qle_trans; [|exact A]. apply pow2_le. unfold ulp_exp in *. lia.
Qed.

Lemma pow2_53 : pow2 53 == inject_Z (2 ^ 53).
Proof. apply pow2_Z. lia. Qed.

Lemma pow2_52 : pow2 52 == inject_Z (2 ^ 52).
Proof. apply pow2_Z. lia. Qed.

Lemma round_pos_nonneg x : 0 < x -> 0 <= round_pos x.
Proof.
  intros Hx. unfold round_pos. pose proof (pow2_pos (ulp_exp x)) as P.
  apply Qmult_le_0_compat; [|lra].
  change 0 with (inject_Z 0). rewrite <- Zle_Qle. apply half_even_ge.
  change (inject_Z 0) with 0. apply Qle_shift_div_l; [exact P|]. lra.
Qed.

Lemma round_pos_mono x y : 0 < x -> x <= y -> round_pos x <= round_pos y.
Proof.
  intros Hx Hxy. assert (Hy : 0 < y) by lra.
  pose proof (ulp_exp_mono x y Hx Hxy) as He.
  unfold round_pos.
  destruct (Z.eq_dec (ulp_exp x) (ulp_exp y)) as [E|NE].
  - rewrite E. apply Qmult_le_compat_r; [|apply Qlt_le_weak, pow2_pos].
    rewrite <- Zle_Qle. apply half_even_mono, div_pow2_le, Hxy.
  - assert (Hlt : (ulp_exp x < ulp_exp y)%Z) by lia.
    assert (Hmin : (emin <= ulp_exp x)%Z) by (unfold ulp_exp; lia).
    pose proof (scaled_lt_pow53 x Hx) as Ux.
    pose proof (scaled_ge_pow52 y Hy ltac:(lia)) as Ly.
    rewrite pow2_53 in Ux. rewrite pow2_52 in Ly.
    apply Qlt_le_weak, half_even_le in Ux. apply half_even_ge in Ly.
    rewrite Zle_Qle in Ux, Ly. rewrite <- pow2_53 in Ux. rewrite <- pow2_52 in Ly.
    pose proof (pow2_pos (ulp_exp x)) as Px. pose proof (pow2_pos (ulp_exp y)) as Py.
    assert (Hp : pow2 53 * pow2 (ulp_exp x) <= pow2 52 * pow2 (ulp_exp y)).
    { rewrite <- !pow2_add. apply pow2_le. lia. }
    eapply Qle_trans; [apply Qmult_le_compat_r; [exact Ux|lra]|].
    eapply Qle_trans; [exact Hp|].
    apply Qmult_le_compat_r; [exact Ly|lra].
Qed.

Lemma RN_mono x y : x <= y -> RN x <= RN y.
Proof.
  intros Hxy. unfold RN.
  destruct (Qcompare_spec x 0) as [Hx|Hx|Hx];
  destruct (Qcompare_spec y 0) as [Hy|Hy|Hy]; try lra.
  - apply round_pos_nonneg, Hy.
  - assert (P : 0 < - x) by lra. apply round_pos_nonneg in P. lra.
  - assert (P : 0 < - y) by lra.
    pose proof (round_pos_mono (- y) (- x) P ltac:(lra)). lra.
  - assert (P : 0 < - x) by lra. apply round_pos_nonneg in P.
    pose proof (round_pos_nonneg y Hy). lra.
  - apply round_pos_mono; lra.
Qed.

Lemma RN_nonneg x : 0 <= x -> 0 <= RN x.
Proof. intros H. change 0 with (RN 0) at 1. apply RN_mono, H. Qed.

Lemma ilog2_unique q l : pow2 l <= q -> q < pow2 (l + 1) -> ilog2 q = l.
Proof.
  intros A B. pose proof (pow2_pos l) as P.
  destruct (ilog2_spec q) as [C D]; [lra|].
  assert (H1 : pow2 l < pow2 (ilog2 q + 1)) by lra.
  assert (H2 : pow2 (ilog2 q) < pow2 (l + 1)) by lra.
  apply pow2_lt_inv in H1, H2. lia.
Qed.

Lemma pow2_opp e : pow2 e * pow2 (- e) == 1.
Proof. rewrite <- pow2_add. replace (e + - e)%Z with 0%Z by ring. reflexivity. Qed.

Lemma half_even_eq x y : x == y -> half_even x = half_even y.
Proof.
  intros E. apply Z.le_antisymm; apply half_even_mono; rewrite E; apply Qle_refl.
Qed.

Lemma pow2_inv e : / pow2 e == pow2 (- e).
Proof. unfold pow2. rewrite Qpower_opp. reflexivity. Qed.

Lemma round_pos_int z : (0 < z < 2 ^ 53)%Z -> round_pos (inject_Z z) == inject_Z z.
Proof.
  intros [Hz Hb].
  pose proof (Z.log2_spec z Hz) as [L1 L2]. pose proof (Z.log2_nonneg z) as L0.
  assert (L53 : (Z.log2 z < 53)%Z).
  { apply Z.log2_lt_pow2; [exact Hz|exact Hb]. }
  assert (E : ilog2 (inject_Z z) = Z.log2 z).
  { apply ilog2_unique.
    - rewrite pow2_Z by exact L0. rewrite <- Zle_Qle. exact L1.
    - rewrite pow2_Z by lia. rewrite <- Zlt_Qlt. exact L2. }
  unfold round_pos, ulp_exp. rewrite E.
  replace (Z.max (Z.log2 z - 52) emin) with (Z.log2 z - 52)%Z by (unfold emin; lia).
  set (e := (Z.log2 z - 52)%Z).
  assert (S : inject_Z z / pow2 e == inject_Z (z * 2 ^ (- e))).
  { unfold Qdiv. rewrite pow2_inv, pow2_Z by (unfold e; lia).
    rewrite <- inject_Z_mult. reflexivity. }
  rewrite (half_even_eq _ _ S), half_even_Z, inject_Z_mult.
  rewrite <- pow2_Z by (unfold e; lia).
  rewrite <- Qmult_assoc, (Qmult_comm (pow2 (- e))), pow2_opp. ring.
Qed.

Lemma RN_int z : (Z.abs z < 2 ^ 53)%Z -> RN (inject_Z z) == inject_Z z.
Proof.
  intros Hz. unfold RN.
  destruct (Qcompare_spec (inject_Z z) 0) as [H|H|H].
  - symmetry. exact H.
  - change 0 with (inject_Z 0) in H. rewrite <- Zlt_Qlt in H.
    rewrite <- inject_Z_opp, round_pos_int by lia.
    rewrite inject_Z_opp. ring.
  - change 0 with (inject_Z 0) in H. rewrite <- Zlt_Qlt in H.
    apply round_pos_int. lia.
Qed.

Lemma nearest_root_bounds s :
  (Z.sqrt (Qfloor s) <= nearest_root s <= Z.sqrt (Qfloor s) + 1)%Z.
Proof.
  unfold nearest_root. destruct (Qcompare _ _); [destruct (Z.even _)| |]; lia.
Qed.

Lemma nearest_root_mono s1 s2 : s1 <= s2 -> (nearest_root s1 <= nearest_root s2)%Z.
Proof.
  intros H. pose proof (Qfloor_resp_le _ _ H) as Hf.
  pose proof (Z.sqrt_le_mono _ _ Hf) as Hk.
  pose proof (nearest_root_bounds s1) as B1. pose proof (nearest_root_bounds s2) as B2.
  destruct (Z.eq_dec (Z.sqrt (Qfloor s1)) (Z.sqrt (Qfloor s2))) as [E|NE]; [|lia].
  unfold nearest_root. rewrite E. set (c := inject_Z _).
  destruct (Qcompare_spec (4 * s1) c) as [H1|H1|H1];
  destruct (Qcompare_spec (4 * s2) c) as [H2|H2|H2];
  try destruct (Z.even _); try lia; exfalso; lra.
Qed.

Lemma sqrt_exp_mono n1 n2 : (0 < n1 <= n2)%Z -> (sqrt_exp n1 <= sqrt_exp n2)%Z.
Proof.
  intros H. unfold sqrt_exp.
  assert (Z.log2 n1 <= Z.log2 n2)%Z by (apply Z.log2_le_mono; lia).
  assert (Z.log2 n1 / 2 <= Z.log2 n2 / 2)%Z by (apply Z.div_le_mono; lia).
  lia.
Qed.

Lemma sqrt_scaled_bounds n :
  (0 < n)%Z -> pow2 104 <= sqrt_scaled n /\ sqrt_scaled n < pow2 106.
Proof.
  intros Hn. pose proof (Z.log2_spec n Hn) as [L1 L2].
  pose proof (Z.log2_nonneg n) as L0.
  assert (A : pow2 (Z.log2 n) <= inject_Z n).
  { rewrite pow2_Z by exact L0. rewrite <- Zle_Qle. exact L1. }
  assert (B : inject_Z n < pow2 (Z.log2 n + 1)).
  { rewrite pow2_Z by lia. rewrite <- Zlt_Qlt. exact L2. }
  pose proof (Z.div_mod (Z.log2 n) 2 ltac:(lia)) as D.
  pose proof (Z.mod_pos_bound (Z.log2 n) 2 ltac:(lia)) as M.
  unfold sqrt_scaled. set (e := sqrt_exp n).
  assert (He : (2 * e = 2 * (Z.log2 n / 2) - 104)%Z) by (unfold e, sqrt_exp; lia).
  pose proof (pow2_pos (2 * e)) as P. split.
  - apply Qle_shift_div_l; [exact P|]. rewrite <- pow2_add.
    eapply Qle_trans; [|exact A]. apply pow2_le. lia.
  - apply Qlt_shift_div_r; [exact P|]. rewrite <- pow2_add.
    eapply Qlt_le_trans; [exact B|]. apply pow2_le. lia.
Qed.

Lemma nearest_root_range n :
  (0 < n)%Z -> (2 ^ 52 <= nearest_root (sqrt_scaled n) <= 2 ^ 53)%Z.
Proof.
  intros Hn. destruct (sqrt_scaled_bounds n Hn) as [A B].
  pose proof (nearest_root_bounds (sqrt_scaled n)) as K.
  set (s := sqrt_scaled n) in *.
  assert (F1 : (2 ^ 104 <= Qfloor s)%Z).
  { rewrite <- (Qfloor_Z (2 ^ 104)). apply Qfloor_resp_le.
    rewrite <- pow2_Z by lia. exact A. }
  assert (F2 : (Qfloor s < 2 ^ 106)%Z).
  { rewrite Zlt_Qlt. eapply Qle_lt_trans; [apply Qfloor_le|].
    rewrite <- pow2_Z by lia. exact B. }
  assert (K1 : (2 ^ 52 <= Z.sqrt (Qfloor s))%Z).
  { change (2 ^ 52)%Z with (Z.sqrt (2 ^ 104)). apply Z.sqrt_le_mono, F1. }
  assert (K2 : (Z.sqrt (Qfloor s) < 2 ^ 53)%Z).
  { apply Z.sqrt_lt_square; [lia|lia|]. change (2 ^ 53 * 2 ^ 53)%Z with (2 ^ 106)%Z. exact F2. }
  lia.
Qed.

Lemma js_sqrt_nonneg n : 0 <= js_sqrt n.
Proof.
  unfold js_sqrt. destruct (Z.leb_spec n 0) as [H|H]; [apply Qle_refl|].
  pose proof (nearest_root_range n H) as R. pose proof (pow2_pos (sqrt_exp n)) as P.
  apply Qmult_le_0_compat; [|lra].
  change 0 with (inject_Z 0). rewrite <- Zle_Qle. lia.
Qed.

Lemma js_sqrt_mono n1 n2 : (n1 <= n2)%Z -> js_sqrt n1 <= js_sqrt n2.
Proof.
  intros H. destruct (Z.leb_spec n1 0) as [H1|H1].
  - unfold js_sqrt at 1. rewrite (proj2 (Z.leb_le n1 0) H1). apply js_sqrt_nonneg.
  - unfold js_sqrt. rewrite (proj2 (Z.leb_gt n1 0) H1), (proj2 (Z.leb_gt n2 0)) by lia.
    pose proof (sqrt_exp_mono n1 n2 ltac:(lia)) as He.
    pose proof (pow2_pos (sqrt_exp n1)) as P1. pose proof (pow2_pos (sqrt_exp n2)) as P2.
    destruct (Z.eq_dec (sqrt_exp n1) (sqrt_exp n2)) as [E|NE].
    + apply Qmult_le_compat_nonneg.
      * split; [|rewrite <- Zle_Qle; apply nearest_root_mono].
        -- change 0 with (inject_Z 0). rewrite <- Zle_Qle.
           pose proof (nearest_root_range n1 H1). lia.
        -- unfold sqrt_scaled. rewrite E. apply div_pow2_le.
           rewrite <- Zle_Qle. exact H.
      * split; [lra|]. rewrite E. apply Qle_refl.
    + pose proof (nearest_root_range n1 H1) as R1.
      pose proof (nearest_root_range n2 ltac:(lia)) as R2.
      assert (U : inject_Z (nearest_root (sqrt_scaled n1)) <= pow2 53).
      { rewrite pow2_53, <- Zle_Qle. lia. }
      assert (L : pow2 52 <= inject_Z (nearest_root (sqrt_scaled n2))).
      { rewrite pow2_52, <- Zle_Qle. lia. }
      assert (Hp : pow2 53 * pow2 (sqrt_exp n1) <= pow2 52 * pow2 (sqrt_exp n2)).
      { rewrite <- !pow2_add. apply pow2_le. lia. }
      eapply Qle_trans; [apply Qmult_le_compat_r; [exact U|lra]|].
      eapply Qle_trans; [exact Hp|].
      apply Qmult_le_compat_r; [exact L|lra].
Qed.

End NumberFacts.

(* ================================================================= *)
(** ** Buffers *)

Lemma byteAt_setByte_ne data i j v :
  i ≠ j → byteAt (setByte data j v) i = byteAt data i.
Proof.
  intros Hij. unfold byteAt, setByte.
  destruct (Z.ltb_spec j 0); [done|].
  destruct (Z.ltb_spec i 0); [done|].
  apply list_lookup_insert_ne. lia.
Qed.

Lemma byteAt_setByte_eq data j v :
  is_Some (byteAt data j) → byteAt (setByte data j v) j = Some (toUint8 v).
Proof.
  unfold byteAt, setByte. destruct (Z.ltb_spec j 0).
  - intros [? ?]. done.
  - intros Hs. apply list_lookup_insert_eq. by apply lookup_lt_is_Some.
Qed.

Lemma byteAt_setByte_None data i j v :
  byteAt data i = None → byteAt (setByte data j v) i = None.
Proof.
  unfold byteAt, setByte. destruct (Z.ltb_spec i 0); [done|].
  destruct (Z.ltb_spec j 0); [done|].
  rewrite !lookup_ge_None, length_insert. done.
Qed.

Lemma setByte_same data j v :
  byteAt data j = Some v → toUint8 v = v → setByte data j v = data.
Proof.
  unfold byteAt, setByte. destruct (Z.ltb_spec j 0); [done|].
  intros Hj Hv. rewrite Hv. by apply list_insert_id.
Qed.

Lemma length_setByte data j v : length (setByte data j v) = length data.
Proof. unfold setByte. destruct (j <? 0); [done|]. apply length_insert. Qed.

Lemma scanOffsets_spec width height idx :
  idx ∈ scanOffsets width height →
  ∃ p, 0 ≤ p ∧ idx = 4 * p.
Proof.
  unfold scanOffsets. intros H.
  apply list_elem_of_bind in H as (y & H & Hy).
  apply list_elem_of_bind in H as (x & H & Hx).
  apply list_elem_of_singleton in H. subst idx.
  apply elem_of_seqZ in Hy, Hx.
  exists (width * y + x). split; [nia|].
  rewrite Z.shiftl_mul_pow2 by lia. lia.
Qed.

(* ================================================================= *)
(** ** Multi-pass classification never touches a transparent pixel *)

Lemma multiPassPixel_keeps pass data idx i :
  i ≠ idx + 3 ∨ byteAt data i = Some 0 →
  byteAt (multiPassPixel pass data idx) i = byteAt data i.
Proof.
  intros Hi. unfold multiPassPixel.
  destruct (byteAt data (idx + 0)) as [r0|]; [|done].
  destruct (byteAt data (idx + 1)) as [g0|]; [|done].
  destruct (byteAt data (idx + 2)) as [b0|]; [|done].
  destruct (byteAt data (idx + 3)) as [a0|] eqn:Ha; [|done].
  destruct (Z.eqb_spec a0 0) as [->|Hne]; [done|].
  destruct (Qle_bool _ _); [|done].
  destruct (decide (i = idx + 3)) as [->|Hd].
  - destruct Hi as [Hi|Hi]; [done|]. congruence.
  - by apply byteAt_setByte_ne.
Qed.

Lemma multiPass_scan_keeps pass offsets data i :
  (∀ idx, idx ∈ offsets → ∃ p, 0 ≤ p ∧ idx = 4 * p) →
  i mod 4 ≠ 3 ∨ byteAt data i = Some 0 →
  byteAt (foldl (multiPassPixel pass) data offsets) i = byteAt data i.
Proof.
  revert data. induction offsets as [|idx offsets IH]; intros data Hoff Hi; [done|].
  simpl.
  assert (Hstep : byteAt (multiPassPixel pass data idx) i = byteAt data i).
  { apply multiPassPixel_keeps. destruct Hi as [Hi|Hi]; [left|by right].
    destruct (Hoff idx) as (p & _ & ->); [left|]. intros ->.
    apply Hi. rewrite Z.add_comm, Z.mul_comm, Z_mod_plus_full. done. }
  rewrite IH.
  - exact Hstep.
  - intros idx' H'. apply Hoff. by right.
  - destruct Hi as [Hi|Hi]; [by left|right]. by rewrite Hstep.
Qed.

Lemma classifyMultiPass_keeps passes image i :
  i mod 4 ≠ 3 ∨ byteAt (bitmap_data image) i = Some 0 →
  byteAt (bitmap_data (classifyMultiPass passes image)) i
  = byteAt (bitmap_data image) i.
Proof.
  revert image. induction passes as [|pass passes IH]; intros image Hi; [done|].
  unfold classifyMultiPass in *. simpl.
  assert (Hstep : byteAt (bitmap_data (scan (multiPassPixel pass) image)) i
                  = byteAt (bitmap_data image) i).
  { unfold scan. simpl. apply multiPass_scan_keeps; [|exact Hi].
    apply scanOffsets_spec. }
  rewrite IH; [exact Hstep|].
  destruct Hi as [Hi|Hi]; [by left|right]. by rewrite Hstep.
Qed.

(** C4. In multi-pass classification a pixel (the four bytes at offset
    [4 * p]) whose alpha is 0 is left untouched by every pass of the
    list; so a pixel whose alpha is 0 after the passes [before] still
    has alpha 0 after any further passes [after]. *)
Theorem multi_pass_transparent_stays :
  (∀ passes image p k,
      byteAt (bitmap_data image) (4 * p + 3) = Some 0 →
      0 ≤ k < 4 →
      byteAt (bitmap_data (classifyMultiPass passes image)) (4 * p + k)
      = byteAt (bitmap_data image) (4 * p + k))
  ∧ (∀ before after image p,
      byteAt (bitmap_data (classifyMultiPass before image)) (4 * p + 3) = Some 0 →
      byteAt (bitmap_data (classifyMultiPass (before ++ after) image)) (4 * p + 3)
      = Some 0).
Proof.
  split.
  - intros passes image p k Ha Hk. apply classifyMultiPass_keeps.
    destruct (decide (k = 3)) as [->|Hk3]; [by right|left].
    rewrite Z.add_comm, Z.mul_comm, Z_mod_plus_full.
    rewrite Z.mod_small by lia. done.
  - intros before after image p Ha.
    unfold classifyMultiPass in *. rewrite foldl_app.
    fold (classifyMultiPass after
            (foldl (λ image pass, scan (multiPassPixel pass) image) image before)).
    rewrite classifyMultiPass_keeps; [exact Ha|by right].
Qed.

(* ================================================================= *)
(** ** Single pass without feathering against one multi-pass entry *)

Lemma singlePassPixel_no_feather this target data idx :
  feather this = 0 →
  singlePassPixel this target data idx
  = multiPassPixel {| color := target; pass_threshold := threshold this |} data idx.
Proof.
  intros Hf. unfold singlePassPixel, multiPassPixel. rewrite Hf. simpl.
  destruct (byteAt data (idx + 0)) as [r0|]; [|done].
  destruct (byteAt data (idx + 1)) as [g0|]; [|done].
  destruct (byteAt data (idx + 2)) as [b0|]; [|done].
  destruct (byteAt data (idx + 3)) as [a0|] eqn:Ha; [|done].
  destruct (Qle_bool _ _); [|by destruct (a0 =? 0)].
  destruct (Z.eqb_spec a0 0) as [->|Hne]; [|done].
  by apply setByte_same.
Qed.

Lemma foldl_pointwise {A B} (f1 f2 : A → B → A) (l : list B) (a : A) :
  (∀ a b, f1 a b = f2 a b) → foldl f1 a l = foldl f2 a l.
Proof.
  intros H. revert a. induction l as [|b l IH]; intros a; [done|].
  simpl. by rewrite H, IH.
Qed.

(** C10. With [feather = 0], the single-pass scan against target
    colour [c] with threshold [t] gives the same bitmap as the multi-pass
    scan with the one-entry list [{color: c, threshold: t}] (although only
    the latter skips transparent pixels), and the two runs of
    [removeBackgroundColor] behave alike. *)
Theorem single_pass_equals_one_pass this target image :
  feather this = 0 →
  classifySinglePass this target image
  = classifyMultiPass [ {| color := target; pass_threshold := threshold this |} ] image
  ∧ ∀ this' world log,
      targetColor this = Some target →
      colorPasses this = None ∨ colorPasses this = Some [] →
      colorPasses this'
      = Some [ {| color := target; pass_threshold := threshold this |} ] →
      removeBackgroundColor this world log = removeBackgroundColor this' world log.
Proof.
  intros Hf.
  assert (Hscan : ∀ image,
    classifySinglePass this target image
    = classifyMultiPass [ {| color := target; pass_threshold := threshold this |} ] image).
  { intros im. unfold classifySinglePass, classifyMultiPass, scan. simpl.
    f_equal. apply foldl_pointwise. intros. by apply singlePassPixel_no_feather. }
  split; [apply Hscan|].
  intros this' world log Ht Hp Hp'.
  unfold removeBackgroundColor. rewrite Hp', Ht.
  unfold tryCatch, bind.
  destruct (checkInput world log) as [[message|[]] log']; [done|].
  unfold await. destruct (decoded world) as [message|im].
  - by destruct Hp as [-> | ->].
  - rewrite (Hscan im). by destruct Hp as [-> | ->].
Qed.

Lemma single_pass_equals_one_pass_witness :
  feather (colorCore blue 10 0) = 0
  ∧ bitmap_data (classifySinglePass (colorCore blue 10 0) blue
                   (rowBitmap 2 [0; 0; 255; 255; 200; 10; 10; 0]))
    = [0; 0; 255; 0; 200; 10; 10; 0]
  ∧ classifySinglePass (colorCore blue 10 0) blue
      (rowBitmap 2 [0; 0; 255; 255; 200; 10; 10; 0])
    = classifyMultiPass [ {| color := blue; pass_threshold := 10 |} ]
        (rowBitmap 2 [0; 0; 255; 255; 200; 10; 10; 0]).
Proof.
  split; [reflexivity|]. split; [vm_compute; reflexivity|].
  exact (proj1 (single_pass_equals_one_pass (colorCore blue 10 0) blue
                  (rowBitmap 2 [0; 0; 255; 255; 200; 10; 10; 0]) eq_refl)).
Defined.

(* ================================================================= *)
(** ** The colour metric against integer thresholds *)

Section DistanceFacts.
Local Open Scope Q_scope.

Lemma RN_eq x y : x == y → RN x == RN y.
Proof.
  intros E. apply Qle_antisym; apply RN_mono; rewrite E; apply Qle_refl.
Qed.

Lemma rootCheck_all : forallb rootCheck (seqZ 0 442) = true.
Proof. vm_compute. reflexivity. Qed.

Lemma rootCheck_at t : (0 ≤ t ≤ 441)%Z → rootCheck t = true.
Proof.
  intros Ht. pose proof rootCheck_all as H.
  rewrite forallb_forall in H. apply H.
  apply list_elem_of_In, elem_of_seqZ. lia.
Qed.

Lemma root_exact t : (0 ≤ t ≤ 441)%Z → js_sqrt (t * t) == inject_Z t.
Proof.
  intros Ht. pose proof (rootCheck_at t Ht) as H.
  apply andb_true_iff in H as [H _]. by apply Qeq_bool_iff.
Qed.

Lemma root_above t : (0 ≤ t ≤ 441)%Z → inject_Z t < js_sqrt (t * t + 1).
Proof.
  intros Ht. pose proof (rootCheck_at t Ht) as H.
  apply andb_true_iff in H as [_ H]. apply negb_true_iff in H.
  apply Qnot_le_lt. intros C. apply Qle_bool_iff in C. congruence.
Qed.

Lemma root_top : js_sqrt 195075 < 442.
Proof.
  apply Qnot_le_lt. intros C. apply Qle_bool_iff in C. vm_compute in C. done.
Qed.

(** The double square root of a squared colour distance is at most the
    integer [t] exactly when the real square root is. *)
Lemma js_sqrt_le_iff n t :
  (0 ≤ n ≤ 195075)%Z →
  js_sqrt n <= inject_Z t ↔ (0 ≤ t)%Z ∧ (n ≤ t * t)%Z.
Proof.
  intros Hn. split.
  - intros H. pose proof (js_sqrt_nonneg n) as H0.
    assert (Ht : (0 ≤ t)%Z).
    { rewrite Zle_Qle. change (inject_Z 0) with 0. lra. }
    split; [exact Ht|].
    destruct (Z.le_gt_cases n (t * t)) as [?|Hgt]; [done|exfalso].
    assert (t ≤ 441)%Z by nia.
    pose proof (root_above t ltac:(lia)) as Ha.
    pose proof (js_sqrt_mono (t * t + 1) n ltac:(lia)). lra.
  - intros [Ht Hnt]. destruct (Z.le_gt_cases t 441) as [Hs|Hb].
    + rewrite <- (root_exact t) by lia. by apply js_sqrt_mono.
    + pose proof (js_sqrt_mono n 195075 ltac:(lia)). pose proof root_top.
      assert (442 <= inject_Z t).
      { change 442 with (inject_Z 442). rewrite <- Zle_Qle. lia. }
      lra.
Qed.

Lemma Qle_bool_js_sqrt n t :
  (0 ≤ n ≤ 195075)%Z →
  Qle_bool (js_sqrt n) (inject_Z t) = rootWithin n t.
Proof.
  intros Hn. unfold rootWithin. apply eq_true_iff_eq.
  rewrite Qle_bool_iff, (js_sqrt_le_iff n t Hn).
  rewrite andb_true_iff, !Z.leb_le. done.
Qed.

(** The same against [threshold + feather], whatever the sum rounds to. *)
Lemma Qle_bool_js_sqrt_add n t f :
  (0 ≤ n ≤ 195075)%Z →
  Qle_bool (js_sqrt n) (js_add (inject_Z t) (inject_Z f)) = rootWithin n (t + f).
Proof.
  intros Hn. unfold js_add.
  assert (E : RN (inject_Z t + inject_Z f) == RN (inject_Z (t + f))).
  { apply RN_eq. rewrite inject_Z_plus. reflexivity. }
  set (s := (t + f)%Z) in *.
  apply eq_true_iff_eq. rewrite Qle_bool_iff, E.
  destruct (Z.lt_ge_cases (Z.abs s) (2 ^ 53)) as [Hs|Hs].
  - rewrite (RN_int s Hs), (js_sqrt_le_iff n s Hn).
    unfold rootWithin. rewrite andb_true_iff, !Z.leb_le. done.
  - pose proof (js_sqrt_mono n 195075 ltac:(lia)) as Hm. pose proof root_top as Htop.
    pose proof (js_sqrt_nonneg n) as H0.
    destruct (Z.le_gt_cases 0 s) as [Hp|Hneg].
    + assert (Hbig : 442 <= RN (inject_Z s)).
      { rewrite <- (RN_int 442) by (vm_compute; done).
        apply RN_mono. rewrite <- Zle_Qle. lia. }
      split; [intros _|intros _; lra].
      unfold rootWithin. rewrite andb_true_iff, !Z.leb_le. nia.
    + assert (Hsmall : RN (inject_Z s) <= - (1)).
      { change (- (1)) with (inject_Z (-1)).
        rewrite <- (RN_int (-1)) by (vm_compute; done).
        apply RN_mono. rewrite <- Zle_Qle. lia. }
      split; [intros ?; lra|].
      unfold rootWithin. rewrite andb_true_iff, !Z.leb_le. lia.
Qed.

End DistanceFacts.

Lemma squaredDistance_range c1 c2 :
  validColor c1 → validColor c2 → 0 ≤ squaredDistance c1 c2 ≤ 195075.
Proof.
  unfold validColor, isByte, squaredDistance.
  intros (? & ? & ?) (? & ? & ?).
  assert (Hsq : ∀ d, -255 ≤ d ≤ 255 → 0 ≤ d * d ≤ 65025) by (intros; nia).
  pose proof (Hsq (r c1 - r c2) ltac:(lia)).
  pose proof (Hsq (g c1 - g c2) ltac:(lia)).
  pose proof (Hsq (b c1 - b c2) ltac:(lia)).
  lia.
Qed.

Lemma calculateColorDistance_root c1 c2 :
  calculateColorDistance c1 c2 = js_sqrt (squaredDistance c1 c2).
Proof. reflexivity. Qed.

(* ================================================================= *)
(** ** A scan whose callback only rewrites its own pixel's alpha *)

Lemma scanOffsets_elem width height idx :
  idx ∈ scanOffsets width height ↔
  ∃ x y, 0 ≤ x < width ∧ 0 ≤ y < height ∧ idx = pixelOffset width x y.
Proof.
  unfold scanOffsets, pixelOffset. rewrite list_elem_of_bind. split.
  - intros (y & H & Hy). apply list_elem_of_bind in H as (x & H & Hx).
    apply list_elem_of_singleton in H. apply elem_of_seqZ in Hy, Hx.
    exists x, y. rewrite Z.shiftl_mul_pow2 in H by lia. lia.
  - intros (x & y & Hx & Hy & ->). exists y. split; [|apply elem_of_seqZ; lia].
    apply list_elem_of_bind. exists x. split; [|apply elem_of_seqZ; lia].
    apply list_elem_of_singleton. rewrite Z.shiftl_mul_pow2 by lia. lia.
Qed.

Lemma scanOffsets_NoDup width height : NoDup (scanOffsets width height).
Proof.
  unfold scanOffsets. apply NoDup_bind; [| |apply NoDup_seqZ].
  - intros y1 y2 idx Hy1 Hy2 H1 H2.
    apply list_elem_of_bind in H1 as (x1 & H1 & Hx1).
    apply list_elem_of_bind in H2 as (x2 & H2 & Hx2).
    apply list_elem_of_singleton in H1, H2.
    apply elem_of_seqZ in Hy1, Hy2, Hx1, Hx2.
    rewrite Z.shiftl_mul_pow2 in H1, H2 by lia. nia.
  - intros y Hy. apply NoDup_bind; [| |apply NoDup_seqZ].
    + intros x1 x2 idx Hx1 Hx2 H1 H2.
      apply list_elem_of_singleton in H1, H2.
      apply elem_of_seqZ in Hy, Hx1, Hx2.
      rewrite Z.shiftl_mul_pow2 in H1, H2 by lia. lia.
    + intros. apply NoDup_singleton.
Qed.

Section ScanFacts.
Variable f : list Z → Z → list Z.
Hypothesis f_elsewhere :
  ∀ data idx i, i ≠ idx + 3 → byteAt (f data idx) i = byteAt data i.
Hypothesis f_local :
  ∀ data data' idx,
    (∀ k, 0 ≤ k < 4 → byteAt data (idx + k) = byteAt data' (idx + k)) →
    byteAt (f data idx) (idx + 3) = byteAt (f data' idx) (idx + 3).

Lemma foldl_scan_colour offsets data i :
  (∀ idx, idx ∈ offsets → ∃ p, 0 ≤ p ∧ idx = 4 * p) →
  i mod 4 ≠ 3 →
  byteAt (foldl f data offsets) i = byteAt data i.
Proof.
  revert data. induction offsets as [|idx offsets IH]; intros data Hoff Hi; [done|].
  simpl. rewrite IH; [|intros ? ?; apply Hoff; by right|done].
  apply f_elsewhere. destruct (Hoff idx) as (p & _ & ->); [left|].
  intros ->. apply Hi. rewrite Z.add_comm, Z.mul_comm, Z_mod_plus_full. done.
Qed.

Lemma foldl_scan_skipped offsets data p :
  4 * p ∉ offsets →
  byteAt (foldl f data offsets) (4 * p + 3) = byteAt data (4 * p + 3).
Proof.
  revert data. induction offsets as [|idx offsets IH]; intros data Hp; [done|].
  apply not_elem_of_cons in Hp as [Hne Hp].
  simpl. rewrite IH by done. apply f_elsewhere. lia.
Qed.

Lemma foldl_scan_alpha offsets data p :
  (∀ idx, idx ∈ offsets → ∃ q, 0 ≤ q ∧ idx = 4 * q) →
  NoDup offsets →
  4 * p ∈ offsets →
  byteAt (foldl f data offsets) (4 * p + 3) = byteAt (f data (4 * p)) (4 * p + 3).
Proof.
  revert data. induction offsets as [|idx offsets IH]; intros data Hoff Hnd Hp.
  { by apply elem_of_nil in Hp. }
  apply NoDup_cons in Hnd as [Hni Hnd]. simpl.
  apply elem_of_cons in Hp as [<-|Hp].
  - by apply foldl_scan_skipped.
  - rewrite IH; [|intros ? ?; apply Hoff; by right|done|done].
    apply f_local. intros k Hk. apply f_elsewhere.
    destruct (Hoff idx) as (q & _ & ->); [left|].
    assert (p ≠ q) by (intros ->; done). lia.
Qed.

Lemma scan_pixel image x y :
  0 ≤ x < bitmap_width image → 0 ≤ y < bitmap_height image →
  let idx := pixelOffset (bitmap_width image) x y in
  byteAt (bitmap_data (scan f image)) (idx + 3)
  = byteAt (f (bitmap_data image) idx) (idx + 3)
  ∧ ∀ k, 0 ≤ k < 3 →
      byteAt (bitmap_data (scan f image)) (idx + k)
      = byteAt (bitmap_data image) (idx + k).
Proof.
  intros Hx Hy idx. unfold scan. simpl. split.
  - unfold idx, pixelOffset. apply foldl_scan_alpha.
    + apply scanOffsets_spec.
    + apply scanOffsets_NoDup.
    + apply scanOffsets_elem. by exists x, y.
  - intros k Hk. apply foldl_scan_colour; [apply scanOffsets_spec|].
    unfold idx, pixelOffset.
    rewrite Z.add_comm, Z.mul_comm, Z_mod_plus_full, Z.mod_small by lia. lia.
Qed.

End ScanFacts.

(* ================================================================= *)
(** ** The single-pass callback, pixel by pixel *)

Lemma singlePassPixel_elsewhere this target data idx i :
  i ≠ idx + 3 → byteAt (singlePassPixel this target data idx) i = byteAt data i.
Proof.
  intros Hi. unfold singlePassPixel.
  destruct (byteAt data (idx + 0)); [|done].
  destruct (byteAt data (idx + 1)); [|done].
  destruct (byteAt data (idx + 2)); [|done].
  destruct (byteAt data (idx + 3)); [|done].
  destruct (Qle_bool _ _); [by apply byteAt_setByte_ne|].
  destruct (_ && _); [by apply byteAt_setByte_ne|done].
Qed.

Lemma singlePassPixel_local this target data data' idx :
  (∀ k, 0 ≤ k < 4 → byteAt data (idx + k) = byteAt data' (idx + k)) →
  byteAt (singlePassPixel this target data idx) (idx + 3)
  = byteAt (singlePassPixel this target data' idx) (idx + 3).
Proof.
  intros H. unfold singlePassPixel.
  rewrite <- (H 0), <- (H 1), <- (H 2), <- (H 3) by lia.
  destruct (byteAt data (idx + 0)); [|apply (H 3); lia].
  destruct (byteAt data (idx + 1)); [|apply (H 3); lia].
  destruct (byteAt data (idx + 2)); [|apply (H 3); lia].
  destruct (byteAt data (idx + 3)) eqn:Ha; [|rewrite <- (H 3), Ha by lia; done].
  assert (Ha' : byteAt data' (idx + 3) = Some z2) by (rewrite <- (H 3) by lia; done).
  destruct (Qle_bool _ _).
  { rewrite !byteAt_setByte_eq; [done|by rewrite Ha'|by rewrite Ha]. }
  destruct (_ && _); [|congruence].
  rewrite !byteAt_setByte_eq; [done|by rewrite Ha'|by rewrite Ha].
Qed.

Lemma singlePassPixel_alpha this target data idx r0 g0 b0 a0 :
  byteAt data idx = Some r0 → byteAt data (idx + 1) = Some g0 →
  byteAt data (idx + 2) = Some b0 → byteAt data (idx + 3) = Some a0 →
  validColor {| r := r0; g := g0; b := b0 |} → validColor target →
  byteAt (singlePassPixel this target data idx) (idx + 3)
  = Some (singlePassAlpha this
            (squaredDistance {| r := r0; g := g0; b := b0 |} target) a0).
Proof.
  intros Hr Hg Hb Ha Hc Ht. unfold singlePassPixel, singlePassAlpha.
  rewrite Z.add_0_r, Hr, Hg, Hb, Ha.
  rewrite calculateColorDistance_root.
  pose proof (squaredDistance_range _ _ Hc Ht) as Hn.
  rewrite Qle_bool_js_sqrt, Qle_bool_js_sqrt_add by exact Hn.
  destruct (rootWithin _ (threshold this)).
  { rewrite byteAt_setByte_eq by (by rewrite Ha). done. }
  destruct (_ && _); [|done].
  rewrite byteAt_setByte_eq by (by rewrite Ha). done.
Qed.

Lemma wellFormed_pixel image x y :
  wellFormed image →
  0 ≤ x < bitmap_width image → 0 ≤ y < bitmap_height image →
  ∃ c a, pixelAt image x y = Some (c, a) ∧ validColor c ∧ isByte a.
Proof.
  intros (Hw & Hh & Hlen & Hb) Hx Hy.
  assert (Hget : ∀ k, 0 ≤ k < 4 →
    ∃ v, byteAt (bitmap_data image) (pixelOffset (bitmap_width image) x y + k)
         = Some v ∧ isByte v).
  { intros k Hk. unfold byteAt, pixelOffset.
    destruct (Z.ltb_spec (4 * (bitmap_width image * y + x) + k) 0); [nia|].
    destruct (lookup_lt_is_Some_2 (bitmap_data image)
                (Z.to_nat (4 * (bitmap_width image * y + x) + k))) as [v Hv].
    { nia. }
    exists v. split; [done|].
    rewrite Forall_lookup in Hb. by eapply Hb. }
  destruct (Hget 0) as (r0 & Hr & ?); [lia|]. rewrite Z.add_0_r in Hr.
  destruct (Hget 1) as (g0 & Hg & ?); [lia|].
  destruct (Hget 2) as (b0 & Hbl & ?); [lia|].
  destruct (Hget 3) as (a0 & Ha & ?); [lia|].
  exists {| r := r0; g := g0; b := b0 |}, a0.
  unfold pixelAt. rewrite Hr, Hg, Hbl, Ha. done.
Qed.

Lemma pixelAt_bytes image x y c a :
  pixelAt image x y = Some (c, a) →
  let idx := pixelOffset (bitmap_width image) x y in
  byteAt (bitmap_data image) idx = Some (r c)
  ∧ byteAt (bitmap_data image) (idx + 1) = Some (g c)
  ∧ byteAt (bitmap_data image) (idx + 2) = Some (b c)
  ∧ byteAt (bitmap_data image) (idx + 3) = Some a.
Proof.
  intros H idx. unfold pixelAt in H. fold idx in H.
  destruct (byteAt _ idx); [|done].
  destruct (byteAt _ (idx + 1)); [|done].
  destruct (byteAt _ (idx + 2)); [|done].
  destruct (byteAt _ (idx + 3)); [|done].
  simpl in H. by simplify_eq.
Qed.

(** Every pixel of the single-pass result: same colour, and the alpha
    the callback computes from the pixel's own bytes. *)
Lemma classifySinglePass_pixel this target image x y c a :
  validColor target → validColor c →
  0 ≤ x < bitmap_width image → 0 ≤ y < bitmap_height image →
  pixelAt image x y = Some (c, a) →
  pixelAt (classifySinglePass this target image) x y
  = Some (c, singlePassAlpha this (squaredDistance c target) a).
Proof.
  intros Ht Hc Hx Hy Hp.
  destruct (pixelAt_bytes _ _ _ _ _ Hp) as (Hr & Hg & Hb & Ha).
  destruct (scan_pixel (singlePassPixel this target)
              (singlePassPixel_elsewhere this target)
              (singlePassPixel_local this target) image x y Hx Hy)
    as [Halpha Hcol].
  unfold pixelAt, classifySinglePass.
  change (bitmap_width (scan _ image)) with (bitmap_width image).
  rewrite <- (Z.add_0_r (pixelOffset _ x y)) at 1.
  rewrite (Hcol 0), (Hcol 1), (Hcol 2), Halpha by lia.
  rewrite Z.add_0_r, Hr, Hg, Hb. simpl.
  destruct c as [r0 g0 b0]. simpl in *.
  rewrite (singlePassPixel_alpha this target _ _ r0 g0 b0 a) by done.
  done.
Qed.

(* ================================================================= *)
(** ** Rounding error *)

Section ErrorFacts.
Local Open Scope Q_scope.

Lemma half_even_error q :
  inject_Z (half_even q) - (1 # 2) <= q ∧ q <= inject_Z (half_even q) + (1 # 2).
Proof.
  unfold half_even.
  pose proof (Qfloor_le q) as Hl. pose proof (Qlt_floor q) as Hu.
  rewrite inject_Z_plus in Hu. change (inject_Z 1) with 1 in Hu.
  destruct (Qcompare_spec (q - inject_Z (Qfloor q)) (1 # 2)) as [H|H|H];
    [destruct (Z.even _)| |]; rewrite ?inject_Z_plus; change (inject_Z 1) with 1;
    split; lra.
Qed.

(** Rounding a positive number below [2^k] moves it by at most half a
    unit in the last place, [2^(k - 54)]. *)
Lemma RN_error q k :
  0 <= q → q < pow2 k → (emin ≤ k - 53)%Z →
  RN q - pow2 (k - 54) <= q ∧ q <= RN q + pow2 (k - 54).
Proof.
  intros H0 Hk Hmin. pose proof (pow2_pos (k - 54)) as Pk.
  unfold RN. destruct (Qcompare_spec q 0) as [E|E|E]; [lra|lra|].
  unfold round_pos.
  assert (He : (ulp_exp q ≤ k - 53)%Z).
  { destruct (ilog2_spec q E) as [A _].
    assert (pow2 (ilog2 q) < pow2 k) by lra.
    apply pow2_lt_inv in H. unfold ulp_exp. lia. }
  set (e := ulp_exp q) in *. pose proof (pow2_pos e) as Pe.
  destruct (half_even_error (q / pow2 e)) as [A B].
  set (m := inject_Z (half_even (q / pow2 e))) in *.
  assert (Hq : q == (q / pow2 e) * pow2 e) by (field; lra).
  assert (Hh : pow2 e * (1 # 2) <= pow2 (k - 54)).
  { assert (pow2 e == 2 * pow2 (e - 1)) as ->.
    { rewrite <- pow2_succ. replace (e - 1 + 1)%Z with e by ring. reflexivity. }
    assert (pow2 (e - 1) <= pow2 (k - 54)) by (apply pow2_le; lia). lra. }
  set (y := q / pow2 e) in *. split; nra.
Qed.


Lemma nearest_root_squares s :
  1 <= s →
  (2 * inject_Z (nearest_root s) - 1) * (2 * inject_Z (nearest_root s) - 1) <= 4 * s
  ∧ 4 * s
    <= (2 * inject_Z (nearest_root s) + 1) * (2 * inject_Z (nearest_root s) + 1).
Proof.
  intros Hs. unfold nearest_root.
  assert (Hf : (1 ≤ Qfloor s)%Z).
  { rewrite <- (Qfloor_Z 1). by apply Qfloor_resp_le. }
  pose proof (Z.sqrt_spec (Qfloor s) ltac:(lia)) as [K1 K2].
  assert (K0 : (1 ≤ Z.sqrt (Qfloor s))%Z).
  { change 1%Z with (Z.sqrt 1). by apply Z.sqrt_le_mono. }
  set (k := Z.sqrt (Qfloor s)) in *.
  pose proof (Qfloor_le s) as Fl. pose proof (Qlt_floor s) as Fu.
  assert (S1 : inject_Z (k * k) <= s).
  { eapply Qle_trans; [|exact Fl]. rewrite <- Zle_Qle. lia. }
  assert (S2 : s < inject_Z ((k + 1) * (k + 1))).
  { eapply Qlt_le_trans; [exact Fu|]. rewrite <- Zle_Qle.
    unfold Z.succ in K2. lia. }
  assert (E : inject_Z ((2 * k + 1) * (2 * k + 1))
              == (2 * inject_Z k + 1) * (2 * inject_Z k + 1)).
  { rewrite inject_Z_mult, inject_Z_plus, inject_Z_mult. reflexivity. }
  rewrite inject_Z_mult in S1, S2. rewrite inject_Z_plus in S2.
  change (inject_Z 1) with 1 in S2.
  assert (Pk : 1 <= inject_Z k).
  { change 1 with (inject_Z 1). by rewrite <- Zle_Qle. }
  destruct (Qcompare_spec (4 * s) (inject_Z ((2 * k + 1) * (2 * k + 1))))
    as [H|H|H]; rewrite E in H; [destruct (Z.even k)| |];
    rewrite ?inject_Z_plus; change (inject_Z 1) with 1; split; nra.
Qed.

(** The double square root of [n] is within half a unit in the last
    place of the real one. *)
Lemma js_sqrt_squares n :
  (0 < n)%Z →
  (js_sqrt n - pow2 (sqrt_exp n - 1)) * (js_sqrt n - pow2 (sqrt_exp n - 1))
  <= inject_Z n
  ∧ inject_Z n
    <= (js_sqrt n + pow2 (sqrt_exp n - 1)) * (js_sqrt n + pow2 (sqrt_exp n - 1))
  ∧ pow2 (sqrt_exp n - 1) <= js_sqrt n.
Proof.
  intros Hn. unfold js_sqrt. rewrite (proj2 (Z.leb_gt n 0)) by lia.
  destruct (sqrt_scaled_bounds n Hn) as [B1 _].
  assert (H1 : 1 <= sqrt_scaled n).
  { eapply Qle_trans; [|exact B1]. change 1 with (pow2 0). apply pow2_le. lia. }
  destruct (nearest_root_squares (sqrt_scaled n) H1) as [L U].
  pose proof (nearest_root_range n Hn) as R.
  set (m := inject_Z (nearest_root (sqrt_scaled n))) in *.
  assert (Pm : 1 <= m).
  { unfold m. change 1 with (inject_Z 1). rewrite <- Zle_Qle. lia. }
  set (e := sqrt_exp n) in *.
  pose proof (pow2_pos (e - 1)) as Pu. set (u := pow2 (e - 1)) in *.
  assert (Ee : pow2 e == 2 * u).
  { unfold u. rewrite <- pow2_succ. replace (e - 1 + 1)%Z with e by ring. reflexivity. }
  assert (En : inject_Z n == sqrt_scaled n * (2 * u) * (2 * u)).
  { unfold sqrt_scaled. fold e.
    assert (pow2 (2 * e) == (2 * u) * (2 * u)) as ->.
    { replace (2 * e)%Z with (e + e)%Z by ring. rewrite pow2_add, Ee. reflexivity. }
    field. lra. }
  rewrite Ee, En. set (s := sqrt_scaled n) in *.
  split; [|split]; nra.
Qed.


Lemma sqrt_exp_small n : (0 < n ≤ 195075)%Z → (sqrt_exp n ≤ -44)%Z.
Proof.
  intros Hn. unfold sqrt_exp.
  assert (Z.log2 n < 18)%Z by (apply Z.log2_lt_pow2; lia).
  assert (Z.log2 n / 2 < 9)%Z by (apply Z.div_lt_upper_bound; lia). lia.
Qed.

(** A non-negative [y] whose square is below the square of the integer
    [w] stays clear of [w]. *)
Lemma below_square_gap y w :
  0 <= y → 1 <= w → w <= pow2 17 → y * y <= w * w - 1 → y <= w - pow2 (-18).
Proof.
  intros Hy Hw Hw' H.
  assert (E1 : pow2 17 == 131072) by reflexivity.
  assert (E2 : pow2 (-18) == 1 # 262144) by reflexivity.
  rewrite E1 in Hw'. rewrite E2.
  destruct (Qlt_le_dec (w - (1 # 262144)) y) as [C|C]; [|exact C].
  exfalso.
  assert (0 < (y - (w - (1 # 262144))) * (y + (w - (1 # 262144))))
    by (apply Qmult_lt_0_compat; lra).
  nra.
Qed.


(** The double root times the alpha, against the integer root of
    [a^2 * n]. *)
Lemma scaled_root_bounds a n :
  isByte a → (0 < n ≤ 195075)%Z →
  inject_Z (Z.sqrt (a * a * n)) - inject_Z a * pow2 (-45)
  <= inject_Z a * js_sqrt n
  ∧ inject_Z a * js_sqrt n
    <= inject_Z (Z.sqrt (a * a * n)) + 1 - pow2 (-18) + inject_Z a * pow2 (-45).
Proof.
  intros [Ha0 Ha1] Hn.
  destruct (js_sqrt_squares n ltac:(lia)) as (L & U & Hu).
  assert (Hu' : pow2 (sqrt_exp n - 1) <= pow2 (-45)).
  { apply pow2_le. pose proof (sqrt_exp_small n Hn). lia. }
  pose proof (pow2_pos (sqrt_exp n - 1)) as Pu.
  set (u := pow2 (sqrt_exp n - 1)) in *. set (d := js_sqrt n) in *.
  assert (HN : (0 ≤ a * a * n)%Z) by nia.
  pose proof (Z.sqrt_spec (a * a * n) HN) as [K1 K2].
  pose proof (Z.sqrt_nonneg (a * a * n)) as K0.
  assert (K3 : (Z.sqrt (a * a * n) < 2 ^ 17 - 1)%Z).
  { apply Z.sqrt_lt_square; [lia|lia|].
    assert (a * a ≤ 65025)%Z by nia. nia. }
  set (K := Z.sqrt (a * a * n)) in *. unfold Z.succ in K2.
  assert (Q1 : inject_Z K * inject_Z K <= inject_Z a * inject_Z a * inject_Z n).
  { rewrite <- !inject_Z_mult, <- Zle_Qle. exact K1. }
  assert (Q2 : inject_Z a * inject_Z a * inject_Z n
               <= (inject_Z K + 1) * (inject_Z K + 1) - 1).
  { change 1 with (inject_Z 1). rewrite <- inject_Z_plus, <- !inject_Z_mult.
    unfold Qminus. rewrite <- inject_Z_opp, <- inject_Z_plus, <- Zle_Qle. lia. }
  assert (PA : 0 <= inject_Z a).
  { change 0 with (inject_Z 0). by rewrite <- Zle_Qle. }
  assert (PK : 0 <= inject_Z K).
  { change 0 with (inject_Z 0). by rewrite <- Zle_Qle. }
  assert (PK' : inject_Z K + 1 <= pow2 17).
  { assert (E : pow2 17 == inject_Z (2 ^ 17)) by reflexivity. rewrite E.
    change 1 with (inject_Z 1). rewrite <- inject_Z_plus, <- Zle_Qle. lia. }
  set (A := inject_Z a) in *. set (k := inject_Z K) in *.
  set (N := inject_Z n) in *.
  assert (Au : A * u <= A * pow2 (-45)).
  { rewrite !(Qmult_comm A). by apply Qmult_le_compat_r. }
  split.
  - assert (k <= A * (d + u)); [|lra].
    destruct (Qlt_le_dec (A * (d + u)) k) as [C|C]; [|exact C]. exfalso.
    assert (0 <= A * (d + u)) by (apply Qmult_le_0_compat; lra).
    assert (A * A * N <= (A * (d + u)) * (A * (d + u))).
    { assert ((A * (d + u)) * (A * (d + u)) == A * A * ((d + u) * (d + u))) as ->
        by ring.
      rewrite !(Qmult_comm (A * A)). apply Qmult_le_compat_r; [exact U|nra]. }
    nra.
  - assert (A * (d - u) <= k + 1 - pow2 (-18)); [|lra].
    apply below_square_gap; [apply Qmult_le_0_compat; lra|lra|exact PK'|].
    eapply Qle_trans; [|exact Q2].
    assert ((A * (d - u)) * (A * (d - u)) == A * A * ((d - u) * (d - u))) as ->
      by ring.
    rewrite !(Qmult_comm (A * A)). apply Qmult_le_compat_r; [exact L|nra].
Qed.


Lemma alpha_root_small a n :
  isByte a → (0 ≤ n ≤ 195075)%Z → (0 ≤ Z.sqrt (a * a * n) < 2 ^ 17 - 1)%Z.
Proof.
  intros [Ha0 Ha1] Hn. split; [apply Z.sqrt_nonneg|].
  apply Z.sqrt_lt_square; [nia|lia|].
  assert (a * a ≤ 65025)%Z by nia. nia.
Qed.

End ErrorFacts.

(* ================================================================= *)
(** ** Feathering *)

Section FeatherFacts.
Local Open Scope Q_scope.

Lemma featherAlpha_mono this n1 n2 a :
  (0 ≤ a)%Z → (0 < feather this)%Z → (n1 ≤ n2)%Z →
  (featherAlpha this n1 a ≤ featherAlpha this n2 a)%Z.
Proof.
  intros Ha Hf Hn. unfold featherAlpha, js_floor, js_mul, js_div, js_sub.
  assert (Pa : 0 <= inject_Z a).
  { change 0 with (inject_Z 0). by rewrite <- Zle_Qle. }
  assert (Pf : 0 < inject_Z (feather this)).
  { change 0 with (inject_Z 0). by rewrite <- Zlt_Qlt. }
  pose proof (js_sqrt_mono n1 n2 Hn) as Hd.
  apply Qfloor_resp_le, RN_mono.
  rewrite !(Qmult_comm (inject_Z a)). apply Qmult_le_compat_r; [|exact Pa].
  apply RN_mono. unfold Qdiv. apply Qmult_le_compat_r.
  - apply RN_mono. lra.
  - apply Qlt_le_weak, Qinv_lt_0_compat, Pf.
Qed.

Lemma featherAlpha_bounds this n a :
  (0 ≤ n ≤ 195075)%Z → isByte a →
  (0 < feather this)%Z → safeInteger (feather this) →
  rootWithin n (threshold this) = false →
  rootWithin n (threshold this + feather this) = true →
  (0 ≤ featherAlpha this n a ≤ a)%Z.
Proof.
  intros Hn [Ha0 Ha1] Hf Hsafe Hout Hin.
  set (t := threshold this) in *. set (f := feather this) in *.
  assert (Pa : 0 <= inject_Z a).
  { change 0 with (inject_Z 0). by rewrite <- Zle_Qle. }
  assert (Pf : 0 < inject_Z f).
  { change 0 with (inject_Z 0). by rewrite <- Zlt_Qlt. }
  assert (H1 : inject_Z t < js_sqrt n).
  { apply Qnot_le_lt. intros C. apply Qle_bool_iff in C.
    rewrite Qle_bool_js_sqrt in C by exact Hn. congruence. }
  assert (H2 : js_sqrt n <= inject_Z t + inject_Z f).
  { rewrite <- inject_Z_plus. apply Qle_bool_iff.
    rewrite Qle_bool_js_sqrt by exact Hn. exact Hin. }
  set (x := js_sub (js_sqrt n) (inject_Z t)).
  assert (Hx : 0 <= x <= inject_Z f).
  { unfold x, js_sub. split; [apply RN_nonneg; lra|].
    rewrite <- (RN_int f) by exact Hsafe. apply RN_mono. lra. }
  set (ratio := js_div x (inject_Z f)).
  assert (Hr : 0 <= ratio <= 1).
  { unfold ratio, js_div. split.
    - apply RN_nonneg. apply Qle_shift_div_l; [exact Pf|lra].
    - change 1 with (inject_Z 1). rewrite <- (RN_int 1) by (vm_compute; done).
      apply RN_mono. change (inject_Z 1) with 1.
      apply Qle_shift_div_r; [exact Pf|lra]. }
  assert (Hp : 0 <= js_mul (inject_Z a) ratio <= inject_Z a).
  { unfold js_mul. split.
    - apply RN_nonneg. apply Qmult_le_0_compat; lra.
    - rewrite <- (RN_int a) at 2 by (unfold isByte in *; lia).
      apply RN_mono. rewrite <- (Qmult_1_r (inject_Z a)) at 2.
      rewrite !(Qmult_comm (inject_Z a)). apply Qmult_le_compat_r; lra. }
  unfold featherAlpha, js_floor. fold t f x ratio. split.
  - rewrite <- (Qfloor_Z 0). apply Qfloor_resp_le. tauto.
  - rewrite <- (Qfloor_Z a) at 2. apply Qfloor_resp_le. tauto.
Qed.

(** The feathered alpha the doubles give is the exact floor or one
    below it. *)
Lemma featherAlpha_near_exact this n a :
  (0 ≤ n ≤ 195075)%Z → isByte a →
  (0 ≤ threshold this)%Z → (0 < feather this)%Z → safeInteger (feather this) →
  rootWithin n (threshold this) = false →
  rootWithin n (threshold this + feather this) = true →
  (exactFeatherAlpha a n (threshold this) (feather this) - 1
   ≤ featherAlpha this n a
   ≤ exactFeatherAlpha a n (threshold this) (feather this))%Z.
Proof.
  intros Hn Ha Ht Hf Hsafe Hout Hin.
  set (t := threshold this) in *. set (f := feather this) in *.
  assert (Hn' : (t * t < n)%Z).
  { unfold rootWithin in Hout. rewrite (proj2 (Z.leb_le 0 t) Ht) in Hout.
    simpl in Hout. by apply Z.leb_gt. }
  assert (Hpos : (0 < n ≤ 195075)%Z) by nia.
  (* the integer side *)
  pose proof (alpha_root_small a n Ha Hn) as [K0 K3].
  assert (Kt : (a * t ≤ Z.sqrt (a * a * n))%Z).
  { destruct Ha as [Ha0 Ha1]. apply Z.sqrt_le_square; [nia|nia|nia]. }
  set (K := Z.sqrt (a * a * n)) in *.
  unfold exactFeatherAlpha. fold K.
  pose proof (Z.mul_div_le (K - a * t) f Hf) as D1.
  pose proof (Z.mul_succ_div_gt (K - a * t) f Hf) as D2.
  assert (D0 : (0 ≤ (K - a * t) / f)%Z) by (apply Z.div_pos; lia).
  set (q := ((K - a * t) / f)%Z) in *. unfold Z.succ in D2.
  (* the rational side *)
  assert (PA : 0 <= inject_Z a <= 255).
  { destruct Ha. split; [change 0 with (inject_Z 0)|change 255 with (inject_Z 255)];
      by rewrite <- Zle_Qle. }
  assert (PF : 1 <= inject_Z f).
  { change 1 with (inject_Z 1). rewrite <- Zle_Qle. lia. }
  assert (PT : 0 <= inject_Z t).
  { change 0 with (inject_Z 0). by rewrite <- Zle_Qle. }
  assert (Pq : 0 <= inject_Z q).
  { change 0 with (inject_Z 0). by rewrite <- Zle_Qle. }
  assert (H1 : inject_Z t < js_sqrt n).
  { apply Qnot_le_lt. intros C. apply Qle_bool_iff in C.
    rewrite Qle_bool_js_sqrt in C by exact Hn. congruence. }
  assert (H2 : js_sqrt n <= inject_Z t + inject_Z f).
  { rewrite <- inject_Z_plus. apply Qle_bool_iff.
    rewrite Qle_bool_js_sqrt by exact Hn. exact Hin. }
  assert (H3 : js_sqrt n < 442).
  { eapply Qle_lt_trans; [|exact root_top]. apply js_sqrt_mono. lia. }
  destruct (scaled_root_bounds a n Ha Hpos) as [S1 S2]. fold K in S1, S2.
  assert (Q1 : inject_Z f * inject_Z q <= inject_Z K - inject_Z a * inject_Z t).
  { rewrite <- !inject_Z_mult. unfold Qminus.
    rewrite <- inject_Z_opp, <- inject_Z_plus, <- Zle_Qle. lia. }
  assert (Q2 : inject_Z K - inject_Z a * inject_Z t + 1
               <= inject_Z f * (inject_Z q + 1)).
  { change 1 with (inject_Z 1). rewrite <- inject_Z_plus, <- !inject_Z_mult.
    unfold Qminus. rewrite <- inject_Z_opp, <- !inject_Z_plus, <- Zle_Qle. lia. }
  assert (C18 : pow2 (-18) == 1 # 262144) by reflexivity.
  assert (C45 : pow2 (-45) == 1 # 35184372088832) by reflexivity.
  rewrite C18, C45 in *. clear C18 C45.
  unfold featherAlpha, js_floor, js_mul, js_div, js_sub. fold t f.
  assert (Hx : 0 <= RN (js_sqrt n - inject_Z t) <= inject_Z f).
  { split; [apply RN_nonneg; lra|].
    rewrite <- (RN_int f) by exact Hsafe. apply RN_mono. lra. }
  set (A := inject_Z a) in *. set (F := inject_Z f) in *.
  set (T := inject_Z t) in *. set (k := inject_Z K) in *.
  set (d := js_sqrt n) in *.
  (* the difference *)
  destruct (RN_error (d - T) 9) as [E1 E1'];
    [lra|change (pow2 9) with 512; lra|unfold emin; lia|].
  change (pow2 (9 - 54)) with (1 # 35184372088832) in E1, E1'.
  set (x1 := RN (d - T)) in *.
  (* the ratio *)
  assert (Er : (x1 / F) * F == x1) by (field; lra).
  assert (Hr : 0 <= x1 / F <= 1).
  { split; [apply Qle_shift_div_l|apply Qle_shift_div_r]; lra. }
  set (ratio := x1 / F) in *.
  destruct (RN_error ratio 1) as [E2 E2'];
    [lra|change (pow2 1) with 2; lra|unfold emin; lia|].
  change (pow2 (1 - 54)) with (1 # 9007199254740992) in E2, E2'.
  assert (Hx2 : 0 <= RN ratio <= 1).
  { split; [apply RN_nonneg; lra|].
    change 1 with (inject_Z 1). rewrite <- (RN_int 1) by (vm_compute; done).
    apply RN_mono. change (inject_Z 1) with 1. lra. }
  set (x2 := RN ratio) in *.
  (* the product *)
  assert (Hp : 0 <= A * x2 <= 255) by nra.
  destruct (RN_error (A * x2) 8) as [E3 E3'];
    [lra|change (pow2 8) with 256; lra|unfold emin; lia|].
  change (pow2 (8 - 54)) with (1 # 70368744177664) in E3, E3'.
  set (x3 := RN (A * x2)) in *.
  assert (M1 : A * x1 <= A * (d - T) + 255 * (1 # 35184372088832)) by nra.
  assert (M1' : A * (d - T) - 255 * (1 # 35184372088832) <= A * x1) by nra.
  assert (M2 : A * x2 <= A * ratio + 255 * (1 # 9007199254740992)) by nra.
  assert (M2' : A * ratio - 255 * (1 # 9007199254740992) <= A * x2) by nra.
  assert (M3 : A * x1 == (A * ratio) * F) by (rewrite <- Er; ring).
  split.
  - (* at least one below the exact floor *)
    assert (L : inject_Z (q - 1) <= x3).
    { unfold Zminus. rewrite inject_Z_plus, inject_Z_opp. change (inject_Z 1) with 1.
      assert (inject_Z q - (1 # 34359738368) <= A * ratio); [|lra].
      destruct (Qlt_le_dec (A * ratio) (inject_Z q - (1 # 34359738368))) as [C|C];
        [|exact C]. exfalso.
      assert (0 < F * (inject_Z q - (1 # 34359738368) - A * ratio))
        by (apply Qmult_lt_0_compat; lra).
      nra. }
    apply Qfloor_resp_le in L. by rewrite Qfloor_Z in L.
  - (* at most the exact floor *)
    assert (U : x3 < inject_Z (q + 1)).
    { rewrite inject_Z_plus. change (inject_Z 1) with 1.
      destruct (Z.le_gt_cases f (2 ^ 20)) as [Hs|Hb].
      + assert (PF' : F <= inject_Z (2 ^ 20)) by (unfold F; by rewrite <- Zle_Qle).
        change (inject_Z (2 ^ 20)) with 1048576 in PF'.
        assert (A * ratio <= inject_Z q + 1 - (1 # 549755813888)); [|lra].
        destruct (Qlt_le_dec (inject_Z q + 1 - (1 # 549755813888)) (A * ratio)) as [C|C];
          [|exact C]. exfalso.
        assert (0 < F * (A * ratio - (inject_Z q + 1 - (1 # 549755813888))))
          by (apply Qmult_lt_0_compat; lra).
        nra.
      + assert (PF' : inject_Z (2 ^ 20) <= F) by (unfold F; rewrite <- Zle_Qle; lia).
        change (inject_Z (2 ^ 20)) with 1048576 in PF'.
        assert (ratio <= 1 # 2048); [|nra].
        destruct (Qlt_le_dec (1 # 2048) ratio) as [C|C]; [|exact C]. exfalso.
        assert (0 < F * (ratio - (1 # 2048))) by (apply Qmult_lt_0_compat; lra).
        nra. }
    pose proof (Qfloor_le x3) as Fl.
    assert (inject_Z (Qfloor x3) < inject_Z (q + 1)) by lra.
    rewrite <- Zlt_Qlt in H. lia.
Qed.

End FeatherFacts.

Lemma byteAt_isByte data i v :
  Forall isByte data → byteAt data i = Some v → isByte v.
Proof.
  unfold byteAt. intros Hb. destruct (i <? 0); [done|].
  intros Hv. rewrite Forall_lookup in Hb. by eapply Hb.
Qed.

Lemma wellFormed_valid image x y c a :
  wellFormed image → pixelAt image x y = Some (c, a) → validColor c ∧ isByte a.
Proof.
  intros (_ & _ & _ & Hb) Hp.
  destruct (pixelAt_bytes _ _ _ _ _ Hp) as (Hr & Hg & Hbl & Ha).
  unfold validColor. eauto 10 using byteAt_isByte.
Qed.

(** C3, as the code has it.  For every pixel [(x, y)] of a decoded image,
    of colour [c] and alpha [a], at squared distance [n] from the target
    colour, the single-pass scan keeps the colour and leaves alpha [a']:
    [0] when the distance is at most [threshold]; else, when
    [feather > 0] and the distance is at most [threshold + feather], the
    floor of [a * ((distance - threshold) / feather)] with the root, the
    difference, the quotient and the product each rounded to a double
    ([featherAlpha]), a value between [0] and [a] which, for a threshold
    that is not negative, is the floor over the reals
    ([exactFeatherAlpha]) or one below it; else [a].  With [feather = 0]
    the result is [0] or [a]. *)
Theorem single_pass_pixel_rule this target image x y c a :
  wellFormed image → validColor target → safeInteger (feather this) →
  0 ≤ x < bitmap_width image → 0 ≤ y < bitmap_height image →
  pixelAt image x y = Some (c, a) →
  ∃ a', pixelAt (classifySinglePass this target image) x y = Some (c, a')
    ∧ (rootWithin (squaredDistance c target) (threshold this) = true → a' = 0)
    ∧ (rootWithin (squaredDistance c target) (threshold this) = false →
       0 < feather this →
       rootWithin (squaredDistance c target) (threshold this + feather this) = true →
       a' = featherAlpha this (squaredDistance c target) a ∧ 0 ≤ a' ≤ a
       ∧ (0 ≤ threshold this →
          exactFeatherAlpha a (squaredDistance c target)
            (threshold this) (feather this) - 1
          ≤ a'
          ≤ exactFeatherAlpha a (squaredDistance c target)
              (threshold this) (feather this)))
    ∧ (rootWithin (squaredDistance c target) (threshold this) = false →
       feather this ≤ 0
       ∨ rootWithin (squaredDistance c target) (threshold this + feather this) = false →
       a' = a)
    ∧ (feather this = 0 → a' = 0 ∨ a' = a).
Proof.
  intros Hwf Ht Hsafe Hx Hy Hp.
  destruct (wellFormed_valid _ _ _ _ _ Hwf Hp) as [Hc Ha].
  pose proof (squaredDistance_range _ _ Hc Ht) as Hn.
  eexists. split; [by apply classifySinglePass_pixel|].
  unfold singlePassAlpha. set (n := squaredDistance c target) in *.
  split; [by intros ->|]. split; [|split].
  - intros Hout Hf Hin. rewrite Hout, Hin, (proj2 (Z.ltb_lt _ _) Hf). simpl.
    pose proof (featherAlpha_bounds this n a Hn Ha Hf Hsafe Hout Hin) as Hb.
    unfold toUint8. rewrite Z.mod_small by (unfold isByte in Ha; lia).
    split; [done|]. split; [done|]. intros Hth.
    by apply featherAlpha_near_exact.
  - intros -> [Hf|Hout].
    + by rewrite (proj2 (Z.ltb_ge _ _) Hf).
    + by rewrite Hout, andb_false_r.
  - intros Hf. rewrite Hf. simpl. destruct (rootWithin n (threshold this)); auto.
Qed.

Section RampFacts.
Local Open Scope Q_scope.

(** At distance exactly [threshold + feather] the ramp gives back the
    original alpha. *)
Lemma featherAlpha_top this a :
  isByte a → (0 < feather this)%Z → safeInteger (feather this) →
  (0 ≤ threshold this + feather this ≤ 441)%Z →
  featherAlpha this
    ((threshold this + feather this) * (threshold this + feather this)) a = a.
Proof.
  intros Ha Hf Hsafe Hs.
  set (t := threshold this) in *. set (f := feather this) in *.
  assert (Pf : 0 < inject_Z f).
  { change 0 with (inject_Z 0). by rewrite <- Zlt_Qlt. }
  unfold featherAlpha, js_floor, js_mul, js_div, js_sub. fold t f.
  assert (E1 : RN (js_sqrt ((t + f) * (t + f)) - inject_Z t) == inject_Z f).
  { transitivity (RN (inject_Z f)); [|by apply RN_int].
    apply RN_eq. rewrite (root_exact (t + f)) by exact Hs.
    rewrite inject_Z_plus. ring. }
  assert (E2 : RN (RN (js_sqrt ((t + f) * (t + f)) - inject_Z t) / inject_Z f) == 1).
  { transitivity (RN (inject_Z 1)); [|apply RN_int; vm_compute; done].
    apply RN_eq. rewrite E1. change (inject_Z 1) with 1. field. lra. }
  assert (E3 : RN (inject_Z a *
                   RN (RN (js_sqrt ((t + f) * (t + f)) - inject_Z t) / inject_Z f))
               == inject_Z a).
  { transitivity (RN (inject_Z a)); [|apply RN_int; unfold isByte in Ha; lia].
    apply RN_eq. rewrite E2. ring. }
  rewrite E3. apply Qfloor_Z.
Qed.

End RampFacts.

Lemma rootWithin_mono n1 n2 t :
  n1 ≤ n2 → rootWithin n2 t = true → rootWithin n1 t = true.
Proof.
  unfold rootWithin. rewrite !andb_true_iff, !Z.leb_le. lia.
Qed.

(** C1, as the code has it.  For two pixels of the same alpha [a] whose
    distances to the target colour lie in the feather band
    [(threshold, threshold + feather]], the pixel farther from the
    target colour gets the larger (or equal) alpha: the ramp rises with
    the distance, stays between [0] and [a], and gives back [a] at
    distance [threshold + feather]. *)
Theorem feather_ramp_rises this target image x1 y1 x2 y2 c1 c2 a :
  wellFormed image → validColor target →
  safeInteger (feather this) → 0 < feather this →
  0 ≤ x1 < bitmap_width image → 0 ≤ y1 < bitmap_height image →
  0 ≤ x2 < bitmap_width image → 0 ≤ y2 < bitmap_height image →
  pixelAt image x1 y1 = Some (c1, a) → pixelAt image x2 y2 = Some (c2, a) →
  rootWithin (squaredDistance c1 target) (threshold this) = false →
  rootWithin (squaredDistance c2 target) (threshold this + feather this) = true →
  squaredDistance c1 target ≤ squaredDistance c2 target →
  ∃ a1 a2,
    pixelAt (classifySinglePass this target image) x1 y1 = Some (c1, a1)
    ∧ pixelAt (classifySinglePass this target image) x2 y2 = Some (c2, a2)
    ∧ 0 ≤ a1 ∧ a1 ≤ a2 ∧ a2 ≤ a
    ∧ (squaredDistance c2 target
       = (threshold this + feather this) * (threshold this + feather this) →
       a2 = a).
Proof.
  intros Hwf Ht Hsafe Hf Hx1 Hy1 Hx2 Hy2 Hp1 Hp2 Hlow Hhigh Hle.
  destruct (wellFormed_valid _ _ _ _ _ Hwf Hp1) as [Hc1 Ha].
  destruct (wellFormed_valid _ _ _ _ _ Hwf Hp2) as [Hc2 _].
  pose proof (squaredDistance_range _ _ Hc1 Ht) as Hn1.
  pose proof (squaredDistance_range _ _ Hc2 Ht) as Hn2.
  set (n1 := squaredDistance c1 target) in *.
  set (n2 := squaredDistance c2 target) in *.
  assert (Hlow2 : rootWithin n2 (threshold this) = false).
  { destruct (rootWithin n2 (threshold this)) eqn:E; [|done].
    by rewrite (rootWithin_mono n1 n2 _ Hle E) in Hlow. }
  pose proof (rootWithin_mono n1 n2 _ Hle Hhigh) as Hhigh1.
  pose proof (featherAlpha_bounds this n1 a Hn1 Ha Hf Hsafe Hlow Hhigh1) as B1.
  pose proof (featherAlpha_bounds this n2 a Hn2 Ha Hf Hsafe Hlow2 Hhigh) as B2.
  pose proof (featherAlpha_mono this n1 n2 a ltac:(unfold isByte in Ha; lia) Hf Hle) as M.
  exists (featherAlpha this n1 a), (featherAlpha this n2 a).
  assert (Hout : ∀ n, rootWithin n (threshold this) = false →
                      rootWithin n (threshold this + feather this) = true →
                      0 ≤ featherAlpha this n a ≤ a →
                      singlePassAlpha this n a = featherAlpha this n a).
  { intros n E1 E2 B. unfold singlePassAlpha.
    rewrite E1, E2, (proj2 (Z.ltb_lt _ _) Hf). simpl.
    unfold toUint8. apply Z.mod_small. unfold isByte in Ha. lia. }
  split; [|split].
  - rewrite (classifySinglePass_pixel this target image x1 y1 c1 a) by done.
    fold n1. by rewrite Hout.
  - rewrite (classifySinglePass_pixel this target image x2 y2 c2 a) by done.
    fold n2. by rewrite Hout.
  - split; [lia|]. split; [lia|]. split; [lia|].
    intros E. rewrite E. apply featherAlpha_top; try done.
    unfold rootWithin in Hhigh. apply andb_true_iff in Hhigh as [H0 _].
    apply Z.leb_le in H0. split; [done|]. nia.
Qed.


(* ================================================================= *)
(** ** Concrete runs of the classifier *)

(** The model's rounding agrees with the machine's doubles on the
    distances and on the feathering product used below. *)
Example js_sqrt_machine :
  forallb sqrtAgrees
    [0; 1; 2; 3; 5; 2601; 3600; 22500; 65025; 130050; 194481; 194482; 195075]
  = true.
Proof. vm_compute. reflexivity. Qed.

Example rounding_machine :
  same_value (PrimFloat.div (float_of_Z 1) (float_of_Z 3))
             (js_div (inject_Z 1) (inject_Z 3)) = true
  ∧ same_value (PrimFloat.div (float_of_Z 255) (float_of_Z 7))
               (js_div (inject_Z 255) (inject_Z 7)) = true
  ∧ same_value (PrimFloat.add (PrimFloat.div (float_of_Z 1) (float_of_Z 10))
                              (PrimFloat.div (float_of_Z 2) (float_of_Z 10)))
               (js_add (js_div (inject_Z 1) (inject_Z 10))
                       (js_div (inject_Z 2) (inject_Z 10))) = true
  ∧ same_value (PrimFloat.sub (PrimFloat.sqrt (float_of_Z 195075)) (float_of_Z 441))
               (js_sub (js_sqrt 195075) (inject_Z 441)) = true
  ∧ same_value (PrimFloat.sub (float_of_Z 3) (PrimFloat.sqrt (float_of_Z 2)))
               (js_sub (inject_Z 3) (js_sqrt 2)) = true
  ∧ same_value (PrimFloat.mul (PrimFloat.sqrt (float_of_Z 3)) (PrimFloat.sqrt (float_of_Z 3)))
               (js_mul (js_sqrt 3) (js_sqrt 3)) = true
  ∧ same_value (float_of_Z (2 ^ 53 + 1)) (RN (inject_Z (2 ^ 53 + 1))) = true
  ∧ same_value (float_of_Z (2 ^ 53 + 3)) (RN (inject_Z (2 ^ 53 + 3))) = true
  ∧ same_value (PrimFloat.div (float_of_Z 1) (float_of_Z (2 ^ 60 + 1)))
               (js_div (inject_Z 1) (RN (inject_Z (2 ^ 60 + 1)))) = true.
Proof. vm_compute. repeat split; reflexivity. Qed.

Example feather_product_machine :
  same_value
    (PrimFloat.mul (float_of_Z 49)
       (PrimFloat.div (PrimFloat.sub (PrimFloat.sqrt (float_of_Z 2601)) (float_of_Z 50))
                      (float_of_Z 49)))
    (js_mul (inject_Z 49)
       (js_div (js_sub (js_sqrt 2601) (inject_Z 50)) (inject_Z 49)))
  = true
  ∧ same_value
      (PrimFloat.mul (float_of_Z 200)
         (PrimFloat.div (PrimFloat.sub (PrimFloat.sqrt (float_of_Z 3600)) (float_of_Z 50))
                        (float_of_Z 100)))
      (js_mul (inject_Z 200)
         (js_div (js_sub (js_sqrt 3600) (inject_Z 50)) (inject_Z 100)))
    = true.
Proof. vm_compute. split; reflexivity. Qed.

(** [exactFeatherAlpha] is the floor it is said to be: with
    [s = floor (sqrt (alpha^2 * n))], the integer [k] it returns has
    [k * feather + alpha * threshold <= s < (k + 1) * feather + alpha * threshold]. *)
Remark exactFeatherAlpha_floor alpha n threshold feather :
  0 < feather → 0 ≤ alpha → 0 ≤ n →
  Z.sqrt (alpha * alpha * n) * Z.sqrt (alpha * alpha * n) ≤ alpha * alpha * n
  ∧ alpha * alpha * n
    < (Z.sqrt (alpha * alpha * n) + 1) * (Z.sqrt (alpha * alpha * n) + 1)
  ∧ exactFeatherAlpha alpha n threshold feather * feather + alpha * threshold
    ≤ Z.sqrt (alpha * alpha * n)
  ∧ Z.sqrt (alpha * alpha * n)
    < (exactFeatherAlpha alpha n threshold feather + 1) * feather
      + alpha * threshold.
Proof.
  intros Hf Ha Hn. unfold exactFeatherAlpha.
  set (s := Z.sqrt (alpha * alpha * n)).
  pose proof (Z.sqrt_spec (alpha * alpha * n) ltac:(nia)) as [H1 H2]. fold s in H1, H2.
  pose proof (Z.div_mod (s - alpha * threshold) feather ltac:(lia)) as Hd.
  pose proof (Z.mod_pos_bound (s - alpha * threshold) feather Hf) as Hm.
  repeat split; try lia; nia.
Qed.

(** The constructor's [options.threshold || 50] turns a requested
    threshold of 0 into 50. *)
Remark constructor_threshold_zero target feather :
  threshold (colorCore target 0 feather) = 50.
Proof. reflexivity. Qed.

(** C1, refuted as stated.  Target black, threshold 50, feather 100, two
    pixels of alpha 200 in the feather band: the one at distance 60 gets
    alpha 20, the one at distance 150 keeps alpha 200.  Alpha rises with
    the distance. *)
Lemma feather_ramp_counterexample :
  threshold (colorCore black 50 100) = 50
  ∧ feather (colorCore black 50 100) = 100
  ∧ squaredDistance {| r := 60; g := 0; b := 0 |} black = 60 * 60
  ∧ squaredDistance {| r := 150; g := 0; b := 0 |} black = 150 * 150
  ∧ bitmap_data
      (classifySinglePass (colorCore black 50 100) black
         (rowBitmap 2 [60; 0; 0; 200; 150; 0; 0; 200]))
    = [60; 0; 0; 20; 150; 0; 0; 200].
Proof. vm_compute. repeat split; reflexivity. Qed.

Lemma feather_ramp_rises_witness :
  wellFormed (rowBitmap 2 [60; 0; 0; 200; 150; 0; 0; 200])
  ∧ rootWithin (squaredDistance {| r := 60; g := 0; b := 0 |} black) 50 = false
  ∧ rootWithin (squaredDistance {| r := 150; g := 0; b := 0 |} black) (50 + 100) = true
  ∧ ∃ a1 a2,
      pixelAt (classifySinglePass (colorCore black 50 100) black
                 (rowBitmap 2 [60; 0; 0; 200; 150; 0; 0; 200])) 0 0
      = Some ({| r := 60; g := 0; b := 0 |}, a1)
      ∧ pixelAt (classifySinglePass (colorCore black 50 100) black
                   (rowBitmap 2 [60; 0; 0; 200; 150; 0; 0; 200])) 1 0
        = Some ({| r := 150; g := 0; b := 0 |}, a2)
      ∧ 0 ≤ a1 ∧ a1 ≤ a2 ∧ a2 ≤ 200.
Proof.
  split; [concrete_bitmap|]. split; [reflexivity|]. split; [reflexivity|].
  destruct (feather_ramp_rises (colorCore black 50 100) black
              (rowBitmap 2 [60; 0; 0; 200; 150; 0; 0; 200]) 0 0 1 0
              {| r := 60; g := 0; b := 0 |} {| r := 150; g := 0; b := 0 |} 200)
    as (a1 & a2 & H1 & H2 & H3 & H4 & H5 & _);
    [concrete_bitmap|concrete_color|vm_compute; reflexivity|reflexivity
    |simpl; lia|simpl; lia|simpl; lia|simpl; lia
    |reflexivity|reflexivity|reflexivity|reflexivity|vm_compute; discriminate|].
  exists a1, a2. auto.
Defined.



(** C3, refuted as stated.  Target black, threshold 50, feather 49, one
    pixel of alpha 49 at distance exactly 51: the specification's
    [floor (49 * (51 - 50) / 49)] is 1, but [(51 - 50) / 49] rounds to a
    double whose product with 49 is just below 1, and the code stores 0. *)
Lemma feather_floor_counterexample :
  rootWithin (squaredDistance {| r := 51; g := 0; b := 0 |} black) 50 = false
  ∧ rootWithin (squaredDistance {| r := 51; g := 0; b := 0 |} black) (50 + 49) = true
  ∧ exactFeatherAlpha 49 (squaredDistance {| r := 51; g := 0; b := 0 |} black) 50 49 = 1
  ∧ pixelAt (classifySinglePass (colorCore black 50 49) black
               (rowBitmap 1 [51; 0; 0; 49])) 0 0
    = Some ({| r := 51; g := 0; b := 0 |}, 0).
Proof. vm_compute. repeat split; reflexivity. Qed.

Lemma single_pass_pixel_rule_witness :
  wellFormed (rowBitmap 1 [51; 0; 0; 49])
  ∧ safeInteger (feather (colorCore black 50 49))
  ∧ ∃ a',
      pixelAt (classifySinglePass (colorCore black 50 49) black
                 (rowBitmap 1 [51; 0; 0; 49])) 0 0
      = Some ({| r := 51; g := 0; b := 0 |}, a')
      ∧ a' = featherAlpha (colorCore black 50 49) (51 * 51) 49
      ∧ 0 ≤ a' ≤ 49
      ∧ exactFeatherAlpha 49 (51 * 51) 50 49 - 1 ≤ a'
        ≤ exactFeatherAlpha 49 (51 * 51) 50 49.
Proof.
  split; [concrete_bitmap|]. split; [vm_compute; reflexivity|].
  destruct (single_pass_pixel_rule (colorCore black 50 49) black
              (rowBitmap 1 [51; 0; 0; 49]) 0 0 {| r := 51; g := 0; b := 0 |} 49)
    as (a' & H1 & _ & H2 & _);
    [concrete_bitmap|concrete_color|vm_compute; reflexivity
    |simpl; lia|simpl; lia|reflexivity|].
  exists a'. split; [exact H1|].
  destruct H2 as (E & B & N); [reflexivity|simpl; lia|reflexivity|].
  split; [exact E|]. split; [exact B|]. apply N. simpl. lia.
Defined.

(* ================================================================= *)
(** ** Mask compositing *)

Lemma byteAt_ext d1 d2 : (∀ j, byteAt d1 j = byteAt d2 j) → d1 = d2.
Proof.
  intros H. apply list_eq. intros i. specialize (H (Z.of_nat i)).
  unfold byteAt in H. destruct (Z.ltb_spec (Z.of_nat i) 0); [lia|].
  by rewrite Nat2Z.id in H.
Qed.

Lemma elem_of_range lo hi p : p ∈ range lo hi ↔ lo ≤ p < hi.
Proof. unfold range. rewrite elem_of_seqZ. lia. Qed.

Lemma regionPixels_elem originalImage padding region px py :
  (px, py) ∈ regionPixels originalImage padding region ↔
  (0 ≤ px < bitmap_width originalImage ∧ 0 ≤ py < bitmap_height originalImage)
  ∧ x region - padding ≤ px < x region + width region + padding
  ∧ y region - padding ≤ py < y region + height region + padding.
Proof.
  unfold regionPixels. rewrite list_elem_of_bind. split.
  - intros (py' & H & Hpy). apply list_elem_of_bind in H as (px' & H & Hpx).
    apply list_elem_of_singleton in H. simplify_eq.
    apply elem_of_range in Hpy, Hpx. lia.
  - intros (? & ? & ?). exists py. split; [|apply elem_of_range; lia].
    apply list_elem_of_bind. exists px. split; [|apply elem_of_range; lia].
    by apply list_elem_of_singleton.
Qed.

Lemma getPixelIndex_inside image px py :
  0 ≤ px < bitmap_width image → 0 ≤ py < bitmap_height image →
  getPixelIndex image px py = pixelOffset (bitmap_width image) px py.
Proof.
  intros Hx Hy. unfold getPixelIndex, pixelOffset.
  rewrite (proj2 (Z.ltb_ge px 0)), (proj2 (Z.leb_gt _ px)) by lia.
  rewrite (proj2 (Z.ltb_ge py 0)), (proj2 (Z.leb_gt _ py)) by lia.
  rewrite (proj2 (Z.ltb_ge px 0)), (proj2 (Z.leb_gt _ px)) by lia.
  rewrite (proj2 (Z.ltb_ge py 0)), (proj2 (Z.leb_gt _ py)) by lia.
  simpl. rewrite Z.shiftl_mul_pow2 by lia. lia.
Qed.

(** Either the bitmap has pixels and every index is the offset of one,
    or it has none and every index is [-1]. *)
Lemma getPixelIndex_cases image px py :
  (0 < bitmap_width image ∧ 0 < bitmap_height image
   ∧ ∃ p, 0 ≤ p ∧ getPixelIndex image px py = 4 * p)
  ∨ ((bitmap_width image ≤ 0 ∨ bitmap_height image ≤ 0)
     ∧ getPixelIndex image px py = -1).
Proof.
  unfold getPixelIndex.
  set (w := bitmap_width image). set (h := bitmap_height image).
  set (xi := if px <? 0 then 0 else if w <=? px then w - 1 else px).
  set (yi := if py <? 0 then 0 else if h <=? py then h - 1 else py).
  destruct (Z.lt_ge_cases 0 w) as [Hw|Hw], (Z.lt_ge_cases 0 h) as [Hh|Hh].
  - left. split; [done|]. split; [done|].
    assert (0 ≤ xi < w).
    { unfold xi. destruct (Z.ltb_spec px 0); [lia|].
      destruct (Z.leb_spec w px); lia. }
    assert (0 ≤ yi < h).
    { unfold yi. destruct (Z.ltb_spec py 0); [lia|].
      destruct (Z.leb_spec h py); lia. }
    rewrite (proj2 (Z.ltb_ge xi 0)), (proj2 (Z.leb_gt w xi)) by lia.
    rewrite (proj2 (Z.ltb_ge yi 0)), (proj2 (Z.leb_gt h yi)) by lia.
    simpl. exists (w * yi + xi). split; [nia|].
    rewrite Z.shiftl_mul_pow2 by lia. lia.
  - right. split; [lia|].
    assert (yi < 0 ∨ h ≤ yi).
    { unfold yi. destruct (Z.ltb_spec py 0); [lia|].
      destruct (Z.leb_spec h py); lia. }
    destruct (xi <? 0), (w <=? xi); simpl; try done;
      destruct (Z.ltb_spec yi 0); simpl; try done;
      destruct (Z.leb_spec h yi); simpl; try done; lia.
  - right. split; [lia|].
    assert (xi < 0 ∨ w ≤ xi).
    { unfold xi. destruct (Z.ltb_spec px 0); [lia|].
      destruct (Z.leb_spec w px); lia. }
    destruct (Z.ltb_spec xi 0); simpl; try done.
    destruct (Z.leb_spec w xi); simpl; try done; lia.
  - right. split; [lia|].
    assert (xi < 0 ∨ w ≤ xi).
    { unfold xi. destruct (Z.ltb_spec px 0); [lia|].
      destruct (Z.leb_spec w px); lia. }
    destruct (Z.ltb_spec xi 0); simpl; try done.
    destruct (Z.leb_spec w xi); simpl; try done; lia.
Qed.

Lemma byteAt_setByte data i v j :
  byteAt (setByte data i v) j
  = if decide (i = j) then (λ _, toUint8 v) <$> byteAt data j else byteAt data j.
Proof.
  destruct (decide (i = j)) as [->|Hne]; [|by apply byteAt_setByte_ne].
  destruct (byteAt data j) eqn:E.
  - simpl. apply byteAt_setByte_eq. by rewrite E.
  - simpl. by apply byteAt_setByte_None.
Qed.

Lemma applyWrites_lookup (val : Z → Z) writes data j :
  (∀ i v, (i, v) ∈ writes → toUint8 v = val i) →
  byteAt (applyWrites data writes) j
  = if decide (j ∈ writes.*1) then (λ _, val j) <$> byteAt data j
    else byteAt data j.
Proof.
  revert data. induction writes as [|[i v] writes IH]; intros data Hval.
  { rewrite decide_False; [done|]. rewrite fmap_nil. apply not_elem_of_nil. }
  unfold applyWrites in *. simpl. rewrite IH by (intros; apply Hval; by right).
  rewrite byteAt_setByte.
  assert (Hv : toUint8 v = val i) by (apply Hval; left).
  destruct (decide (j ∈ writes.*1)) as [Hin|Hnin].
  - destruct (decide (j ∈ _)) as [_|H]; [|exfalso; apply H; by right].
    destruct (decide (i = j)); [|done]. by destruct (byteAt data j).
  - destruct (decide (i = j)) as [->|Hne].
    + destruct (decide (j ∈ _)) as [_|H]; [|exfalso; apply H; left].
      rewrite Hv. done.
    + destruct (decide (j ∈ _)) as [H|_]; [|done].
      apply elem_of_cons in H as [?|?]; done.
Qed.

Lemma pixelWrites_value originalImage combinedMask px py i v :
  (i, v) ∈ pixelWrites originalImage combinedMask px py →
  toUint8 v = writtenValue originalImage combinedMask i.
Proof.
  unfold pixelWrites, writtenValue. intros H.
  destruct (getPixelIndex_cases combinedMask px py)
    as [(Hw & Hh & p & Hp & E)|[Hd E]]; rewrite E in H.
  - rewrite (proj2 (Z.ltb_lt _ _) Hw), (proj2 (Z.ltb_lt _ _) Hh). simpl.
    repeat (apply elem_of_cons in H as [H|H]; [simplify_eq|]);
      [| | | |by apply elem_of_nil in H];
      rewrite (Z.add_comm (4 * p)), (Z.mul_comm 4), Z_mod_plus_full; done.
  - assert ((0 <? bitmap_width combinedMask) && (0 <? bitmap_height combinedMask)
            = false) as ->.
    { apply andb_false_iff. rewrite !Z.ltb_ge. done. }
    repeat (apply elem_of_cons in H as [H|H]; [simplify_eq; done|]).
    by apply elem_of_nil in H.
Qed.

Lemma allWrites_value originalImage combinedMask padding textRegions i v :
  (i, v) ∈ allWrites originalImage combinedMask padding textRegions →
  toUint8 v = writtenValue originalImage combinedMask i.
Proof.
  unfold allWrites, regionWrites. intros H.
  apply list_elem_of_bind in H as (region & H & _).
  apply list_elem_of_bind in H as ([px py] & H & _).
  by eapply pixelWrites_value.
Qed.

Lemma regionWrites_dims originalImage mask1 mask2 padding region :
  bitmap_width mask1 = bitmap_width mask2 →
  bitmap_height mask1 = bitmap_height mask2 →
  regionWrites originalImage mask1 padding region
  = regionWrites originalImage mask2 padding region.
Proof.
  intros Hw Hh. unfold regionWrites, pixelWrites, getPixelIndex.
  by rewrite Hw, Hh.
Qed.

(** The loops over the regions perform [allWrites], in order. *)
Lemma compositeRegions_writes originalImage padding textRegions combinedMask :
  compositeRegions originalImage padding textRegions combinedMask
  = {| bitmap_width := bitmap_width combinedMask;
       bitmap_height := bitmap_height combinedMask;
       bitmap_data :=
         applyWrites (bitmap_data combinedMask)
           (allWrites originalImage combinedMask padding textRegions) |}.
Proof.
  unfold compositeRegions, allWrites.
  revert combinedMask.
  induction textRegions as [|region regions IH]; intros mask.
  { by destruct mask. }
  simpl. rewrite IH. simpl. f_equal.
  unfold applyWrites. by rewrite foldl_app.
Qed.

Lemma Permutation_written originalImage combinedMask padding regions regions' j :
  regions ≡ₚ regions' →
  j ∈ (allWrites originalImage combinedMask padding regions).*1
  ↔ j ∈ (allWrites originalImage combinedMask padding regions').*1.
Proof.
  intros Hperm. unfold allWrites. by rewrite Hperm.
Qed.

(** C6. Compositing a list of regions a second time changes nothing,
    and compositing the regions in another order gives the same bitmap. *)
Theorem composite_idempotent_any_order originalImage padding regions combinedMask :
  compositeRegions originalImage padding regions
    (compositeRegions originalImage padding regions combinedMask)
  = compositeRegions originalImage padding regions combinedMask
  ∧ ∀ regions',
      regions ≡ₚ regions' →
      compositeRegions originalImage padding regions' combinedMask
      = compositeRegions originalImage padding regions combinedMask.
Proof.
  split.
  - rewrite (compositeRegions_writes _ _ _ (compositeRegions _ _ _ _)).
    rewrite !compositeRegions_writes. simpl. f_equal.
    set (mask' := {| bitmap_width := bitmap_width combinedMask |}).
    assert (Hsame : allWrites originalImage mask' padding regions
                    = allWrites originalImage combinedMask padding regions).
    { unfold allWrites. apply list_bind_ext; [|done]. intros region.
      by apply regionWrites_dims. }
    rewrite Hsame. clear mask' Hsame.
    set (writes := allWrites originalImage combinedMask padding regions).
    apply byteAt_ext. intros j.
    rewrite !(applyWrites_lookup (writtenValue originalImage combinedMask))
      by (intros i v; apply allWrites_value).
    destruct (decide (j ∈ writes.*1)); [|done].
    by destruct (byteAt (bitmap_data combinedMask) j).
  - intros regions' Hperm. rewrite !compositeRegions_writes. f_equal.
    apply byteAt_ext. intros j.
    rewrite !(applyWrites_lookup (writtenValue originalImage combinedMask))
      by (intros i v; apply allWrites_value).
    destruct (decide (j ∈ _)) as [H1|H1], (decide (j ∈ _)) as [H2|H2]; try done.
    + exfalso. apply H2. by apply (Permutation_written _ _ _ _ _ _ Hperm).
    + exfalso. apply H1. by apply (Permutation_written _ _ _ _ _ _ Hperm).
Qed.

(** C9. The pixels the compositing loops visit for a region are exactly
    those of its padded box that lie inside the image; so, the mask
    having the original's size, every offset written (and read in the
    original) lies inside the buffers. *)
Theorem region_writes_in_bounds originalImage combinedMask padding region :
  wellFormed originalImage → wellFormed combinedMask →
  bitmap_width combinedMask = bitmap_width originalImage →
  bitmap_height combinedMask = bitmap_height originalImage →
  (∀ px py,
      (px, py) ∈ regionPixels originalImage padding region ↔
      (0 ≤ px < bitmap_width originalImage ∧ 0 ≤ py < bitmap_height originalImage)
      ∧ x region - padding ≤ px < x region + width region + padding
      ∧ y region - padding ≤ py < y region + height region + padding)
  ∧ ∀ i v,
      (i, v) ∈ regionWrites originalImage combinedMask padding region →
      0 ≤ i < Z.of_nat (length (bitmap_data combinedMask))
      ∧ is_Some (byteAt (bitmap_data originalImage) i).
Proof.
  intros (Hw & Hh & Hlen & _) (_ & _ & Hlen' & _) Ew Eh.
  split; [intros; apply regionPixels_elem|].
  intros i v H. unfold regionWrites in H.
  apply list_elem_of_bind in H as ([px py] & H & Hp).
  apply regionPixels_elem in Hp as ((Hx & Hy) & _).
  unfold pixelWrites in H.
  rewrite getPixelIndex_inside in H by (rewrite ?Ew, ?Eh; done).
  rewrite Ew in H. unfold pixelOffset in H.
  assert (Hi : 0 ≤ i < 4 * (bitmap_width originalImage * bitmap_height originalImage)).
  { repeat (apply elem_of_cons in H as [H|H]; [simplify_eq; nia|]).
    by apply elem_of_nil in H. }
  split; [rewrite Hlen', Ew, Eh; done|].
  unfold byteAt. rewrite (proj2 (Z.ltb_ge i 0)) by lia.
  apply lookup_lt_is_Some. lia.
Qed.

Lemma region_writes_in_bounds_witness :
  wellFormed sampleOriginal ∧ wellFormed sampleCutout
  ∧ regionPixels sampleOriginal 5 sampleRegion = [(0, 0); (1, 0)]
  ∧ ∀ i v,
      (i, v) ∈ regionWrites sampleOriginal sampleCutout 5 sampleRegion →
      0 ≤ i < 8 ∧ is_Some (byteAt (bitmap_data sampleOriginal) i).
Proof.
  split; [concrete_bitmap|]. split; [concrete_bitmap|]. split; [reflexivity|].
  exact (proj2 (region_writes_in_bounds sampleOriginal sampleCutout 5 sampleRegion
                  ltac:(concrete_bitmap) ltac:(concrete_bitmap) eq_refl eq_refl)).
Defined.

Example composite_sample :
  bitmap_data (compositeRegions sampleOriginal 5 [sampleRegion] sampleCutout)
  = bitmap_data sampleOriginal.
Proof. reflexivity. Qed.

(* ================================================================= *)
(** ** Errors: what stops a run and what does not *)

Lemma checkInput_ok world log :
  fileExists world = true →
  isSupported (inputExt world) = true →
  checkInput world log = (inr tt, log).
Proof. intros He Hs. unfold checkInput, bind. by rewrite He, Hs. Qed.

Lemma checkInput_log world log :
  ∃ outcome, checkInput world log = (outcome, log).
Proof.
  unfold checkInput, bind. destruct (fileExists world); simpl; [|by eexists].
  destruct (isSupported _); by eexists.
Qed.

(** C7, as the code has it.  In single-pass colour mode a missing target
    colour stops the run before the image is decoded: the only event is
    the error written to the console, and the run returns [false].  The
    threshold is not checked: with a target colour, an image that decodes
    and a writable output, the run classifies and saves whatever the
    threshold is. *)
Theorem missing_target_stops_run this world log :
  colorPasses this = None ∨ colorPasses this = Some [] →
  (targetColor this = None →
   (∃ message,
       removeBackgroundColor this world log
       = (inr false, log ++ [ConsoleError message]))
   ∧ (fileExists world = true →
      isSupported (inputExt world) = true →
      removeBackgroundColor this world log
      = (inr false,
         log ++ [ConsoleError
                   ("Error processing " +:+ inputName world +:+ ": "
                    +:+ "Target color not specified. Use --target-color option.")])))
  ∧ ∀ target image,
      targetColor this = Some target →
      fileExists world = true →
      isSupported (inputExt world) = true →
      decoded world = inr image → saveError world = None →
      removeBackgroundColor this world log
      = (inr true,
         log ++ [Decoded; Classified; Saved (classifySinglePass this target image)]).
Proof.
  intros Hp. split.
  - intros Ht. split.
    + unfold removeBackgroundColor, tryCatch, bind.
      destruct (checkInput_log world log) as [[message|[]] ->].
      * eexists. reflexivity.
      * rewrite Ht. destruct Hp as [-> | ->]; eexists; reflexivity.
    + intros He Hs. unfold removeBackgroundColor, tryCatch, bind.
      rewrite (checkInput_ok world log He Hs), Ht.
      by destruct Hp as [-> | ->].
  - intros target image Ht He Hs Hd Hsave.
    unfold removeBackgroundColor, tryCatch, bind.
    rewrite (checkInput_ok world log He Hs), Ht.
    destruct Hp as [Hp|Hp]; rewrite Hp; unfold await, save, emit;
      rewrite Hd, Hsave; simpl;
    by rewrite <- !app_assoc.
Qed.

(** C7, refuted as stated.  A threshold of 1000, or of -5, is outside
    [0, 441]; the engine does not detect it: the run decodes, classifies
    and saves, and returns [true]. *)
Lemma invalid_threshold_counterexample :
  threshold (colorCore black 1000 0) = 1000
  ∧ removeBackgroundColor (colorCore black 1000 0) sampleWorld []
    = (inr true,
       [Decoded; Classified; Saved (rowBitmap 2 [10; 20; 30; 0; 40; 50; 60; 0])])
  ∧ threshold (colorCore black (-5) 0) = -5
  ∧ removeBackgroundColor (colorCore black (-5) 0) sampleWorld []
    = (inr true, [Decoded; Classified; Saved sampleOriginal]).
Proof. vm_compute. repeat split; reflexivity. Qed.

Lemma missing_target_stops_run_witness :
  colorPasses (constructor noOptions) = None
  ∧ targetColor (constructor noOptions) = None
  ∧ removeBackgroundColor (constructor noOptions) sampleWorld []
    = (inr false,
       [ConsoleError
          "Error processing photo.png: Target color not specified. Use --target-color option."]).
Proof.
  split; [reflexivity|]. split; [reflexivity|].
  exact (proj2 (proj1 (missing_target_stops_run (constructor noOptions) sampleWorld []
                         (or_introl eq_refl)) eq_refl) eq_refl eq_refl).
Defined.

(** C8. When the OCR collaborator throws, [detectTextRegions] logs the
    error and returns the empty list; and a hybrid run in OCR mode, whose
    other steps succeed, goes on to save the person cut-out unchanged and
    returns [true]. *)
Theorem ocr_failure_absorbed world message :
  recognition world = inl message →
  (∀ log,
      detectTextRegions world log
      = (inr [], log ++ [ConsoleError ("Text detection error: " +:+ message)]))
  ∧ ∀ this personMask originalImage log,
      textDetectionMode this = "ocr"%string →
      fileExists world = true → isSupported (inputExt world) = true →
      cutout world = inr personMask → decoded world = inr originalImage →
      saveError world = None →
      removeBackgroundHybrid this world log
      = (inr true,
         log ++ [Segmented; Decoded;
                 ConsoleError ("Text detection error: " +:+ message);
                 Composited; Saved personMask]).
Proof.
  intros Hocr.
  assert (Hdetect : ∀ log,
    detectTextRegions world log
    = (inr [], log ++ [ConsoleError ("Text detection error: " +:+ message)])).
  { intros log. unfold detectTextRegions, tryCatch, bind, await.
    by rewrite Hocr. }
  split; [exact Hdetect|].
  intros this personMask originalImage log Hmode He Hs Hc Hd Hsave.
  unfold removeBackgroundHybrid, tryCatch, bind.
  rewrite (checkInput_ok world log He Hs).
  unfold await, emit, save. rewrite Hc, Hd, Hmode, Hsave. simpl.
  rewrite Hdetect. simpl. destruct personMask. simpl.
  by rewrite <- !app_assoc.
Qed.

Lemma ocr_failure_absorbed_witness :
  recognition sampleWorld = inl "worker failed"%string
  ∧ detectTextRegions sampleWorld []
    = (inr [], [ConsoleError "Text detection error: worker failed"])
  ∧ removeBackgroundHybrid (constructor noOptions) sampleWorld []
    = (inr true,
       [Segmented; Decoded; ConsoleError "Text detection error: worker failed";
        Composited; Saved sampleCutout]).
Proof.
  split; [reflexivity|].
  pose proof (ocr_failure_absorbed sampleWorld "worker failed" eq_refl) as [H1 H2].
  split; [exact (H1 [])|].
  exact (H2 (constructor noOptions) sampleCutout sampleOriginal []
            eq_refl eq_refl eq_refl eq_refl eq_refl eq_refl).
Defined.

(* ================================================================= *)
(** ** Connected-component labelling *)

Lemma flagAt_insert_eq (flags : list bool) i :
  0 ≤ i < Z.of_nat (length flags) →
  flagAt (<[Z.to_nat i := true]> flags) i = true.
Proof.
  intros Hi. unfold flagAt. rewrite (proj2 (Z.ltb_ge i 0)) by lia.
  rewrite list_lookup_insert_eq by lia. done.
Qed.

Lemma flagAt_insert_ne (flags : list bool) i j :
  0 ≤ i → i ≠ j → flagAt (<[Z.to_nat i := true]> flags) j = flagAt flags j.
Proof.
  intros Hi Hne. unfold flagAt. destruct (Z.ltb_spec j 0); [done|].
  rewrite list_lookup_insert_ne by lia. done.
Qed.

Lemma flagAt_insert_mono (flags : list bool) i j :
  flagAt flags j = true → flagAt (<[Z.to_nat i := true]> flags) j = true.
Proof.
  unfold flagAt. destruct (Z.ltb_spec j 0) as [|Hj]; [done|]. intros Hf.
  destruct (decide (Z.to_nat i = Z.to_nat j)) as [E|NE].
  - rewrite E. destruct (flags !! Z.to_nat j) eqn:El; [|done].
    rewrite list_lookup_insert_eq; [done|]. by eapply lookup_lt_Some.
  - by rewrite list_lookup_insert_ne.
Qed.

Lemma cellIndex_range width height c :
  inGrid width height c → 0 ≤ cellIndex width c < width * height.
Proof. unfold inGrid, cellIndex. destruct c as [cx cy]. simpl. nia. Qed.

Lemma cellIndex_inj width height c1 c2 :
  inGrid width height c1 → inGrid width height c2 →
  cellIndex width c1 = cellIndex width c2 → c1 = c2.
Proof.
  unfold inGrid, cellIndex. destruct c1 as [x1 y1], c2 as [x2 y2]. simpl.
  intros H1 H2 E. assert (y1 = y2) by nia. subst. f_equal. lia.
Qed.

Lemma adjacent8_directions c c' :
  adjacent8 c c' ↔ ∃ d, d ∈ directions ∧ c' = (c.1 + d.1, c.2 + d.2).
Proof.
  unfold adjacent8, directions. destruct c as [cx cy], c' as [cx' cy']. simpl.
  split.
  - intros (Hne & Hx & Hy).
    exists (cx' - cx, cy' - cy). simpl. split; [|f_equal; lia].
    assert (cx' - cx = -1 ∨ cx' - cx = 0 ∨ cx' - cx = 1) as [Ex|[Ex|Ex]] by lia;
    assert (cy' - cy = -1 ∨ cy' - cy = 0 ∨ cy' - cy = 1) as [E|[E|E]] by lia;
      rewrite ?Ex, ?E; try (rewrite !elem_of_cons; tauto).
    exfalso. apply Hne. f_equal; lia.
  - intros ([dx dy] & Hd & E). simpl in E. simplify_eq.
    repeat (apply elem_of_cons in Hd as [Hd|Hd];
            [simplify_eq; split; [intros Heq; simplify_eq; lia|lia]|]).
    by apply elem_of_nil in Hd.
Qed.

Lemma adjacent8_sym c c' : adjacent8 c c' → adjacent8 c' c.
Proof. unfold adjacent8. intros (? & ? & ?). split; [done|lia]. Qed.

Lemma grid_cells_bound width height (cells : list (Z * Z)) :
  NoDup cells → (∀ c, c ∈ cells → inGrid width height c) →
  (length cells ≤ Z.to_nat (width * height))%nat.
Proof.
  intros Hnd Hin.
  assert (Hnd' : NoDup (cellIndex width <$> cells)).
  { apply NoDup_fmap_2_strong; [|done].
    intros c1 c2 H1 H2. apply (cellIndex_inj width height); auto. }
  assert (Hsub : cellIndex width <$> cells ⊆+ seqZ 0 (width * height)).
  { apply NoDup_submseteq; [done|]. intros i Hi.
    apply list_elem_of_fmap in Hi as (c & -> & Hc).
    apply elem_of_seqZ. pose proof (cellIndex_range _ _ _ (Hin c Hc)). lia. }
  apply submseteq_length in Hsub.
  by rewrite length_fmap, length_seqZ in Hsub.
Qed.

(** The bounding box is computed when the component can be spread, and
    a [RangeError] is thrown when it cannot. *)
Lemma boundingRegion_cases argumentLimit component :
  boundingRegion argumentLimit component
  = if decide (spreads argumentLimit component) then inr (boxOf component)
    else inl stackOverflow.
Proof.
  unfold boundingRegion, minOf, maxOf, spreads. rewrite !length_fmap.
  destruct (Z.ltb_spec argumentLimit (Z.of_nat (length component))).
  - by rewrite decide_False by lia.
  - by rewrite decide_True by lia.
Qed.

Section Labelling.
Variable mask : list bool.
Variables width height : Z.

Lemma visitNeighbour_cases cell visited queue d :
  (visitNeighbour mask width height cell (visited, queue) d
   = (<[Z.to_nat (cellIndex width (cell.1 + d.1, cell.2 + d.2)) := true]> visited,
      queue ++ [(cell.1 + d.1, cell.2 + d.2)])
   ∧ isSet mask width height (cell.1 + d.1, cell.2 + d.2)
   ∧ flagAt visited (cellIndex width (cell.1 + d.1, cell.2 + d.2)) = false)
  ∨ (visitNeighbour mask width height cell (visited, queue) d = (visited, queue)
     ∧ (isSet mask width height (cell.1 + d.1, cell.2 + d.2) →
        flagAt visited (cellIndex width (cell.1 + d.1, cell.2 + d.2)) = true)).
Proof.
  unfold visitNeighbour, isSet, inGrid, cellIndex. simpl.
  set (nx := cell.1 + d.1). set (ny := cell.2 + d.2).
  destruct (Z.leb_spec 0 nx), (Z.ltb_spec nx width),
    (Z.leb_spec 0 ny), (Z.ltb_spec ny height); simpl;
    try (right; split; [done|]; intros [[? ?] _]; lia).
  destruct (flagAt visited (ny * width + nx)) eqn:Ev; simpl;
    [right; split; done|].
  destruct (flagAt mask (ny * width + nx)) eqn:Em; simpl.
  - left. split; [done|]. split; [|done]. split; [lia|done].
  - right. split; [done|]. intros [_ ?]. congruence.
Qed.

Lemma visitNeighbours_spec cell ds visited queue :
  Z.of_nat (length visited) = width * height →
  ∃ new visited',
    foldl (visitNeighbour mask width height cell) (visited, queue) ds
    = (visited', queue ++ new)
    ∧ Z.of_nat (length visited') = width * height
    ∧ NoDup new
    ∧ (∀ c, c ∈ new →
         isSet mask width height c
         ∧ flagAt visited (cellIndex width c) = false
         ∧ ∃ d, d ∈ ds ∧ c = (cell.1 + d.1, cell.2 + d.2))
    ∧ (∀ c, inGrid width height c →
         flagAt visited' (cellIndex width c) = true
         ↔ flagAt visited (cellIndex width c) = true ∨ c ∈ new)
    ∧ (∀ d, d ∈ ds →
         isSet mask width height (cell.1 + d.1, cell.2 + d.2) →
         flagAt visited' (cellIndex width (cell.1 + d.1, cell.2 + d.2)) = true).
Proof.
  revert visited queue.
  induction ds as [|d ds IH]; intros visited queue Hlen.
  { exists [], visited. rewrite app_nil_r. split; [done|]. split; [done|].
    split; [constructor|]. split; [by intros ? ?%elem_of_nil|].
    split; [|by intros ? ?%elem_of_nil].
    intros c _. split; [auto|]. intros [?|?%elem_of_nil]; done. }
  cbn [foldl].
  destruct (visitNeighbour_cases cell visited queue d)
    as [(-> & Hset & Hnew)|[-> Hold]];
    set (c' := (cell.1 + d.1, cell.2 + d.2)) in *.
  - set (v1 := <[Z.to_nat (cellIndex width c') := true]> visited).
    assert (Hlen1 : Z.of_nat (length v1) = width * height).
    { unfold v1. by rewrite length_insert. }
    assert (Hin' : inGrid width height c') by apply Hset.
    pose proof (cellIndex_range _ _ _ Hin') as Hr.
    assert (Hv1 : ∀ c, inGrid width height c →
              flagAt v1 (cellIndex width c) = true
              ↔ flagAt visited (cellIndex width c) = true ∨ c = c').
    { intros c Hc. unfold v1.
      destruct (decide (cellIndex width c' = cellIndex width c)) as [E|NE].
      - rewrite <- E, flagAt_insert_eq by lia.
        split; [intros _; right|done].
        symmetry. by apply (cellIndex_inj width height).
      - rewrite flagAt_insert_ne by lia. split; [auto|].
        intros [?| ->]; done. }
    destruct (IH v1 (queue ++ [c']) Hlen1)
      as (new & visited' & Hfold & Hlen' & Hnd & Hnew2 & Hvis & Hall).
    exists (c' :: new), visited'.
    split; [by rewrite Hfold, <- app_assoc|]. split; [done|].
    split.
    { apply NoDup_cons. split; [|done]. intros Hc.
      destruct (Hnew2 c' Hc) as (_ & Hf & _).
      rewrite (proj2 (Hv1 c' Hin')) in Hf by auto. done. }
    split.
    { intros c [->|Hc]%elem_of_cons.
      - split; [done|]. split; [done|]. exists d. split; [left|done].
      - destruct (Hnew2 c Hc) as (Hs & Hf & d' & Hd' & E).
        split; [done|]. split; [|exists d'; split; [by right|done]].
        destruct (flagAt visited (cellIndex width c)) eqn:Ev; [|done].
        rewrite (proj2 (Hv1 c (proj1 Hs))) in Hf by auto. done. }
    split.
    { intros c Hc. rewrite (Hvis c Hc), (Hv1 c Hc), elem_of_cons. tauto. }
    intros d' [->|Hd']%elem_of_cons Hs.
    + apply (Hvis c' Hin'). left. apply (Hv1 c' Hin'). by right.
    + by apply Hall.
  - destruct (IH visited queue Hlen)
      as (new & visited' & Hfold & Hlen' & Hnd & Hnew2 & Hvis & Hall).
    exists new, visited'. split; [done|]. split; [done|]. split; [done|].
    split.
    { intros c Hc. destruct (Hnew2 c Hc) as (Hs & Hf & d' & Hd' & E).
      split; [done|]. split; [done|]. exists d'. split; [by right|done]. }
    split; [done|].
    intros d' [->|Hd']%elem_of_cons Hs.
    + apply (Hvis c' (proj1 Hs)). left. by apply Hold.
    + by apply Hall.
Qed.

Lemma connected_isSet start c :
  connected mask width height start c → isSet mask width height c.
Proof. by intros [|]. Qed.

(** The [while] loop, from any state that satisfies the traversal's
    invariant: it ends within the fuel and returns the start cell's
    component. *)
Lemma bfsLoop_spec (initial : list bool) (start : Z * Z) :
  isSet mask width height start →
  (∀ c c', inGrid width height c → flagAt initial (cellIndex width c) = true →
           adjacent8 c c' → isSet mask width height c' →
           flagAt initial (cellIndex width c') = true) →
  ∀ fuel visited queue points,
    Z.of_nat (length visited) = width * height →
    (Z.to_nat (width * height) ≤ fuel + length points)%nat →
    (∀ c, inGrid width height c →
       flagAt visited (cellIndex width c) = true
       ↔ flagAt initial (cellIndex width c) = true ∨ c ∈ points ++ queue) →
    NoDup (points ++ queue) →
    (∀ c, c ∈ points ++ queue →
       connected mask width height start c
       ∧ flagAt initial (cellIndex width c) = false) →
    (∀ c c', c ∈ points → adjacent8 c c' → isSet mask width height c' →
       flagAt visited (cellIndex width c') = true) →
    start ∈ points ++ queue →
    ∃ points' visited',
      bfsLoop fuel mask width height visited queue points = Some (points', visited')
      ∧ Z.of_nat (length visited') = width * height
      ∧ NoDup points'
      ∧ (∀ c, c ∈ points' ↔ connected mask width height start c)
      ∧ (∀ c, c ∈ points' → flagAt initial (cellIndex width c) = false)
      ∧ (∀ c, inGrid width height c →
           flagAt visited' (cellIndex width c) = true
           ↔ flagAt initial (cellIndex width c) = true ∨ c ∈ points').
Proof.
  intros Hstart Hclosed fuel.
  induction fuel as [|fuel IH]; intros visited queue points Hlen Hfuel J2 J3 J4 J5 J6.
  all: destruct queue as [|cell rest].
  1, 3: rewrite app_nil_r in *; exists points, visited; simpl.
  1, 2: split; [done|]; split; [done|]; split; [done|];
        split; [|split; [intros c Hc; by apply J4|done]].
  1, 2: intros c; split; [intros Hc; by apply J4|].
  1, 2: induction 1 as [|c c' Hcon IHc Hadj Hset]; [done|].
  1, 2: pose proof (J5 c c' IHc Hadj Hset) as Hv.
  1, 2: apply (J2 c' (proj1 Hset)) in Hv as [Hv|Hv]; [|done].
  1, 2: exfalso; destruct (J4 c IHc) as [Hc Hf].
  1, 2: rewrite (Hclosed c' c (proj1 Hset) Hv (adjacent8_sym _ _ Hadj)
                   (connected_isSet _ _ Hc)) in Hf; done.
  - (* no fuel left with a cell still queued: there are not that many cells *)
    exfalso.
    assert (Hb : (length (points ++ cell :: rest) ≤ Z.to_nat (width * height))%nat).
    { apply grid_cells_bound; [done|]. intros c Hc.
      apply (connected_isSet start c). by apply J4. }
    rewrite length_app in Hb. simpl in Hb. lia.
  - cbn [bfsLoop].
    destruct (visitNeighbours_spec cell directions visited rest Hlen)
      as (new & visited' & -> & Hlen' & Hnd & Hnew & Hvis & Hall).
    assert (Hcell : connected mask width height start cell).
    { apply J4. apply elem_of_app. right. left. }
    apply IH.
    + done.
    + rewrite length_app. simpl. lia.
    + intros c Hc. rewrite (Hvis c Hc), (J2 c Hc). split_elems. tauto.
    + assert (Hperm : (points ++ [cell]) ++ rest ++ new
                      ≡ₚ (points ++ cell :: rest) ++ new).
      { rewrite <- !app_assoc. simpl. done. }
      rewrite Hperm. apply NoDup_app. split; [done|]. split; [|done].
      intros c Hc Hc'. destruct (Hnew c Hc') as (Hs & Hf & _).
      assert (flagAt visited (cellIndex width c) = true); [|congruence].
      apply (J2 c (proj1 Hs)). by right.
    + intros c Hc.
      assert (Hold : c ∈ points ++ cell :: rest ∨ c ∈ new).
      { split_elems_in Hc. split_elems. tauto. }
      destruct Hold as [Hold|Hc']; [by apply J4|].
      destruct (Hnew c Hc') as (Hs & Hf & d & Hd & ->).
      split.
      * eapply connected_step; [exact Hcell| |exact Hs].
        apply adjacent8_directions. by exists d.
      * destruct (flagAt initial _) eqn:Ei; [|done].
        assert (flagAt visited (cellIndex width (cell.1 + d.1, cell.2 + d.2)) = true);
          [|congruence].
        apply (J2 _ (proj1 Hs)). by left.
    + intros c c' Hc Hadj Hset.
      apply elem_of_app in Hc as [Hc|Hc].
      * apply (Hvis c' (proj1 Hset)). left. by eapply J5.
      * split_elems_in Hc. destruct Hc as [->|[]].
        apply adjacent8_directions in Hadj as (d & Hd & ->).
        by apply Hall.
    + split_elems_in J6. split_elems. tauto.
Qed.

(** [bfs(x, y)] from an unvisited [true] cell, when the visited cells are
    closed under stepping to [true] neighbours: it returns, with the
    start cell's component, each cell once. *)
Lemma bfs_spec (visited : list bool) (start : Z * Z) :
  Z.of_nat (length visited) = width * height →
  isSet mask width height start →
  flagAt visited (cellIndex width start) = false →
  (∀ c c', inGrid width height c → flagAt visited (cellIndex width c) = true →
           adjacent8 c c' → isSet mask width height c' →
           flagAt visited (cellIndex width c') = true) →
  ∃ points visited',
    bfs (Z.to_nat (width * height)) mask width height visited start.1 start.2
    = Some (points, visited')
    ∧ Z.of_nat (length visited') = width * height
    ∧ NoDup points
    ∧ (∀ c, c ∈ points ↔ connected mask width height start c)
    ∧ (∀ c, c ∈ points → flagAt visited (cellIndex width c) = false)
    ∧ (∀ c, inGrid width height c →
         flagAt visited' (cellIndex width c) = true
         ↔ flagAt visited (cellIndex width c) = true ∨ c ∈ points).
Proof.
  intros Hlen Hstart Hnew Hclosed. unfold bfs.
  pose proof (cellIndex_range _ _ _ (proj1 Hstart)) as Hr.
  change (start.2 * width + start.1) with (cellIndex width start).
  replace (start.1, start.2) with start by (by destruct start).
  apply (bfsLoop_spec visited start Hstart Hclosed).
  - by rewrite length_insert.
  - simpl. lia.
  - intros c Hc. simpl. split_elems.
    destruct (decide (cellIndex width start = cellIndex width c)) as [E|NE].
    + rewrite <- E, flagAt_insert_eq by lia.
      split; [intros _; right; left|done].
      symmetry. apply (cellIndex_inj width height); [apply Hstart|done|done].
    + rewrite flagAt_insert_ne by lia. split; [auto|].
      intros [?|[->|[]]]; done.
  - simpl. apply NoDup_singleton.
  - intros c Hc. simpl in Hc. split_elems_in Hc. destruct Hc as [->|[]].
    split; [by constructor|done].
  - intros c c' Hc. by apply elem_of_nil in Hc.
  - simpl. left.
Qed.

Lemma labelInvariant_closed visited regions components c c' :
  labelInvariant mask width height visited regions components →
  inGrid width height c → flagAt visited (cellIndex width c) = true →
  adjacent8 c c' → isSet mask width height c' →
  flagAt visited (cellIndex width c') = true.
Proof.
  intros (_ & Hvis & Hcomp & _) Hc Hv Hadj Hset.
  apply (Hvis c Hc) in Hv as (component & Hin & Hcc).
  apply (Hvis c' (proj1 Hset)). exists component. split; [done|].
  rewrite Forall_forall in Hcomp.
  destruct (Hcomp component Hin) as (start & _ & Hiff).
  apply Hiff. eapply connected_step; [by apply Hiff|done|done].
Qed.

Variable argumentLimit : Z.

(** One turn of the two nested loops: it finds at most one more
    component, and throws when that one passes the size filter and
    cannot be spread. *)
Lemma labelCell_spec visited regions components cell :
  inGrid width height cell →
  labelInvariant mask width height visited regions components →
  ∃ visited' regions' extra,
    labelInvariant mask width height visited' regions' (components ++ extra)
    ∧ labelCell argumentLimit mask width height (Some (inr (visited, regions))) cell
      = Some (if decide (Forall (spreads argumentLimit) (filter bigEnough extra))
              then inr (visited', regions') else inl stackOverflow)
    ∧ (isSet mask width height cell →
       ∃ component, component ∈ components ++ extra ∧ cell ∈ component).
Proof.
  intros Hcell Hinv. unfold labelCell. simpl.
  change (cell.2 * width + cell.1) with (cellIndex width cell).
  destruct (flagAt mask (cellIndex width cell)) eqn:Em; simpl;
    [|exists visited, regions, []; rewrite app_nil_r;
      split; [done|]; split; [done|]; intros [_ ?]; congruence].
  destruct (flagAt visited (cellIndex width cell)) eqn:Ev; simpl.
  { exists visited, regions, []. rewrite app_nil_r.
    split; [done|]. split; [done|]. intros _.
    destruct Hinv as (_ & Hvis & _). by apply (Hvis cell Hcell). }
  assert (Hset : isSet mask width height cell) by done.
  destruct Hinv as (Hlen & Hvis & Hcomp & Hnd & Hreg).
  destruct (bfs_spec visited cell Hlen Hset Ev) as
    (points & visited' & -> & Hlen' & Hndp & Hpoints & Hfresh & Hvis').
  { intros c c'. by apply (labelInvariant_closed visited regions components). }
  simpl.
  assert (Hcellin : cell ∈ points) by (apply Hpoints; by constructor).
  assert (Hinv' : ∀ regions',
             regions' = boxOf <$> filter bigEnough (components ++ [points]) →
             labelInvariant mask width height visited' regions' (components ++ [points])).
  { intros regions' Hr. split; [done|]. split; [|split; [|split; [|done]]].
    - intros c Hc. rewrite (Hvis' c Hc), (Hvis c Hc). split.
      + intros [(component & ? & ?)|?].
        * exists component. split; [|done]. apply elem_of_app. by left.
        * exists points. split; [|done]. apply elem_of_app. right. left.
      + intros (component & [?|Hp]%elem_of_app & ?).
        * left. by exists component.
        * split_elems_in Hp. destruct Hp as [->|[]]. by right.
    - apply Forall_app. split; [done|]. apply Forall_singleton.
      exists cell. split; [done|]. done.
    - rewrite join_app. simpl. rewrite app_nil_r.
      apply NoDup_app. split; [done|]. split; [|done].
      intros c Hc Hc'. apply list_elem_of_join in Hc as (component & Hcc & Hin).
      assert (Hg : inGrid width height c).
      { apply (connected_isSet cell c). by apply Hpoints. }
      assert (flagAt visited (cellIndex width c) = true).
      { apply (Hvis c Hg). by exists component. }
      rewrite (Hfresh c Hc') in *. done. }
  exists visited'.
  destruct (Z.leb_spec minRegionSize (Z.of_nat (length points))) as [Hbig|Hsmall].
  - exists (regions ++ [boxOf points]), [points].
    split; [|split].
    + apply Hinv'. rewrite filter_app, fmap_app, Hreg. f_equal.
      rewrite filter_cons_True by done. done.
    + rewrite filter_cons_True by done. rewrite filter_nil.
      rewrite boundingRegion_cases.
      destruct (decide (spreads argumentLimit points)) as [Hfit|Hfit]; simpl.
      * rewrite decide_True by (by apply Forall_singleton). done.
      * rewrite decide_False; [done|]. intros H%Forall_inv. contradiction.
    + intros _. exists points. split; [|done]. apply elem_of_app. right. left.
  - exists regions, [points]. split; [|split].
    + apply Hinv'. rewrite filter_app, fmap_app, Hreg.
      rewrite filter_cons_False by (unfold bigEnough; lia).
      by rewrite filter_nil, fmap_nil, app_nil_r.
    + rewrite filter_cons_False by (unfold bigEnough; lia). done.
    + intros _. exists points. split; [|done]. apply elem_of_app. right. left.
Qed.

(** Once an error is thrown the loops do nothing more. *)
Lemma labelCells_thrown error cells :
  foldl (labelCell argumentLimit mask width height) (Some (inl error)) cells
  = Some (inl error).
Proof. induction cells as [|cell cells IH]; [done|]. apply IH. Qed.

(** The loops over a list of cells. *)
Lemma labelCells_spec cells visited regions components :
  (∀ c, c ∈ cells → inGrid width height c) →
  labelInvariant mask width height visited regions components →
  ∃ visited' regions' extra,
    labelInvariant mask width height visited' regions' (components ++ extra)
    ∧ foldl (labelCell argumentLimit mask width height)
            (Some (inr (visited, regions))) cells
      = Some (if decide (Forall (spreads argumentLimit) (filter bigEnough extra))
              then inr (visited', regions') else inl stackOverflow)
    ∧ ∀ c, c ∈ cells → isSet mask width height c →
           ∃ component, component ∈ components ++ extra ∧ c ∈ component.
Proof.
  revert visited regions components.
  induction cells as [|cell cells IH]; intros visited regions components Hin Hinv.
  { exists visited, regions, []. rewrite app_nil_r. split; [done|].
    split; [done|]. by intros c ?%elem_of_nil. }
  cbn [foldl].
  destruct (labelCell_spec visited regions components cell)
    as (v1 & r1 & e1 & Hinv1 & -> & Hc1); [apply Hin; left|done|].
  destruct (IH v1 r1 (components ++ e1)) as (v2 & r2 & e2 & Hinv2 & Hrun & Hc2);
    [intros; apply Hin; by right|done|].
  exists v2, r2, (e1 ++ e2). rewrite app_assoc. split; [done|]. split.
  - rewrite filter_app.
    destruct (decide (Forall (spreads argumentLimit) (filter bigEnough e1)))
      as [Hfit|Hfit].
    + rewrite Hrun.
      destruct (decide (Forall (spreads argumentLimit) (filter bigEnough e2)))
        as [Hfit'|Hfit'].
      * rewrite decide_True by (by apply Forall_app). done.
      * rewrite decide_False; [done|]. intros [_ ?]%Forall_app. contradiction.
    + rewrite labelCells_thrown.
      rewrite decide_False; [done|]. intros [? _]%Forall_app. contradiction.
  - intros c [->|Hc]%elem_of_cons Hset; [|by apply Hc2].
    destruct (Hc1 Hset) as (component & ? & ?).
    exists component. split; [|done]. apply elem_of_app. by left.
Qed.

End Labelling.

Lemma rowMajor_elem width height c :
  c ∈ rowMajor width height ↔ inGrid width height c.
Proof.
  unfold rowMajor, inGrid. rewrite list_elem_of_bind. split.
  - intros (cy & H & Hy). apply list_elem_of_bind in H as (cx & H & Hx).
    apply list_elem_of_singleton in H. subst c.
    apply elem_of_seqZ in Hy, Hx. simpl. lia.
  - intros [Hx Hy]. exists c.2. split; [|apply elem_of_seqZ; lia].
    apply list_elem_of_bind. exists c.1. split; [|apply elem_of_seqZ; lia].
    apply list_elem_of_singleton. by destruct c.
Qed.

Lemma flagAt_replicate n i : flagAt (replicate n false) i = false.
Proof.
  unfold flagAt. destruct (i <? 0); [done|].
  destruct (replicate n false !! Z.to_nat i) eqn:E; [|done].
  by apply lookup_replicate in E as [-> _].
Qed.

Lemma foldl_min_spec a zs :
  foldl Z.min a zs ∈ a :: zs ∧ ∀ z, z ∈ a :: zs → foldl Z.min a zs ≤ z.
Proof.
  revert a. induction zs as [|z' zs IH]; intros a; simpl.
  { split; [left|]. intros z Hz. split_elems_in Hz. lia. }
  destruct (IH (Z.min a z')) as [Hin Hle]. split.
  - apply elem_of_cons in Hin as [Hin|Hin]; [|by do 2 right].
    rewrite Hin. destruct (Z.min_spec a z') as [[_ ->]|[_ ->]]; [left|right; left].
  - intros z Hz. split_elems_in Hz.
    pose proof (Hle (Z.min a z') ltac:(left)).
    destruct Hz as [->|[->|Hz]]; [lia|lia|]. apply Hle. by right.
Qed.

Lemma foldl_max_spec a zs :
  foldl Z.max a zs ∈ a :: zs ∧ ∀ z, z ∈ a :: zs → z ≤ foldl Z.max a zs.
Proof.
  revert a. induction zs as [|z' zs IH]; intros a; simpl.
  { split; [left|]. intros z Hz. split_elems_in Hz. lia. }
  destruct (IH (Z.max a z')) as [Hin Hle]. split.
  - apply elem_of_cons in Hin as [Hin|Hin]; [|by do 2 right].
    rewrite Hin. destruct (Z.max_spec a z') as [[_ ->]|[_ ->]]; [right; left|left].
  - intros z Hz. split_elems_in Hz.
    pose proof (Hle (Z.max a z') ltac:(left)).
    destruct Hz as [->|[->|Hz]]; [lia|lia|]. apply Hle. by right.
Qed.

Lemma least_spec zs :
  zs ≠ [] → least zs ∈ zs ∧ ∀ z, z ∈ zs → least zs ≤ z.
Proof. destruct zs as [|a zs]; [done|]. intros _. apply foldl_min_spec. Qed.

Lemma greatest_spec zs :
  zs ≠ [] → greatest zs ∈ zs ∧ ∀ z, z ∈ zs → z ≤ greatest zs.
Proof. destruct zs as [|a zs]; [done|]. intros _. apply foldl_max_spec. Qed.

(** The region built from a component is its bounding box. *)
Lemma boxOf_tight component :
  component ≠ [] → boundsTightly (boxOf component) component.
Proof.
  intros Hne. unfold boundsTightly, boxOf. simpl.
  assert (Hxs : fst <$> component ≠ []) by (by destruct component).
  assert (Hys : snd <$> component ≠ []) by (by destruct component).
  destruct (least_spec _ Hxs) as [Hminx Hlex].
  destruct (greatest_spec _ Hxs) as [Hmaxx Hgex].
  destruct (least_spec _ Hys) as [Hminy Hley].
  destruct (greatest_spec _ Hys) as [Hmaxy Hgey].
  split; [|split; [|split; [|split; [|split; [|done]]]]].
  - intros c Hc.
    pose proof (Hlex c.1 ltac:(by apply list_elem_of_fmap_2)).
    pose proof (Hgex c.1 ltac:(by apply list_elem_of_fmap_2)).
    pose proof (Hley c.2 ltac:(by apply list_elem_of_fmap_2)).
    pose proof (Hgey c.2 ltac:(by apply list_elem_of_fmap_2)).
    lia.
  - apply list_elem_of_fmap in Hminx as (c & E & Hc). by exists c.
  - apply list_elem_of_fmap in Hmaxx as (c & E & Hc). exists c. split; [done|lia].
  - apply list_elem_of_fmap in Hminy as (c & E & Hc). by exists c.
  - apply list_elem_of_fmap in Hmaxy as (c & E & Hc). exists c. split; [done|lia].
Qed.

Lemma isComponent_nonempty mask width height component :
  isComponent mask width height component → component ≠ [].
Proof.
  intros (start & Hset & Hiff) ->.
  assert (H : start ∈ []) by (apply Hiff; by constructor).
  by apply elem_of_nil in H.
Qed.


(** The labelling never runs out of fuel, and how it ends is decided by
    the components of the mask. *)
Lemma labelling_components argumentLimit mask width height :
  ∃ components,
    findConnectedComponents argumentLimit mask width height
    = Some (labelled argumentLimit width height components)
    ∧ Forall (isComponent mask width height) components
    ∧ NoDup (mjoin components)
    ∧ (∀ c, isSet mask width height c →
            ∃ component, component ∈ components ∧ c ∈ component).
Proof.
  unfold findConnectedComponents, labelled, arrayOfFalse.
  assert (Hinit : 0 ≤ width * height →
            labelInvariant mask width height
              (replicate (Z.to_nat (width * height)) false) [] []).
  { intros Hpos. split; [rewrite length_replicate; lia|].
    split; [|split; [constructor|split; [constructor|done]]].
    intros c _. rewrite flagAt_replicate. split; [done|].
    by intros (? & ?%elem_of_nil & _). }
  destruct (decide (0 ≤ width * height)) as [Hpos|Hneg].
  - destruct (labelCells_spec mask width height argumentLimit
                (rowMajor width height)
                (replicate (Z.to_nat (width * height)) false) [] [])
      as (visited' & regions' & components & Hinv & Hrun & Hall).
    { intros c. apply rowMajor_elem. }
    { by apply Hinit. }
    simpl in Hinv, Hall. destruct Hinv as (_ & _ & Hcomp & Hnd & ->).
    exists components. split; [|split; [done|split; [done|]]].
    + destruct (decide (arraySize (width * height))) as [Hsize|Hsize].
      * replace ((width * height <? 0) || (2 ^ 32 <=? width * height)) with false
          by (unfold arraySize in Hsize; symmetry; apply orb_false_intro; lia).
        rewrite Hrun. simpl.
        by destruct (decide (Forall (spreads argumentLimit)
                                    (filter bigEnough components))).
      * replace ((width * height <? 0) || (2 ^ 32 <=? width * height)) with true;
          [done|].
        unfold arraySize in Hsize. symmetry. apply orb_true_intro. lia.
    + intros c Hc. apply Hall; [|done]. apply rowMajor_elem, Hc.
  - exists []. rewrite decide_False by (unfold arraySize; lia).
    replace (width * height <? 0) with true by lia. simpl.
    split; [done|]. split; [constructor|]. split; [constructor|].
    intros c [[? ?] _]. nia.
Qed.


Lemma rowMajor_NoDup width height : NoDup (rowMajor width height).
Proof.
  unfold rowMajor. apply NoDup_bind; [| |apply NoDup_seqZ].
  - intros y1 y2 c _ _ H1 H2.
    apply list_elem_of_bind in H1 as (x1 & H1 & _).
    apply list_elem_of_bind in H2 as (x2 & H2 & _).
    apply list_elem_of_singleton in H1, H2. congruence.
  - intros y _. apply NoDup_bind; [| |apply NoDup_seqZ].
    + intros x1 x2 c _ _ H1 H2.
      apply list_elem_of_singleton in H1, H2. congruence.
    + intros. apply NoDup_singleton.
Qed.

Lemma connected_from_set mask width height start c :
  connected mask width height start c → isSet mask width height start.
Proof. induction 1; done. Qed.

Lemma component_closed mask width height component start c :
  isComponent mask width height component → start ∈ component →
  connected mask width height start c → c ∈ component.
Proof.
  intros (start' & _ & Hiff) Hstart. induction 1 as [|c c' _ IH Hadj Hset]; [done|].
  apply Hiff. eapply connected_step; [by apply Hiff|done|done].
Qed.

Lemma rowMajor_length width height :
  0 ≤ width → 0 ≤ height →
  Z.of_nat (length (rowMajor width height)) = width * height.
Proof.
  intros Hw Hh. unfold rowMajor.
  assert (H : ∀ ys : list Z,
            Z.of_nat (length (y ← ys; x ← seqZ 0 width; [(x, y)]))
            = width * Z.of_nat (length ys)).
  { induction ys as [|y ys IH]; [simpl; lia|].
    rewrite bind_cons, length_app, Nat2Z.inj_add, IH.
    assert (length (x ← seqZ 0 width; [(x, y)]) = length (seqZ 0 width)) as ->.
    { clear IH. induction (seqZ 0 width) as [|x xs IHx]; [done|].
      rewrite bind_cons, length_app, IHx. done. }
    rewrite length_seqZ. cbn [length]. lia. }
  rewrite H, length_seqZ. lia.
Qed.

Lemma full_mask_isSet width height c :
  inGrid width height c → isSet (fullMask width height) width height c.
Proof.
  intros Hc. split; [done|].
  pose proof (cellIndex_range _ _ _ Hc) as Hr.
  unfold flagAt, fullMask. replace (cellIndex width c <? 0) with false by lia.
  rewrite lookup_replicate_2; [done|lia].
Qed.

(** In a full mask every cell is reached from the corner: along the
    first row, then down the column. *)
Lemma full_mask_connected width height c :
  inGrid width height c →
  connected (fullMask width height) width height (0, 0) c.
Proof.
  intros [Hx Hy].
  assert (Hrow : ∀ n : nat,
            Z.of_nat n < width →
            connected (fullMask width height) width height (0, 0) (Z.of_nat n, 0)).
  { induction n as [|n IH]; intros Hn.
    - apply connected_start, full_mask_isSet. split; simpl; lia.
    - apply (connected_step _ _ _ _ (Z.of_nat n, 0)); [apply IH; lia| |].
      + split; [intros [= ?]; lia|]. simpl. lia.
      + apply full_mask_isSet. split; simpl; lia. }
  assert (Hcol : ∀ m : nat,
            Z.of_nat m < height →
            connected (fullMask width height) width height (0, 0)
                      (c.1, Z.of_nat m)).
  { induction m as [|m IH]; intros Hm.
    - replace c.1 with (Z.of_nat (Z.to_nat c.1)) by lia. apply Hrow. lia.
    - apply (connected_step _ _ _ _ (c.1, Z.of_nat m)); [apply IH; lia| |].
      + split; [intros [= ?]; lia|]. simpl. lia.
      + apply full_mask_isSet. split; simpl; lia. }
  replace c with (c.1, Z.of_nat (Z.to_nat c.2)).
  - apply Hcol. lia.
  - destruct c as [cx cy]. simpl in *. f_equal. lia.
Qed.

(** A connected group of at least 50 cells that cannot be spread makes
    the labelling throw. *)
Lemma labelling_overflows argumentLimit mask width height start cells :
  arraySize (width * height) →
  NoDup cells →
  (∀ c, c ∈ cells → connected mask width height start c) →
  minRegionSize ≤ Z.of_nat (length cells) →
  argumentLimit < Z.of_nat (length cells) →
  findConnectedComponents argumentLimit mask width height
  = Some (inl stackOverflow).
Proof.
  intros Hsize Hnd Hcon Hbig Hlong.
  destruct (labelling_components argumentLimit mask width height)
    as (components & -> & Hcomp & _ & Hcover).
  unfold labelled. rewrite decide_True by done.
  rewrite decide_False; [done|]. intros Hfit.
  rewrite Forall_forall in Hcomp, Hfit.
  destruct cells as [|c0 cells'] eqn:Ecells; [unfold minRegionSize in Hbig; simpl in Hbig; lia|].
  rewrite <- Ecells in *.
  assert (Hc0 : c0 ∈ cells) by (rewrite Ecells; left).
  pose proof (connected_from_set _ _ _ _ _ (Hcon c0 Hc0)) as Hstart.
  destruct (Hcover start Hstart) as (component & Hin & Hsc).
  assert (Hsub : ∀ c', c' ∈ cells → c' ∈ component).
  { intros c' Hc'. eapply component_closed; [by apply Hcomp|done|by apply Hcon]. }
  assert (Hlen : (length cells ≤ length component)%nat).
  { apply submseteq_length, NoDup_submseteq; done. }
  assert (Hfits : spreads argumentLimit component).
  { apply Hfit, list_elem_of_filter. split; [unfold bigEnough; lia|done]. }
  unfold spreads in Hfits. lia.
Qed.

(** C5. Where the labelling fails.  For a mask of a size an array can
    hold: whenever the mask has a connected group of at least 50 [true]
    cells with more cells than the runtime's argument limit, the call
    throws the [RangeError] of [Math.min(...xs)] and returns no region at
    all, where the specification has it emit the group's bounding box.
    The mask with every cell [true] is such a mask as soon as it has at
    least 50 cells and more than the limit: 400 by 400 under a limit of
    125000. *)
Theorem large_component_throws argumentLimit width height :
  arraySize (width * height) →
  (∀ mask start cells,
     NoDup cells →
     (∀ c, c ∈ cells → connected mask width height start c) →
     minRegionSize ≤ Z.of_nat (length cells) →
     argumentLimit < Z.of_nat (length cells) →
     findConnectedComponents argumentLimit mask width height
     = Some (inl stackOverflow))
  ∧ (0 < width → 0 < height →
     minRegionSize ≤ width * height → argumentLimit < width * height →
     findConnectedComponents argumentLimit (fullMask width height) width height
     = Some (inl stackOverflow)).
Proof.
  intros Hsize. split.
  - intros mask start cells. by apply labelling_overflows.
  - intros Hw Hh Hbig Hlong.
    apply (labelling_overflows _ _ _ _ (0, 0) (rowMajor width height)).
    + done.
    + apply rowMajor_NoDup.
    + intros c Hc. by apply full_mask_connected, rowMajor_elem.
    + rewrite rowMajor_length; lia.
    + rewrite rowMajor_length; lia.
Qed.

Lemma large_component_throws_witness :
  arraySize (400 * 400)
  ∧ findConnectedComponents 125000 (fullMask 400 400) 400 400
    = Some (inl stackOverflow).
Proof.
  assert (Hsize : arraySize (400 * 400)) by (unfold arraySize; lia).
  split; [exact Hsize|].
  apply (proj2 (large_component_throws 125000 400 400 Hsize));
    unfold minRegionSize; lia.
Defined.

(** The specification's two sample masks. *)
Example block_gives_one_region :
  findConnectedComponents 125000 blockMask 12 12
  = Some (inr [ {| x := 1; y := 1; width := 10; height := 10;
                   info := pixelCount 100 |} ]).
Proof. vm_compute. reflexivity. Qed.

Example diagonal_gives_no_region :
  findConnectedComponents 125000 diagonalMask 12 12 = Some (inr []).
Proof. vm_compute. reflexivity. Qed.

(** The specification's sample run: a 4 by 4 all-blue image against
    blue with threshold 10 becomes fully transparent. *)
Example all_blue_removed :
  bitmap_data
    (classifyMultiPass [ {| color := blue; pass_threshold := 10 |} ]
       {| bitmap_width := 4; bitmap_height := 4;
          bitmap_data := mjoin (replicate 16 [0; 0; 255; 255]) |})
  = mjoin (replicate 16 [0; 0; 255; 0]).
Proof. vm_compute. reflexivity. Qed.

(* ================================================================= *)
(** * Further properties *)

(* ================================================================= *)
(** ** Multi-pass classification, pixel by pixel *)

Lemma multiPassPixel_local pass data data' idx :
  (∀ k, 0 ≤ k < 4 → byteAt data (idx + k) = byteAt data' (idx + k)) →
  byteAt (multiPassPixel pass data idx) (idx + 3)
  = byteAt (multiPassPixel pass data' idx) (idx + 3).
Proof.
  intros H. unfold multiPassPixel.
  rewrite <- (H 0), <- (H 1), <- (H 2), <- (H 3) by lia.
  destruct (byteAt data (idx + 0)); [|apply (H 3); lia].
  destruct (byteAt data (idx + 1)); [|apply (H 3); lia].
  destruct (byteAt data (idx + 2)); [|apply (H 3); lia].
  destruct (byteAt data (idx + 3)) as [a0|] eqn:Ha; [|rewrite <- (H 3), Ha by lia; done].
  assert (Ha' : byteAt data' (idx + 3) = Some a0) by (rewrite <- (H 3) by lia; done).
  destruct (a0 =? 0); [congruence|].
  destruct (Qle_bool _ _); [|congruence].
  rewrite !byteAt_setByte_eq; [done|by rewrite Ha'|by rewrite Ha].
Qed.

Lemma multiPassPixel_elsewhere pass data idx i :
  i ≠ idx + 3 → byteAt (multiPassPixel pass data idx) i = byteAt data i.
Proof. intros Hi. apply multiPassPixel_keeps. by left. Qed.

(** One pass, pixel by pixel. *)
Lemma multiPass_scan_pixel pass image x y c a :
  0 ≤ x < bitmap_width image → 0 ≤ y < bitmap_height image →
  pixelAt image x y = Some (c, a) →
  pixelAt (scan (multiPassPixel pass) image) x y
  = Some (c, multiPassAlpha [pass] c a).
Proof.
  intros Hx Hy Hp.
  destruct (pixelAt_bytes _ _ _ _ _ Hp) as (Hr & Hg & Hb & Ha).
  destruct (scan_pixel (multiPassPixel pass)
              (multiPassPixel_elsewhere pass)
              (multiPassPixel_local pass) image x y Hx Hy)
    as [Halpha Hcol].
  unfold pixelAt.
  change (bitmap_width (scan _ image)) with (bitmap_width image).
  rewrite <- (Z.add_0_r (pixelOffset _ x y)) at 1.
  rewrite (Hcol 0), (Hcol 1), (Hcol 2), Halpha by lia.
  rewrite Z.add_0_r, Hr, Hg, Hb. simpl.
  unfold multiPassPixel. rewrite Z.add_0_r, Hr, Hg, Hb, Ha.
  unfold multiPassAlpha, passMatches. simpl. rewrite orb_false_r.
  destruct c as [r0 g0 b0]. simpl.
  destruct (Z.eqb_spec a 0) as [->|Hne]; simpl; [by rewrite Ha|].
  destruct (Qle_bool _ _).
  - rewrite byteAt_setByte_eq by (by rewrite Ha). done.
  - by rewrite Ha.
Qed.

Lemma multiPassAlpha_cons pass passes c a :
  multiPassAlpha (pass :: passes) c a
  = multiPassAlpha passes c (multiPassAlpha [pass] c a).
Proof.
  unfold multiPassAlpha. simpl. rewrite orb_false_r.
  destruct (Z.eqb_spec a 0) as [->|Hne]; simpl; [done|].
  destruct (passMatches c pass); simpl; [done|].
  by rewrite (proj2 (Z.eqb_neq a 0) Hne).
Qed.

Lemma classifyMultiPass_pixel passes image x y c a :
  0 ≤ x < bitmap_width image → 0 ≤ y < bitmap_height image →
  pixelAt image x y = Some (c, a) →
  pixelAt (classifyMultiPass passes image) x y
  = Some (c, multiPassAlpha passes c a).
Proof.
  revert image a. induction passes as [|pass passes IH]; intros image a Hx Hy Hp.
  { unfold multiPassAlpha. simpl. rewrite orb_false_r.
    destruct (Z.eqb_spec a 0) as [->|]; done. }
  rewrite multiPassAlpha_cons. unfold classifyMultiPass. cbn [foldl].
  apply (IH (scan (multiPassPixel pass) image)); [done|done|].
  by apply multiPass_scan_pixel.
Qed.

Lemma length_multiPassPixel pass data idx :
  length (multiPassPixel pass data idx) = length data.
Proof.
  unfold multiPassPixel.
  destruct (byteAt data (idx + 0)); [|done].
  destruct (byteAt data (idx + 1)); [|done].
  destruct (byteAt data (idx + 2)); [|done].
  destruct (byteAt data (idx + 3)); [|done].
  destruct (_ =? 0); [done|].
  destruct (Qle_bool _ _); [apply length_setByte|done].
Qed.

Lemma length_foldl {A} (f : list Z → A → list Z) (l : list A) data :
  (∀ data a, length (f data a) = length data) →
  length (foldl f data l) = length data.
Proof.
  intros Hf. revert data. induction l as [|a l IH]; intros data; [done|].
  simpl. by rewrite IH, Hf.
Qed.

Lemma classifyMultiPass_shape passes image :
  bitmap_width (classifyMultiPass passes image) = bitmap_width image
  ∧ bitmap_height (classifyMultiPass passes image) = bitmap_height image
  ∧ length (bitmap_data (classifyMultiPass passes image))
    = length (bitmap_data image).
Proof.
  revert image. induction passes as [|pass passes IH]; intros image; [done|].
  unfold classifyMultiPass in *. cbn [foldl].
  destruct (IH (scan (multiPassPixel pass) image)) as (-> & -> & ->).
  split; [done|]. split; [done|]. unfold scan. simpl.
  apply length_foldl. apply length_multiPassPixel.
Qed.

(** Two bitmaps of the same shape whose pixels agree are equal. *)
Lemma bitmap_ext image1 image2 :
  0 ≤ bitmap_width image1 → 0 ≤ bitmap_height image1 →
  Z.of_nat (length (bitmap_data image1))
  = 4 * (bitmap_width image1 * bitmap_height image1) →
  bitmap_width image2 = bitmap_width image1 →
  bitmap_height image2 = bitmap_height image1 →
  length (bitmap_data image2) = length (bitmap_data image1) →
  (∀ x y, 0 ≤ x < bitmap_width image1 → 0 ≤ y < bitmap_height image1 →
          pixelAt image2 x y = pixelAt image1 x y) →
  image2 = image1.
Proof.
  destruct image1 as [w h d1], image2 as [w2 h2 d2]. simpl.
  intros Hw Hh Hlen -> -> Hlen2 Hpix. f_equal.
  apply byteAt_ext. intros j.
  destruct (Z.lt_ge_cases j 0) as [Hneg|Hj].
  { unfold byteAt. by rewrite (proj2 (Z.ltb_lt j 0)) by lia. }
  destruct (Z.lt_ge_cases j (4 * (w * h))) as [Hin|Hout].
  2: { unfold byteAt. rewrite (proj2 (Z.ltb_ge j 0)) by lia.
       rewrite !(proj2 (lookup_ge_None _ _)) by lia. done. }
  assert (Hwpos : 0 < w) by nia.
  set (p := j / 4). set (k := j mod 4).
  assert (Hk : 0 ≤ k < 4) by (apply Z.mod_pos_bound; lia).
  assert (Hj4 : j = 4 * p + k) by (apply Z.div_mod; lia).
  assert (Hp : 0 ≤ p < w * h) by (unfold p; split;
    [apply Z.div_pos; lia|apply Z.div_lt_upper_bound; lia]).
  set (x := p mod w). set (y := p / w).
  assert (Hx : 0 ≤ x < w) by (apply Z.mod_pos_bound; lia).
  assert (Hpxy : p = w * y + x) by (apply Z.div_mod; lia).
  assert (Hy : 0 ≤ y < h).
  { unfold y. split; [apply Z.div_pos; lia|apply Z.div_lt_upper_bound; lia]. }
  specialize (Hpix x y Hx Hy).
  set (im1 := {| bitmap_width := w; bitmap_height := h; bitmap_data := d1 |}) in *.
  set (im2 := {| bitmap_width := w; bitmap_height := h; bitmap_data := d2 |}) in *.
  assert (Hsome : ∀ d, length d = length d1 → ∀ k', 0 ≤ k' < 4 →
            is_Some (byteAt d (pixelOffset w x y + k'))).
  { intros d Hd k' Hk'. unfold byteAt, pixelOffset.
    destruct (Z.ltb_spec (4 * (w * y + x) + k') 0); [lia|].
    apply lookup_lt_is_Some. lia. }
  destruct (Hsome d1 eq_refl 0) as [r1 Hr1]; [lia|]. rewrite Z.add_0_r in Hr1.
  destruct (Hsome d1 eq_refl 1) as [g1 Hg1]; [lia|].
  destruct (Hsome d1 eq_refl 2) as [b1 Hb1]; [lia|].
  destruct (Hsome d1 eq_refl 3) as [a1 Ha1]; [lia|].
  destruct (Hsome d2 Hlen2 0) as [r2 Hr2]; [lia|]. rewrite Z.add_0_r in Hr2.
  destruct (Hsome d2 Hlen2 1) as [g2 Hg2]; [lia|].
  destruct (Hsome d2 Hlen2 2) as [b2 Hb2]; [lia|].
  destruct (Hsome d2 Hlen2 3) as [a2 Ha2]; [lia|].
  unfold pixelAt in Hpix. simpl in Hpix.
  rewrite Hr1, Hg1, Hb1, Ha1, Hr2, Hg2, Hb2, Ha2 in Hpix. simpl in Hpix.
  simplify_eq.
  replace j with (pixelOffset w x y + k) by (unfold pixelOffset; lia).
  assert (k = 0 ∨ k = 1 ∨ k = 2 ∨ k = 3) as [-> | [-> | [-> | ->]]] by lia;
    rewrite ?Z.add_0_r; congruence.
Qed.

Lemma multiPassAlpha_elems passes passes' c a :
  (∀ pass, pass ∈ passes ↔ pass ∈ passes') →
  multiPassAlpha passes c a = multiPassAlpha passes' c a.
Proof.
  intros Hsame. unfold multiPassAlpha.
  assert (existsb (passMatches c) passes = existsb (passMatches c) passes') as ->;
    [|done].
  apply eq_true_iff_eq. rewrite !existsb_exists. split.
  - intros (pass & Hin & Hm). exists pass. split; [|done].
    apply list_elem_of_In, Hsame, list_elem_of_In, Hin.
  - intros (pass & Hin & Hm). exists pass. split; [|done].
    apply list_elem_of_In, Hsame, list_elem_of_In, Hin.
Qed.

Lemma passMatches_root c pass :
  validColor c → validColor (color pass) →
  passMatches c pass
  = rootWithin (squaredDistance c (color pass)) (pass_threshold pass).
Proof.
  intros Hc Hp. unfold passMatches. rewrite calculateColorDistance_root.
  apply Qle_bool_js_sqrt. by apply squaredDistance_range.
Qed.

(** The result depends on the passes only through the set they form. *)
Lemma classifyMultiPass_elems passes passes' image :
  wellFormed image →
  (∀ pass, pass ∈ passes ↔ pass ∈ passes') →
  classifyMultiPass passes' image = classifyMultiPass passes image.
Proof.
  intros Hwf Hsame.
  destruct (classifyMultiPass_shape passes image) as (Hw & Hh & Hl).
  destruct (classifyMultiPass_shape passes' image) as (Hw' & Hh' & Hl').
  destruct (Hwf) as (H0w & H0h & Hlen & Hb).
  apply bitmap_ext; rewrite ?Hw, ?Hh, ?Hl; try done; try congruence.
  intros x y Hx Hy.
  destruct (wellFormed_pixel image x y) as (c & a & Hp & _); [done|done|done|].
  rewrite (classifyMultiPass_pixel passes' image x y c a) by done.
  rewrite (classifyMultiPass_pixel passes image x y c a) by done.
  f_equal. f_equal. symmetry. by apply multiPassAlpha_elems.
Qed.

(** X3.  Multi-pass classification, pixel by pixel.  A pixel of a decoded
    image keeps its colour; its alpha becomes 0 when it was 0 or its
    distance to the colour of some pass is within that pass's threshold,
    and is unchanged otherwise.  So the result depends only on which
    passes are in the list: their order and repetitions do not matter. *)
Theorem multi_pass_is_union passes image :
  wellFormed image →
  (∀ x y c a,
      0 ≤ x < bitmap_width image → 0 ≤ y < bitmap_height image →
      pixelAt image x y = Some (c, a) →
      pixelAt (classifyMultiPass passes image) x y
      = Some (c, multiPassAlpha passes c a))
  ∧ (∀ c pass,
      validColor c → validColor (color pass) →
      passMatches c pass
      = rootWithin (squaredDistance c (color pass)) (pass_threshold pass))
  ∧ ∀ passes',
      (∀ pass, pass ∈ passes ↔ pass ∈ passes') →
      classifyMultiPass passes' image = classifyMultiPass passes image.
Proof.
  intros Hwf. split; [intros; by apply classifyMultiPass_pixel|].
  split; [intros; by apply passMatches_root|].
  intros passes' Hsame. by apply classifyMultiPass_elems.
Qed.

Lemma classifySinglePass_as_pass this target image :
  feather this = 0 →
  classifySinglePass this target image
  = classifyMultiPass [ {| color := target; pass_threshold := threshold this |} ] image.
Proof.
  intros Hf. unfold classifySinglePass, classifyMultiPass, scan. simpl.
  f_equal. apply foldl_pointwise. intros. by apply singlePassPixel_no_feather.
Qed.

Lemma classifyMultiPass_app before after image :
  classifyMultiPass (before ++ after) image
  = classifyMultiPass after (classifyMultiPass before image).
Proof. unfold classifyMultiPass. apply foldl_app. Qed.

(** X4.  With [feather = 0], running the single-pass classification on its
    own output changes nothing. *)
Theorem single_pass_idempotent this target image :
  wellFormed image → feather this = 0 →
  classifySinglePass this target (classifySinglePass this target image)
  = classifySinglePass this target image.
Proof.
  intros Hwf Hf. rewrite !classifySinglePass_as_pass by done.
  set (pass := {| color := target; pass_threshold := threshold this |}).
  rewrite <- (classifyMultiPass_app [pass] [pass] image).
  apply classifyMultiPass_elems; [done|].
  intros p. rewrite elem_of_app. tauto.
Qed.

(* ================================================================= *)
(** ** The composite, pixel by pixel *)

Lemma inPaddedBox_pixels originalImage padding region px py :
  0 ≤ px < bitmap_width originalImage → 0 ≤ py < bitmap_height originalImage →
  inPaddedBox padding region px py = true
  ↔ (px, py) ∈ regionPixels originalImage padding region.
Proof.
  intros Hx Hy. rewrite regionPixels_elem. unfold inPaddedBox.
  rewrite !andb_true_iff, !Z.leb_le, !Z.ltb_lt. tauto.
Qed.

(** The offsets the loops write are the four bytes of the pixels they
    visit. *)
Lemma allWrites_offsets originalImage combinedMask padding regions px py k :
  bitmap_width combinedMask = bitmap_width originalImage →
  bitmap_height combinedMask = bitmap_height originalImage →
  0 ≤ px < bitmap_width originalImage → 0 ≤ py < bitmap_height originalImage →
  0 ≤ k < 4 →
  pixelOffset (bitmap_width originalImage) px py + k
    ∈ (allWrites originalImage combinedMask padding regions).*1
  ↔ existsb (λ region, inPaddedBox padding region px py) regions = true.
Proof.
  intros Ew Eh Hx Hy Hk. rewrite existsb_exists. split.
  - intros Hin. apply list_elem_of_fmap in Hin as ([i v] & Ei & Hin).
    simpl in Ei. subst i. unfold allWrites in Hin.
    apply list_elem_of_bind in Hin as (region & Hin & Hreg).
    exists region. split; [by apply list_elem_of_In|].
    unfold regionWrites in Hin.
    apply list_elem_of_bind in Hin as ([qx qy] & Hin & Hq).
    pose proof Hq as Hq'. apply regionPixels_elem in Hq' as ((Hqx & Hqy) & _).
    unfold pixelWrites in Hin.
    rewrite getPixelIndex_inside in Hin by (rewrite ?Ew, ?Eh; done).
    rewrite Ew in Hin. unfold pixelOffset in Hin.
    assert (E : 4 * (bitmap_width originalImage * py + px) + k
                - 4 * (bitmap_width originalImage * qy + qx) ∈ [0; 1; 2; 3]).
    { unfold pixelOffset in *.
      repeat (apply elem_of_cons in Hin as [Hin|Hin];
              [simplify_eq; rewrite !elem_of_cons; lia|]).
      by apply elem_of_nil in Hin. }
    assert (Hsame : bitmap_width originalImage * py + px
                    = bitmap_width originalImage * qy + qx).
    { rewrite !elem_of_cons, elem_of_nil in E. lia. }
    assert (py = qy) by nia. subst qy. assert (px = qx) by lia. subst qx.
    by apply (inPaddedBox_pixels originalImage).
  - intros (region & Hreg & Hbox). apply list_elem_of_In in Hreg.
    apply (inPaddedBox_pixels originalImage) in Hbox; [|done|done].
    apply list_elem_of_fmap.
    assert (∃ v, (pixelOffset (bitmap_width originalImage) px py + k, v)
                 ∈ pixelWrites originalImage combinedMask px py) as [v Hv].
    { unfold pixelWrites.
      rewrite getPixelIndex_inside by (rewrite ?Ew, ?Eh; done). rewrite Ew.
      assert (k = 0 ∨ k = 1 ∨ k = 2 ∨ k = 3) as [-> | [-> | [-> | ->]]] by lia;
        eexists; rewrite !elem_of_cons; eauto 6. }
    exists (pixelOffset (bitmap_width originalImage) px py + k, v).
    split; [done|]. unfold allWrites. apply list_elem_of_bind.
    exists region. split; [|done]. unfold regionWrites.
    apply list_elem_of_bind. exists (px, py). split; [exact Hv|exact Hbox].
Qed.

Lemma pixelOffset_slot width px py k :
  0 ≤ k < 4 → (pixelOffset width px py + k) mod 4 = k.
Proof.
  intros Hk. unfold pixelOffset.
  rewrite Z.add_comm, Z.mul_comm, Z_mod_plus_full. apply Z.mod_small. lia.
Qed.

(** Every pixel of the composite. *)
Lemma compositeRegions_pixel originalImage combinedMask padding regions px py :
  wellFormed originalImage → wellFormed combinedMask →
  bitmap_width combinedMask = bitmap_width originalImage →
  bitmap_height combinedMask = bitmap_height originalImage →
  0 ≤ px < bitmap_width originalImage → 0 ≤ py < bitmap_height originalImage →
  pixelAt (compositeRegions originalImage padding regions combinedMask) px py
  = if existsb (λ region, inPaddedBox padding region px py) regions
    then (λ p, (p.1, 255)) <$> pixelAt originalImage px py
    else pixelAt combinedMask px py.
Proof.
  intros Hwo Hwm Ew Eh Hx Hy.
  rewrite compositeRegions_writes. unfold pixelAt at 1. simpl. rewrite Ew.
  set (off := pixelOffset (bitmap_width originalImage) px py).
  set (writes := allWrites originalImage combinedMask padding regions).
  assert (Hlook : ∀ k, 0 ≤ k < 4 →
    byteAt (applyWrites (bitmap_data combinedMask) writes) (off + k)
    = if existsb (λ region, inPaddedBox padding region px py) regions
      then (λ _, writtenValue originalImage combinedMask (off + k))
             <$> byteAt (bitmap_data combinedMask) (off + k)
      else byteAt (bitmap_data combinedMask) (off + k)).
  { intros k Hk.
    rewrite (applyWrites_lookup (writtenValue originalImage combinedMask))
      by (intros i v; apply allWrites_value).
    pose proof (allWrites_offsets originalImage combinedMask padding regions
                  px py k Ew Eh Hx Hy Hk) as Hiff. fold off writes in Hiff.
    destruct (decide (off + k ∈ writes.*1)) as [Hin|Hnin].
    - by rewrite (proj1 Hiff Hin).
    - destruct (existsb _ regions); [|done]. exfalso. by apply Hnin, Hiff. }
  destruct (wellFormed_pixel originalImage px py Hwo Hx Hy)
    as (co & ao & Hpo & (Hro & Hgo & Hbo) & _).
  destruct (wellFormed_pixel combinedMask px py Hwm)
    as (cm & am & Hpm & _); [rewrite Ew; done|rewrite Eh; done|].
  destruct (pixelAt_bytes _ _ _ _ _ Hpo) as (Ro & Go & Bo & Ao).
  destruct (pixelAt_bytes _ _ _ _ _ Hpm) as (Rm & Gm & Bm & Am).
  rewrite Ew in Rm, Gm, Bm, Am. fold off in Ro, Go, Bo, Ao, Rm, Gm, Bm, Am.
  rewrite <- (Z.add_0_r off) at 1.
  rewrite (Hlook 0), (Hlook 1), (Hlook 2), (Hlook 3) by lia.
  rewrite Z.add_0_r, Rm, Gm, Bm, Am, Hpo, Hpm.
  destruct (existsb _ regions); simpl; [|by destruct cm].
  assert (Hpos : (0 <? bitmap_width combinedMask) && (0 <? bitmap_height combinedMask)
                 = true).
  { apply andb_true_intro. rewrite !Z.ltb_lt. lia. }
  assert (Hval : ∀ k v, 0 ≤ k < 3 → isByte v →
            byteAt (bitmap_data originalImage) (off + k) = Some v →
            writtenValue originalImage combinedMask (off + k) = v).
  { intros k v Hk Hv Hbyte. unfold writtenValue. rewrite Hpos, Hbyte.
    unfold off. rewrite pixelOffset_slot by lia.
    rewrite (proj2 (Z.eqb_neq k 3)) by lia. simpl.
    unfold toUint8. apply Z.mod_small. unfold isByte in Hv. lia. }
  rewrite <- (Z.add_0_r off) at 1.
  rewrite (Hval 0 (r co)), (Hval 1 (g co)), (Hval 2 (b co));
    try lia; try done; [|by rewrite Z.add_0_r].
  assert (writtenValue originalImage combinedMask (off + 3) = 255) as ->.
  { unfold writtenValue. rewrite Hpos. unfold off.
    rewrite pixelOffset_slot by lia. done. }
  by destruct co.
Qed.

(** X6.  The compositing loops, pixel by pixel, for a cut-out of the
    original's size: a pixel inside the padded box of some region gets the
    original image's colour and alpha 255, every other pixel stays as the
    cut-out has it. *)
Theorem composite_pixel_rule originalImage combinedMask padding regions px py :
  wellFormed originalImage → wellFormed combinedMask →
  bitmap_width combinedMask = bitmap_width originalImage →
  bitmap_height combinedMask = bitmap_height originalImage →
  0 ≤ px < bitmap_width originalImage → 0 ≤ py < bitmap_height originalImage →
  pixelAt (compositeRegions originalImage padding regions combinedMask) px py
  = if existsb (λ region, inPaddedBox padding region px py) regions
    then (λ p, (p.1, 255)) <$> pixelAt originalImage px py
    else pixelAt combinedMask px py.
Proof. apply compositeRegions_pixel. Qed.

(* ================================================================= *)
(** ** Where the labelled regions lie *)

Lemma setCells_elem mask width height c :
  c ∈ setCells mask width height ↔ isSet mask width height c.
Proof.
  unfold setCells, isSet. rewrite list_elem_of_filter, rowMajor_elem. tauto.
Qed.

Lemma component_cells mask width height component c :
  isComponent mask width height component → c ∈ component →
  isSet mask width height c.
Proof.
  intros (start & _ & Hiff) Hc.
  apply (connected_isSet mask width height start). by apply Hiff.
Qed.

Lemma NoDup_join_elem {A} (ls : list (list A)) (l : list A) :
  NoDup (mjoin ls) → l ∈ ls → NoDup l.
Proof.
  intros Hnd Hin. apply list_elem_of_split in Hin as (l1 & l2 & ->).
  rewrite join_app in Hnd. simpl in Hnd.
  apply NoDup_app in Hnd as (_ & _ & Hnd).
  by apply NoDup_app in Hnd as (Hnd & _).
Qed.

(** Cells inside a box are no more than the box holds. *)
Lemma box_cells_bound x0 y0 w h (cells : list (Z * Z)) :
  cells ≠ [] → NoDup cells →
  (∀ c, c ∈ cells → x0 ≤ c.1 < x0 + w ∧ y0 ≤ c.2 < y0 + h) →
  Z.of_nat (length cells) ≤ w * h.
Proof.
  intros Hne Hnd Hin.
  assert (∃ c0, c0 ∈ cells) as [c0 Hc0].
  { destruct cells as [|c0 ?]; [done|]. exists c0. left. }
  pose proof (Hin c0 Hc0) as [? ?].
  set (shift := λ c : Z * Z, (c.1 - x0, c.2 - y0)).
  assert (Hnd' : NoDup (shift <$> cells)).
  { apply NoDup_fmap_2_strong; [|done].
    intros [a1 b1] [a2 b2] _ _. unfold shift. simpl. intros ?. simplify_eq.
    f_equal; lia. }
  pose proof (grid_cells_bound w h (shift <$> cells) Hnd') as Hb.
  rewrite length_fmap in Hb.
  assert (length cells ≤ Z.to_nat (w * h))%nat.
  { apply Hb. intros c Hc. apply list_elem_of_fmap in Hc as (c' & -> & Hc').
    destruct (Hin c' Hc'). unfold inGrid, shift. simpl. lia. }
  nia.
Qed.

Lemma boxOf_inside mask width height component :
  isComponent mask width height component → NoDup component →
  bigEnough component →
  regionInside width height (boxOf component).
Proof.
  intros Hcomp Hnd Hbig.
  pose proof (isComponent_nonempty _ _ _ _ Hcomp) as Hne.
  destruct (boxOf_tight component Hne)
    as (Hall & (cx & Hcx & Ex) & (cX & HcX & EX) & (cy & Hcy & Ey)
        & (cY & HcY & EY) & Hinfo).
  set (region := boxOf component) in *.
  pose proof (component_cells _ _ _ _ _ Hcomp Hcx) as [[? ?] _].
  pose proof (component_cells _ _ _ _ _ Hcomp HcX) as [[? ?] _].
  pose proof (component_cells _ _ _ _ _ Hcomp Hcy) as [[? ?] _].
  pose proof (component_cells _ _ _ _ _ Hcomp HcY) as [[? ?] _].
  pose proof (Hall cx Hcx). pose proof (Hall cy Hcy).
  unfold regionInside. repeat (split; [lia|]).
  exists (Z.of_nat (length component)). split; [done|].
  split; [exact Hbig|]. by apply (box_cells_bound (x region) (y region)).
Qed.

Lemma length_join_filter {A} (P : list A → Prop) `{∀ l, Decision (P l)}
    (ls : list (list A)) :
  (length (mjoin (filter P ls)) ≤ length (mjoin ls))%nat.
Proof.
  induction ls as [|l ls IH]; [done|].
  destruct (decide (P l)).
  - rewrite filter_cons_True by done. simpl. rewrite !length_app. lia.
  - rewrite filter_cons_False by done. simpl. rewrite length_app. lia.
Qed.

Lemma length_join_big (ls : list (list (Z * Z))) :
  Forall bigEnough ls →
  minRegionSize * Z.of_nat (length ls) ≤ Z.of_nat (length (mjoin ls)).
Proof.
  induction 1 as [|l ls Hl _ IH]; [simpl; lia|].
  simpl. rewrite length_app. unfold bigEnough in Hl. lia.
Qed.

Lemma length_join_elem {A} (ls : list (list A)) (l : list A) :
  l ∈ ls → (length l ≤ length (mjoin ls))%nat.
Proof.
  intros Hin. apply list_elem_of_split in Hin as (l1 & l2 & ->).
  rewrite join_app. simpl. rewrite !length_app. lia.
Qed.

(** The cells of the components are [true] cells, each counted once. *)
Lemma components_cells_bound mask width height components :
  Forall (isComponent mask width height) components →
  NoDup (mjoin components) →
  (length (mjoin components) ≤ length (setCells mask width height))%nat.
Proof.
  intros Hcomp Hnd. rewrite Forall_forall in Hcomp.
  apply submseteq_length, NoDup_submseteq; [done|].
  intros c Hc. apply list_elem_of_join in Hc as (component & Hc & Hin).
  apply setCells_elem. eapply component_cells; [by apply Hcomp|done].
Qed.

(** How the labelling ends, by the size of the mask and the number of
    its [true] cells. *)
Lemma labelling_regions_bound argumentLimit mask width height :
  ∃ outcome,
    findConnectedComponents argumentLimit mask width height = Some outcome
    ∧ (¬ arraySize (width * height) → outcome = inl invalidArrayLength)
    ∧ (arraySize (width * height) →
       (∀ error, outcome = inl error →
          error = stackOverflow
          ∧ minRegionSize ≤ Z.of_nat (length (setCells mask width height))
          ∧ argumentLimit < Z.of_nat (length (setCells mask width height)))
       ∧ (∀ regions, outcome = inr regions →
            Forall (regionInside width height) regions
            ∧ minRegionSize * Z.of_nat (length regions)
              ≤ Z.of_nat (length (setCells mask width height)))
       ∧ (Z.of_nat (length (setCells mask width height)) < minRegionSize →
          outcome = inr [])).
Proof.
  destruct (labelling_components argumentLimit mask width height)
    as (components & -> & Hcomp & Hnd & Hcover).
  eexists. split; [done|]. unfold labelled.
  pose proof (components_cells_bound _ _ _ _ Hcomp Hnd) as Hcells.
  rewrite Forall_forall in Hcomp.
  destruct (decide (arraySize (width * height))) as [Hsize|Hsize]; [|done].
  split; [done|]. intros _.
  assert (Hcount : minRegionSize
                   * Z.of_nat (length (filter bigEnough components))
                   ≤ Z.of_nat (length (setCells mask width height))).
  { etransitivity; [apply length_join_big|].
    { apply Forall_forall. intros l Hl. by apply list_elem_of_filter in Hl as [? _]. }
    pose proof (length_join_filter bigEnough components). lia. }
  destruct (decide (Forall (spreads argumentLimit) (filter bigEnough components)))
    as [Hfit|Hfit].
  - split; [done|]. split.
    + intros regions [= <-]. rewrite length_fmap. split; [|done].
      apply Forall_forall. intros region Hr.
      apply list_elem_of_fmap in Hr as (component & -> & Hin).
      apply list_elem_of_filter in Hin as [Hbig Hin].
      apply (boxOf_inside mask); [by apply Hcomp| |done].
      by apply (NoDup_join_elem components).
    + intros Hfew. destruct (filter bigEnough components); [done|].
      simpl in Hcount. unfold minRegionSize in *. lia.
  - split; [|split; [done|]].
    + intros error [= <-]. split; [done|].
      apply not_Forall_Exists in Hfit; [|apply _].
      apply Exists_exists in Hfit as (component & Hin & Hlong).
      apply list_elem_of_filter in Hin as [Hbig Hin].
      pose proof (length_join_elem _ _ Hin).
      unfold compose, spreads in Hlong. unfold bigEnough in Hbig. lia.
    + intros Hfew. exfalso. apply Hfit. apply Forall_forall.
      intros component Hin. apply list_elem_of_filter in Hin as [Hbig Hin].
      pose proof (length_join_elem _ _ Hin).
      unfold bigEnough in Hbig. lia.
Qed.

(** X7.  [findConnectedComponents] always ends, and throws nothing but a
    [RangeError].  For a size [new Array] refuses it throws
    [Invalid array length].  Otherwise, when it returns, every region lies
    inside the image, is at least one cell wide and high, and carries a
    cell count between 50 and the area of its box, and 50 times the
    number of regions is at most the number of [true] cells; when it
    throws, there are at least 50 [true] cells and more than the runtime's
    argument limit.  So a mask with fewer than 50 [true] cells gives no
    region, and one with no more [true] cells than the argument limit
    gives no error. *)
Theorem labelled_regions_inside argumentLimit mask width height :
  ∃ outcome,
    findConnectedComponents argumentLimit mask width height = Some outcome
    ∧ (¬ arraySize (width * height) → outcome = inl invalidArrayLength)
    ∧ (arraySize (width * height) →
       (∀ error, outcome = inl error →
          error = stackOverflow
          ∧ minRegionSize ≤ Z.of_nat (length (setCells mask width height))
          ∧ argumentLimit < Z.of_nat (length (setCells mask width height)))
       ∧ (∀ regions, outcome = inr regions →
            Forall (regionInside width height) regions
            ∧ minRegionSize * Z.of_nat (length regions)
              ≤ Z.of_nat (length (setCells mask width height)))
       ∧ (Z.of_nat (length (setCells mask width height)) < minRegionSize →
          outcome = inr [])).
Proof. apply labelling_regions_bound. Qed.

(* ================================================================= *)
(** ** The text mask, and text restored by the hybrid mode *)

Lemma flagAt_insert_cases (flags : list bool) i j :
  0 ≤ i →
  flagAt (<[Z.to_nat i := true]> flags) j
  = if decide (i = j ∧ j < Z.of_nat (length flags)) then true else flagAt flags j.
Proof.
  intros Hi. destruct (decide _) as [[-> Hlt]|Hne].
  - apply flagAt_insert_eq. lia.
  - destruct (decide (i = j)) as [->|Hij]; [|by apply flagAt_insert_ne].
    rewrite list_insert_ge; [done|]. lia.
Qed.

(** The marking loops: a cell of the grid is marked exactly when its
    pixel matches. *)
Lemma markCells_flag (matches : Z * Z → bool) width height cells init c :
  Z.of_nat (length init) = width * height →
  (∀ c', c' ∈ cells → inGrid width height c') →
  inGrid width height c →
  flagAt (foldl (λ textMask cell,
                   if matches cell
                   then <[Z.to_nat (cell.2 * width + cell.1) := true]> textMask
                   else textMask) init cells) (cellIndex width c)
  = flagAt init (cellIndex width c) || (bool_decide (c ∈ cells) && matches c).
Proof.
  intros Hlen Hin Hc. revert init Hlen.
  induction cells as [|cell cells IH]; intros init Hlen.
  { cbn [foldl]. rewrite bool_decide_eq_false_2 by apply not_elem_of_nil.
    by rewrite orb_false_r. }
  cbn [foldl].
  assert (Hcell : inGrid width height cell) by (apply Hin; left).
  pose proof (cellIndex_range _ _ _ Hcell) as Hr.
  change (cell.2 * width + cell.1) with (cellIndex width cell).
  rewrite IH; [|intros; apply Hin; by right
               |destruct (matches cell); by rewrite ?length_insert].
  destruct (decide (c = cell)) as [->|Hne].
  - rewrite (bool_decide_eq_true_2 (cell ∈ cell :: cells)) by left. simpl.
    destruct (matches cell) eqn:Em.
    + rewrite flagAt_insert_eq by lia. simpl. by rewrite orb_true_r.
    + by rewrite andb_false_r, !orb_false_r.
  - assert (bool_decide (c ∈ cell :: cells) = bool_decide (c ∈ cells)) as ->.
    { apply bool_decide_ext. rewrite elem_of_cons. tauto. }
    destruct (matches cell); [|done].
    rewrite flagAt_insert_ne; [done|lia|].
    intros E. apply Hne. symmetry. by apply (cellIndex_inj width height).
Qed.

Lemma textMaskOf_length this image :
  0 ≤ bitmap_width image * bitmap_height image →
  Z.of_nat (length (textMaskOf this image))
  = bitmap_width image * bitmap_height image.
Proof.
  intros Hpos. unfold textMaskOf.
  set (f := λ (textMask : list bool) (cell : Z * Z), _).
  assert (H : ∀ cells init, length (foldl f init cells) = length init).
  { induction cells as [|cell cells IH]; intros init; [done|].
    simpl. rewrite IH. unfold f. destruct (matchesTextColor _ _ _); [|done].
    apply length_insert. }
  rewrite H, length_replicate. lia.
Qed.

Lemma textMaskOf_flag this image c :
  inGrid (bitmap_width image) (bitmap_height image) c →
  flagAt (textMaskOf this image) (cellIndex (bitmap_width image) c)
  = matchesTextColor this image c.
Proof.
  intros Hc. unfold textMaskOf.
  rewrite (markCells_flag (matchesTextColor this image) _ (bitmap_height image)).
  - rewrite flagAt_replicate, bool_decide_eq_true_2; [done|].
    by apply rowMajor_elem.
  - rewrite length_replicate. destruct Hc. nia.
  - intros c'. apply rowMajor_elem.
  - done.
Qed.

Lemma matchesTextColor_pixel this image px py c a :
  0 ≤ px < bitmap_width image → 0 ≤ py < bitmap_height image →
  pixelAt image px py = Some (c, a) →
  matchesTextColor this image (px, py) = nearTextColor this c.
Proof.
  intros Hx Hy Hp. unfold matchesTextColor. simpl.
  rewrite getPixelIndex_inside by done.
  destruct (pixelAt_bytes _ _ _ _ _ Hp) as (Hr & Hg & Hb & _).
  rewrite Z.add_0_r, Hr, Hg, Hb. by destruct c.
Qed.

(** The array check of [detectTextByColor] is the one the labelling
    makes again. *)
Lemma detectTextByColor_labelling argumentLimit this image :
  detectTextByColor argumentLimit this image
  = findConnectedComponents argumentLimit (textMaskOf this image)
                            (bitmap_width image) (bitmap_height image).
Proof.
  unfold detectTextByColor, findConnectedComponents.
  by destruct (arrayOfFalse _).
Qed.


(** X8.  The mask of [detectTextByColor] has one flag per pixel, set exactly
    for the pixels whose colour is within [textThreshold] of one of the
    text colours (a comparison that for 8-bit colours is the one over the
    reals); with no text colour there is no region (and for an image of
    more pixels than an array can hold, the [RangeError] of the array). *)
Theorem text_mask_marks_text_colours this image :
  wellFormed image →
  Z.of_nat (length (textMaskOf this image))
  = bitmap_width image * bitmap_height image
  ∧ (∀ px py c a,
        0 ≤ px < bitmap_width image → 0 ≤ py < bitmap_height image →
        pixelAt image px py = Some (c, a) →
        flagAt (textMaskOf this image) (py * bitmap_width image + px)
        = nearTextColor this c)
  ∧ (∀ c textColor,
        validColor c → validColor textColor →
        Qle_bool (calculateColorDistance c textColor)
                 (inject_Z (textThreshold this))
        = rootWithin (squaredDistance c textColor) (textThreshold this))
  ∧ (textColors this = [] →
     ∀ argumentLimit,
       detectTextByColor argumentLimit this image
       = Some (if decide (arraySize (bitmap_width image * bitmap_height image))
               then inr [] else inl invalidArrayLength)).
Proof.
  intros (Hw & Hh & Hlen & Hb).
  split; [apply textMaskOf_length; nia|].
  split; [|split].
  - intros px py c a Hx Hy Hp.
    change (py * bitmap_width image + px)
      with (cellIndex (bitmap_width image) (px, py)).
    rewrite textMaskOf_flag by done. by eapply matchesTextColor_pixel.
  - intros c textColor Hc Ht. rewrite calculateColorDistance_root.
    apply Qle_bool_js_sqrt. by apply squaredDistance_range.
  - intros Hnone argumentLimit. rewrite detectTextByColor_labelling.
    destruct (labelling_regions_bound argumentLimit (textMaskOf this image)
                (bitmap_width image) (bitmap_height image))
      as (outcome & -> & Hbad & Hgood).
    destruct (decide (arraySize _)) as [Hsize|Hsize]; [|by rewrite Hbad].
    destruct (Hgood Hsize) as (_ & _ & Hfew).
    rewrite Hfew; [done|].
    assert (setCells (textMaskOf this image) (bitmap_width image)
              (bitmap_height image) = []) as ->; [|done].
    apply elem_of_nil_inv. intros c Hc.
    apply setCells_elem in Hc as [Hg Hf].
    rewrite textMaskOf_flag in Hf by done.
    unfold matchesTextColor in Hf. rewrite Hnone in Hf.
    by repeat destruct (byteAt _ _).
Qed.



(* ================================================================= *)
(** ** How the colour and hybrid runs end *)

Lemma checkInput_cases world log :
  (fileExists world = true ∧ isSupported (inputExt world) = true
   ∧ checkInput world log = (inr tt, log))
  ∨ ((fileExists world = false ∨ isSupported (inputExt world) = false)
     ∧ ∃ message, checkInput world log = (inl message, log)).
Proof.
  unfold checkInput, bind. destruct (fileExists world); simpl.
  - destruct (isSupported _); [left; done|right]. split; [by right|by eexists].
  - right. split; [by left|by eexists].
Qed.

Lemma color_run_cases this world log :
  ∃ b events,
    removeBackgroundColor this world log = (inr b, log ++ events)
    ∧ (b = true
       ↔ fileExists world = true ∧ isSupported (inputExt world) = true
         ∧ hasColourTarget this = true ∧ succeeded (decoded world) = true
         ∧ saveError world = None)
    ∧ (b = true →
       ∃ original image,
         decoded world = inr original
         ∧ events = [Decoded; Classified; Saved image]
         ∧ (∀ pass passes,
              colorPasses this = Some (pass :: passes) →
              image = classifyMultiPass (pass :: passes) original)
         ∧ (colorPasses this = None ∨ colorPasses this = Some [] →
            ∃ target, targetColor this = Some target
                      ∧ image = classifySinglePass this target original))
    ∧ (b = false →
       ∃ message,
         events = [ConsoleError message]
         ∨ events = [Decoded; Classified; ConsoleError message]).
Proof.
  unfold removeBackgroundColor, tryCatch, bind, hasColourTarget.
  destruct (checkInput_cases world log) as [(He & Hs & ->)|[Hbad [message ->]]].
  2: { exists false. eexists. split; [reflexivity|]. split.
       - split; [done|]. intros (? & ? & _). destruct Hbad; congruence.
       - split; [done|]. intros _. eexists. by left. }
  rewrite He, Hs.
  assert (Hrun : ∀ image,
    (let* original := await (decoded world) in
     emit Decoded ;;; emit Classified ;;; save world (image original) ;;; ret true) log
    = match decoded world, saveError world with
      | inl message, _ => (inl message, log)
      | inr original, Some message => (inl message, log ++ [Decoded; Classified])
      | inr original, None =>
          (inr true, log ++ [Decoded; Classified; Saved (image original)])
      end).
  { intros image. unfold bind, await, emit, save.
    destruct (decoded world) as [message|original]; [done|].
    destruct (saveError world); simpl; by rewrite <- !app_assoc. }
  destruct (colorPasses this) as [[|pass passes]|] eqn:Hp.
  3: destruct (targetColor this) as [target|] eqn:Ht.
  1: destruct (targetColor this) as [target|] eqn:Ht.
  all: try (exists false; eexists; split; [reflexivity|]; split;
            [split; [done|]; intros (_ & _ & ? & _); done|];
            split; [done|]; intros _; eexists; by left).
  1: pose proof (Hrun (classifySinglePass this target)) as Hr.
  2: pose proof (Hrun (classifyMultiPass (pass :: passes))) as Hr.
  3: pose proof (Hrun (classifySinglePass this target)) as Hr.
  all: unfold bind in Hr; rewrite Hr; clear Hr Hrun.
  all: destruct (decoded world) as [message|original] eqn:Hd; simpl.
  all: try (exists false; eexists; split; [reflexivity|]; split;
            [split; [done|]; intros (_ & _ & _ & ? & _); done|];
            split; [done|]; intros _; eexists; by left).
  all: destruct (saveError world) as [message|] eqn:Hsave; simpl.
  all: try (exists false; eexists; split;
            [unfold reportFailure, bind, emit, ret; simpl; by rewrite <- app_assoc|];
            split; [split; [done|]; intros (_ & _ & _ & _ & ?); done|];
            split; [done|]; intros _; eexists; by right).
  all: exists true; eexists; split; [reflexivity|]; split; [done|];
       split; [|done]; intros _; eexists _, _; split; [done|]; split; [done|].
  all: split; [intros ? ? ?; by simplify_eq|].
  all: intros [?|?]; simplify_eq; eauto.
Qed.

Lemma detectTextByColor_returns argumentLimit this image :
  ∃ outcome, detectTextByColor argumentLimit this image = Some outcome.
Proof.
  rewrite detectTextByColor_labelling.
  destruct (labelling_components argumentLimit (textMaskOf this image)
              (bitmap_width image) (bitmap_height image)) as (components & -> & _).
  by eexists.
Qed.

Lemma detectTextRegions_cases world log :
  ∃ regions notes,
    detectTextRegions world log = (inr regions, log ++ notes)
    ∧ (notes = [] ∨ ∃ message, notes = [ConsoleError message]).
Proof.
  unfold detectTextRegions, tryCatch, bind, await, emit, ret.
  destruct (recognition world) as [message|words]; simpl.
  - exists [], [ConsoleError ("Text detection error: " +:+ message)].
    split; [done|]. right. by eexists.
  - eexists _, []. rewrite app_nil_r. split; [done|]. by left.
Qed.

(** The text-detection step of a hybrid run: it gives its regions, or
    colour detection throws. *)
Lemma hybrid_detection this world originalImage log :
  decoded world = inr originalImage →
  (detectionThrows this world = false
   ∧ ∃ regions notes,
       (if String.eqb (textDetectionMode this) "ocr" then
          detectTextRegions world
        else if String.eqb (textDetectionMode this) "color" then
          match detectTextByColor (argumentLimit world) this originalImage with
          | Some outcome => await outcome
          | None => throw "labelling ran out of fuel"
          end
        else ret []) log
       = (inr regions, log ++ notes)
       ∧ (notes = [] ∨ ∃ message, notes = [ConsoleError message])
       ∧ (textDetectionMode this = "color"%string →
          detectTextByColor (argumentLimit world) this originalImage
          = Some (inr regions)))
  ∨ (detectionThrows this world = true
     ∧ ∃ message,
         (if String.eqb (textDetectionMode this) "ocr" then
            detectTextRegions world
          else if String.eqb (textDetectionMode this) "color" then
            match detectTextByColor (argumentLimit world) this originalImage with
            | Some outcome => await outcome
            | None => throw "labelling ran out of fuel"
            end
          else ret []) log
         = (inl message, log)).
Proof.
  intros Hd. unfold detectionThrows. rewrite Hd.
  destruct (String.eqb_spec (textDetectionMode this) "ocr") as [Eo|No].
  { left. rewrite Eo. simpl.
    destruct (detectTextRegions_cases world log) as (regions & notes & -> & Hn).
    split; [done|]. exists regions, notes. done. }
  destruct (String.eqb_spec (textDetectionMode this) "color") as [Ec|Nc].
  - destruct (detectTextByColor_returns (argumentLimit world) this originalImage)
      as [[message|regions] ->]; simpl.
    + right. split; [done|]. by exists message.
    + left. split; [done|]. exists regions, []. unfold await. rewrite app_nil_r.
      split; [done|]. split; [by left|done].
  - left. split; [done|]. exists [], []. unfold ret. rewrite app_nil_r.
    split; [done|]. split; [by left|done].
Qed.

Lemma hybrid_run_cases this world log :
  ∃ b events,
    removeBackgroundHybrid this world log = (inr b, log ++ events)
    ∧ (b = true
       ↔ fileExists world = true ∧ isSupported (inputExt world) = true
         ∧ succeeded (cutout world) = true ∧ succeeded (decoded world) = true
         ∧ detectionThrows this world = false
         ∧ saveError world = None)
    ∧ (b = true →
       ∃ personMask originalImage regions notes,
         cutout world = inr personMask ∧ decoded world = inr originalImage
         ∧ events
           = [Segmented; Decoded] ++ notes
             ++ [Composited;
                 Saved (compositeRegions originalImage (textPadding this)
                                         regions personMask)]
         ∧ (notes = [] ∨ ∃ message, notes = [ConsoleError message])
         ∧ (textDetectionMode this = "color"%string →
            detectTextByColor (argumentLimit world) this originalImage
            = Some (inr regions)))
    ∧ (b = false →
       ∃ steps message,
         events = steps ++ [ConsoleError message]
         ∧ ∀ image, Saved image ∉ steps).
Proof.
  unfold removeBackgroundHybrid, tryCatch.
  unfold bind at 1.
  destruct (checkInput_cases world log) as [(He & Hs & ->)|[Hbad [message ->]]].
  2: { exists false. eexists. split; [reflexivity|]. split.
       - split; [done|]. intros (? & ? & _). destruct Hbad; congruence.
       - split; [done|]. intros _. exists []. eexists. split; [reflexivity|].
         intros image. apply not_elem_of_nil. }
  rewrite He, Hs. unfold bind at 1, await at 1.
  destruct (cutout world) as [message|personMask].
  { exists false. eexists. split; [reflexivity|]. split.
    - split; [done|]. intros (_ & _ & ? & _). done.
    - split; [done|]. intros _. exists []. eexists. split; [reflexivity|].
      intros image. apply not_elem_of_nil. }
  unfold bind at 1, emit at 1. unfold bind at 1, await at 1.
  destruct (decoded world) as [message|originalImage] eqn:Hd.
  { exists false. eexists. split.
    - unfold reportFailure, bind, emit, ret. simpl. by rewrite <- app_assoc.
    - split; [split; [done|]; intros (_ & _ & _ & ? & _); done|].
      split; [done|]. intros _. exists [Segmented]. eexists. split; [reflexivity|].
      intros image. rewrite elem_of_cons, elem_of_nil. intros [?|?]; done. }
  unfold bind at 1, emit at 1. unfold bind at 1.
  destruct (hybrid_detection this world originalImage
              ((log ++ [Segmented]) ++ [Decoded]) Hd)
    as [(Hok & regions & notes & -> & Hnotes & Hregions)|(Hthrown & message & ->)].
  2: { exists false. eexists. split.
       - unfold reportFailure, bind, emit, ret. simpl.
         rewrite <- !app_assoc. simpl. reflexivity.
       - split; [split; [done|]; intros (_ & _ & _ & _ & ? & _); congruence|].
         split; [done|]. intros _. exists [Segmented; Decoded]. eexists.
         split; [reflexivity|].
         intros image. rewrite !elem_of_cons, elem_of_nil.
         intros H; decompose [or] H; done. }
  unfold bind at 1, emit at 1. unfold bind at 1, save.
  destruct (saveError world) as [message|].
  - exists false. eexists. split.
    + unfold throw, reportFailure, bind, emit, ret. simpl.
      rewrite <- !app_assoc. simpl. reflexivity.
    + split; [split; [done|]; intros (_ & _ & _ & _ & _ & ?); done|].
      split; [done|]. intros _.
      exists ([Segmented; Decoded] ++ notes ++ [Composited]). eexists.
      split; [by rewrite <- !app_assoc|].
      intros image. rewrite !elem_of_app, !elem_of_cons, !elem_of_nil.
      destruct Hnotes as [->|[m ->]];
        rewrite ?elem_of_cons, ?elem_of_nil; intros H; decompose [or] H; done.
  - exists true. eexists. split.
    + unfold emit, bind, ret. simpl. rewrite <- !app_assoc. simpl. reflexivity.
    + split; [done|]. split; [|done]. intros _.
      exists personMask, originalImage, regions, notes. done.
Qed.

(** When colour detection throws, and when it cannot. *)
Lemma detectionThrows_cases this world :
  (detectionThrows this world = true →
   textDetectionMode this = "color"%string
   ∧ ∃ originalImage,
       decoded world = inr originalImage
       ∧ (detectTextByColor (argumentLimit world) this originalImage
          = Some (inl invalidArrayLength)
          ∧ ¬ arraySize (bitmap_width originalImage * bitmap_height originalImage)
          ∨ detectTextByColor (argumentLimit world) this originalImage
            = Some (inl stackOverflow)
            ∧ minRegionSize
              ≤ Z.of_nat (length (setCells (textMaskOf this originalImage)
                                           (bitmap_width originalImage)
                                           (bitmap_height originalImage)))
            ∧ argumentLimit world
              < Z.of_nat (length (setCells (textMaskOf this originalImage)
                                           (bitmap_width originalImage)
                                           (bitmap_height originalImage)))))
  ∧ (∀ originalImage,
       decoded world = inr originalImage →
       arraySize (bitmap_width originalImage * bitmap_height originalImage) →
       bitmap_width originalImage * bitmap_height originalImage
       ≤ argumentLimit world →
       detectionThrows this world = false).
Proof.
  unfold detectionThrows. split.
  - destruct (String.eqb_spec (textDetectionMode this) "color") as [Ec|Nc]; [|done].
    destruct (decoded world) as [message|originalImage]; [done|]. simpl.
    intros Hthrown. split; [done|]. exists originalImage. split; [done|].
    rewrite detectTextByColor_labelling in *.
    destruct (labelling_regions_bound (argumentLimit world)
                (textMaskOf this originalImage)
                (bitmap_width originalImage) (bitmap_height originalImage))
      as (outcome & Hrun & Hbad & Hgood).
    rewrite Hrun in *.
    destruct (decide (arraySize (bitmap_width originalImage
                                 * bitmap_height originalImage))) as [Hsize|Hsize].
    + right. destruct (Hgood Hsize) as (Herr & _).
      destruct outcome as [error|regions]; [|done].
      destruct (Herr error eq_refl) as (-> & ? & ?). done.
    + left. by rewrite (Hbad Hsize).
  - intros originalImage -> Hsize Hfew.
    destruct (String.eqb (textDetectionMode this) "color"); [|done]. simpl.
    rewrite detectTextByColor_labelling.
    destruct (labelling_regions_bound (argumentLimit world)
                (textMaskOf this originalImage)
                (bitmap_width originalImage) (bitmap_height originalImage))
      as (outcome & -> & _ & Hgood).
    destruct (Hgood Hsize) as (Herr & _).
    destruct outcome as [error|regions]; [|done].
    destruct (Herr error eq_refl) as (_ & _ & Hmany).
    pose proof (grid_cells_bound (bitmap_width originalImage)
                  (bitmap_height originalImage)
                  (setCells (textMaskOf this originalImage)
                            (bitmap_width originalImage)
                            (bitmap_height originalImage))) as Hb.
    assert (length (setCells (textMaskOf this originalImage)
                             (bitmap_width originalImage)
                             (bitmap_height originalImage))
            ≤ Z.to_nat (bitmap_width originalImage * bitmap_height originalImage))%nat;
      [|unfold arraySize in Hsize; lia].
    apply Hb.
    + apply NoDup_filter, rowMajor_NoDup.
    + intros c Hc. by apply setCells_elem in Hc as [? _].
Qed.

(** X11.  A [textDetectionMode] that is neither 'ocr' nor 'color' is not
    reported: the hybrid run detects no text, saves the person cut-out
    unchanged and returns [true]. *)
Theorem hybrid_unknown_detection_mode this world personMask originalImage log :
  textDetectionMode this ≠ "ocr"%string →
  textDetectionMode this ≠ "color"%string →
  fileExists world = true → isSupported (inputExt world) = true →
  cutout world = inr personMask → decoded world = inr originalImage →
  saveError world = None →
  removeBackgroundHybrid this world log
  = (inr true, log ++ [Segmented; Decoded; Composited; Saved personMask]).
Proof.
  intros No Nc He Hs Hc Hd Hsave.
  unfold removeBackgroundHybrid, tryCatch, bind.
  rewrite (checkInput_ok world log He Hs).
  unfold await, emit, save. rewrite Hc, Hd, Hsave. simpl.
  rewrite (proj2 (String.eqb_neq _ _) No), (proj2 (String.eqb_neq _ _) Nc).
  unfold ret. simpl. destruct personMask. simpl.
  by rewrite <- !app_assoc.
Qed.

(** X5.  [removeBackgroundColor] never throws.  It returns [true] exactly
    when the input exists, its extension is supported, there is a
    non-empty pass list or a target colour, the image decodes and the
    output can be written; then the one image saved is the multi-pass
    result when the pass list is not empty (the target colour is not
    looked at), the single-pass result otherwise.  It returns [false] after
    writing exactly one error to the console, and then nothing was saved. *)
Theorem color_run_outcomes this world log :
  ∃ b events,
    removeBackgroundColor this world log = (inr b, log ++ events)
    ∧ (b = true
       ↔ fileExists world = true ∧ isSupported (inputExt world) = true
         ∧ hasColourTarget this = true ∧ succeeded (decoded world) = true
         ∧ saveError world = None)
    ∧ (b = true →
       ∃ original image,
         decoded world = inr original
         ∧ events = [Decoded; Classified; Saved image]
         ∧ (∀ pass passes,
              colorPasses this = Some (pass :: passes) →
              image = classifyMultiPass (pass :: passes) original)
         ∧ (colorPasses this = None ∨ colorPasses this = Some [] →
            ∃ target, targetColor this = Some target
                      ∧ image = classifySinglePass this target original))
    ∧ (b = false →
       ∃ message,
         events = [ConsoleError message]
         ∨ events = [Decoded; Classified; ConsoleError message]).
Proof. apply color_run_cases. Qed.

(** X10.  [removeBackgroundHybrid] never throws.  It returns [true]
    exactly when the input exists, its extension is supported, the AI
    cut-out and the image decode, text detection does not throw and the
    output can be written.  Text detection throws only in colour mode,
    with a [RangeError]: when the image has more pixels than an array can
    hold, or at least 50 text-coloured pixels and more of them than the
    runtime's argument limit; it cannot throw for an image of no more
    pixels than that limit and than an array can hold.  OCR adds at most
    one console error and does not make the run fail.  A run that returns [true] in colour mode
    composites the regions colour detection returned.  A run that returns
    [false] wrote an error to the console last, and saved nothing. *)
Theorem hybrid_run_outcomes this world log :
  ∃ b events,
    removeBackgroundHybrid this world log = (inr b, log ++ events)
    ∧ (b = true
       ↔ fileExists world = true ∧ isSupported (inputExt world) = true
         ∧ succeeded (cutout world) = true ∧ succeeded (decoded world) = true
         ∧ detectionThrows this world = false
         ∧ saveError world = None)
    ∧ (b = true →
       ∃ personMask originalImage regions notes,
         cutout world = inr personMask ∧ decoded world = inr originalImage
         ∧ events
           = [Segmented; Decoded] ++ notes
             ++ [Composited;
                 Saved (compositeRegions originalImage (textPadding this)
                                         regions personMask)]
         ∧ (notes = [] ∨ ∃ message, notes = [ConsoleError message])
         ∧ (textDetectionMode this = "color"%string →
            detectTextByColor (argumentLimit world) this originalImage
            = Some (inr regions)))
    ∧ (b = false →
       ∃ steps message,
         events = steps ++ [ConsoleError message]
         ∧ ∀ image, Saved image ∉ steps)
    ∧ (detectionThrows this world = true →
       textDetectionMode this = "color"%string
       ∧ ∃ originalImage,
           decoded world = inr originalImage
           ∧ (detectTextByColor (argumentLimit world) this originalImage
              = Some (inl invalidArrayLength)
              ∧ ¬ arraySize (bitmap_width originalImage
                             * bitmap_height originalImage)
              ∨ detectTextByColor (argumentLimit world) this originalImage
                = Some (inl stackOverflow)
                ∧ minRegionSize
                  ≤ Z.of_nat (length (setCells (textMaskOf this originalImage)
                                               (bitmap_width originalImage)
                                               (bitmap_height originalImage)))
                ∧ argumentLimit world
                  < Z.of_nat (length (setCells (textMaskOf this originalImage)
                                               (bitmap_width originalImage)
                                               (bitmap_height originalImage)))))
    ∧ (∀ originalImage,
         decoded world = inr originalImage →
         arraySize (bitmap_width originalImage * bitmap_height originalImage) →
         bitmap_width originalImage * bitmap_height originalImage
         ≤ argumentLimit world →
         detectionThrows this world = false).
Proof.
  destruct (hybrid_run_cases this world log) as (b & events & Hrun & Hiff & Ht & Hf).
  exists b, events. repeat (split; [done|]). apply detectionThrows_cases.
Qed.

(* ================================================================= *)
(** ** The command line *)

Lemma byteChecks_all : forallb byteChecks (seqZ 0 256) = true.
Proof. vm_compute. reflexivity. Qed.

Lemma byteChecks_at n :
  isByte n →
  readDigits (pretty n) None = Some n
  ∧ allChars isDigit (pretty n) = true
  ∧ pretty n ≠ EmptyString.
Proof.
  intros Hn. pose proof byteChecks_all as H.
  rewrite forallb_forall in H.
  specialize (H n ltac:(apply list_elem_of_In, elem_of_seqZ; unfold isByte in Hn; lia)).
  unfold byteChecks in H. rewrite !andb_true_iff, bool_decide_eq_true in H.
  destruct H as ((H1 & H2) & H3). split; [done|]. split; [done|].
  intros E. rewrite E in H3. done.
Qed.

Lemma digit_plain c :
  isDigit c = true →
  isWhiteSpace c = false ∧ notComma c = true
  ∧ Ascii.eqb c "-" = false ∧ Ascii.eqb c "+" = false.
Proof.
  destruct c as [[] [] [] [] [] [] [] []]; vm_compute; intros H;
    try discriminate H; repeat split.
Qed.

Lemma whiteSpace_notComma c : isWhiteSpace c = true → notComma c = true.
Proof.
  destruct c as [[] [] [] [] [] [] [] []]; vm_compute; intros H;
    try discriminate H; reflexivity.
Qed.

Lemma append_cons c a b : String c a +:+ b = String c (a +:+ b).
Proof. reflexivity. Qed.

Lemma append_empty b : EmptyString +:+ b = b.
Proof. reflexivity. Qed.

Lemma append_assoc a b c : (a +:+ b) +:+ c = a +:+ b +:+ c.
Proof.
  induction a as [|x a IH]; [done|]. by rewrite !append_cons, IH.
Qed.

Lemma allChars_app p a b :
  allChars p (a +:+ b) = allChars p a && allChars p b.
Proof.
  induction a as [|c a IH]; [done|]. simpl. by rewrite IH, andb_assoc.
Qed.

Lemma allChars_impl (p q : ascii → bool) s :
  (∀ c, p c = true → q c = true) → allChars p s = true → allChars q s = true.
Proof.
  intros Hpq. induction s as [|c s IH]; [done|]. simpl.
  rewrite !andb_true_iff. intros [? ?]. auto.
Qed.

Lemma split_no_separator s :
  allChars notComma s = true → split "," s = [s].
Proof.
  induction s as [|c s IH]; [done|]. simpl. rewrite andb_true_iff.
  intros [Hc Hs]. unfold notComma in Hc. apply negb_true_iff in Hc.
  rewrite Hc, (IH Hs). done.
Qed.

Lemma split_at_separator a rest :
  allChars notComma a = true →
  split "," (a +:+ String "," rest) = a :: split "," rest.
Proof.
  induction a as [|c a IH]; [done|]. simpl. rewrite andb_true_iff.
  intros [Hc Ha]. unfold notComma in Hc. apply negb_true_iff in Hc.
  rewrite Hc, (IH Ha). done.
Qed.

Lemma trimStart_blank l d :
  blank l →
  match d with String c _ => isWhiteSpace c = false | EmptyString => True end →
  trimStart (l +:+ d) = d.
Proof.
  unfold blank. intros Hl Hd. induction l as [|c l IH].
  - simpl. destruct d as [|c d]; [done|]. simpl. by rewrite Hd.
  - simpl in *. apply andb_true_iff in Hl as [Hc Hl]. rewrite Hc. by apply IH.
Qed.

Lemma trimEnd_after d j :
  allChars (λ c, negb (isWhiteSpace c)) d = true → d ≠ EmptyString →
  trimEnd (d +:+ j) = d +:+ trimEnd j.
Proof.
  induction d as [|c d IH]; [done|]. intros Hd _.
  simpl in Hd. apply andb_true_iff in Hd as [Hc Hd]. apply negb_true_iff in Hc.
  destruct d as [|c' d].
  - rewrite append_cons, !append_empty. cbn [trimEnd].
    destruct (trimEnd j); [by rewrite Hc|done].
  - rewrite (append_cons c). cbn [trimEnd]. rewrite IH by done.
    by rewrite (append_cons c').
Qed.

Lemma trimEnd_head c rest :
  trimEnd (String c rest) = EmptyString
  ∨ ∃ kept, trimEnd (String c rest) = String c kept.
Proof.
  simpl. destruct (trimEnd rest); [|right; by eexists].
  destruct (isWhiteSpace c); [by left|right; by eexists].
Qed.

Lemma readDigits_app d j value :
  allChars isDigit d = true →
  readDigits (d +:+ j) value = readDigits j (readDigits d value).
Proof.
  revert value. induction d as [|c d IH]; intros value; [done|].
  simpl. rewrite andb_true_iff. intros [Hc Hd].
  unfold isDigit in Hc. apply bool_decide_eq_true in Hc as [v Hv].
  rewrite Hv. by apply IH.
Qed.

Lemma readDigits_stop j value :
  match j with String c _ => isDigit c = false | EmptyString => True end →
  readDigits j value = value.
Proof.
  destruct j as [|c j]; [done|]. simpl. unfold isDigit. intros Hc.
  apply bool_decide_eq_false in Hc.
  destruct (digitValue c); [|done]. exfalso. apply Hc. by eexists.
Qed.

(** One part of a colour: white space, the numeral of a byte, and
    whatever follows it. *)
Lemma parseInt_padded l n j :
  isByte n → blank l → trailing j →
  parseInt (trim (l +:+ pretty n +:+ j)) = Some n
  ∧ allChars notComma (l +:+ pretty n +:+ j) = true.
Proof.
  intros Hn Hl [Hj Hhead].
  destruct (byteChecks_at n Hn) as (Hread & Hdigits & Hne).
  assert (Hplain : allChars (λ c, negb (isWhiteSpace c)) (pretty n) = true).
  { eapply allChars_impl; [|exact Hdigits].
    intros c Hc. destruct (digit_plain c Hc) as (-> & _). done. }
  split.
  2: { rewrite !allChars_app, !andb_true_iff. split; [|split; [|done]].
       - eapply allChars_impl; [apply whiteSpace_notComma|exact Hl].
       - eapply allChars_impl; [|exact Hdigits].
         intros c Hc. by destruct (digit_plain c Hc) as (_ & -> & _). }
  destruct (pretty n) as [|c0 d0] eqn:Ep; [done|].
  assert (Hc0 : isDigit c0 = true).
  { simpl in Hdigits. by apply andb_true_iff in Hdigits as [? _]. }
  destruct (digit_plain c0 Hc0) as (Hws & _ & Hminus & Hplus).
  unfold trim. rewrite trimStart_blank by done.
  rewrite trimEnd_after by done.
  assert (Hj' : match trimEnd j with
                | String c _ => isDigit c = false
                | EmptyString => True
                end).
  { destruct j as [|c j]; [done|].
    destruct (trimEnd_head c j) as [->|[kept ->]]; done. }
  unfold parseInt.
  rewrite append_cons. cbn [trimStart]. rewrite Hws, Hminus, Hplus.
  rewrite <- append_cons.
  rewrite readDigits_app by done. rewrite Hread. by apply readDigits_stop.
Qed.

Lemma badChannel_false v :
  badChannel v = false ↔ ∃ n, v = Some n ∧ 0 ≤ n ≤ 255.
Proof.
  unfold badChannel. destruct v as [n|].
  - rewrite orb_false_iff, !Z.ltb_ge. split.
    + intros [? ?]. exists n. split; [done|lia].
    + intros (? & ? & ?). simplify_eq. lia.
  - split; [done|]. intros (? & ? & _). done.
Qed.

Lemma badParts_false parts :
  badParts parts = false ↔
  ∃ r g b, parts = [Some r; Some g; Some b]
           ∧ isByte r ∧ isByte g ∧ isByte b.
Proof.
  unfold badParts, isByte. rewrite orb_false_iff, negb_false_iff, Nat.eqb_eq. split.
  - intros [Hlen Hbad].
    destruct parts as [|p0 [|p1 [|p2 [|? ?]]]]; try done.
    cbn [existsb] in Hbad. rewrite orb_false_r, !orb_false_iff in Hbad.
    destruct Hbad as (H0 & H1 & H2).
    apply badChannel_false in H0 as (r & -> & ?).
    apply badChannel_false in H1 as (g & -> & ?).
    apply badChannel_false in H2 as (b & -> & ?).
    by exists r, g, b.
  - intros (r & g & b & -> & Hr & Hg & Hb). split; [done|].
    cbn [existsb]. rewrite orb_false_r, !orb_false_iff.
    repeat split; apply badChannel_false; eauto.
Qed.

Lemma parseRGBColor_Some rgbString c :
  parseRGBColor rgbString = Some c
  ↔ channelParts rgbString = [Some (r c); Some (g c); Some (b c)] ∧ validColor c.
Proof.
  unfold parseRGBColor. split.
  - destruct (badParts (channelParts rgbString)) eqn:E; [done|].
    apply badParts_false in E as (r0 & g0 & b0 & -> & ? & ? & ?).
    simpl. intros ?. simplify_eq. done.
  - intros [Hp (Hr & Hg & Hb)].
    assert (E : badParts (channelParts rgbString) = false).
    { apply badParts_false. by exists (r c), (g c), (b c). }
    rewrite E, Hp. simpl. by destruct c.
Qed.

(** X17.  [parseRGBColor] reads back every 8-bit colour written as three
    decimal numbers separated by commas, also with white space before a
    number and with anything after it that has no comma and does not
    start with a digit (white space, 'px', '.5'): what follows the digits
    is ignored. *)
Theorem parseRGBColor_round_trip c l1 j1 l2 j2 l3 j3 :
  validColor c →
  blank l1 → blank l2 → blank l3 →
  trailing j1 → trailing j2 → trailing j3 →
  parseRGBColor (l1 +:+ pretty (r c) +:+ j1 +:+ ","
                 +:+ l2 +:+ pretty (g c) +:+ j2 +:+ ","
                 +:+ l3 +:+ pretty (b c) +:+ j3)
  = Some c.
Proof.
  intros (Hr & Hg & Hb) Hl1 Hl2 Hl3 Hj1 Hj2 Hj3.
  destruct (parseInt_padded l1 (r c) j1 Hr Hl1 Hj1) as [P1 C1].
  destruct (parseInt_padded l2 (g c) j2 Hg Hl2 Hj2) as [P2 C2].
  destruct (parseInt_padded l3 (b c) j3 Hb Hl3 Hj3) as [P3 C3].
  apply parseRGBColor_Some. split; [|done].
  unfold channelParts.
  assert (E : l1 +:+ pretty (r c) +:+ j1 +:+ "," +:+ l2 +:+ pretty (g c) +:+ j2
              +:+ "," +:+ l3 +:+ pretty (b c) +:+ j3
              = (l1 +:+ pretty (r c) +:+ j1)
                +:+ String "," ((l2 +:+ pretty (g c) +:+ j2)
                                +:+ String "," (l3 +:+ pretty (b c) +:+ j3))).
  { rewrite !append_assoc. done. }
  rewrite E, !split_at_separator, split_no_separator by done.
  simpl. by rewrite P1, P2, P3.
Qed.


Lemma parseRGBColor_valid rgbString c :
  parseRGBColor rgbString = Some c → validColor c.
Proof. intros H. by apply parseRGBColor_Some in H as [_ ?]. Qed.


Lemma parseLoop_invariant (P : CliOptions → Prop) :
  (∀ setting options, fromFlag setting → P options → P (assign setting options)) →
  ∀ args options, P options → P (parseLoop args options).
Proof.
  intros Hstep args.
  assert (H : ∀ n args, (length args ≤ n)%nat →
                ∀ options, P options → P (parseLoop args options)).
  { clear args. induction n as [|n IH]; intros args Hlen options HP.
    { destruct args; [done|simpl in Hlen; lia]. }
    destruct args as [|arg rest]; [done|]. simpl in Hlen.
    assert (Hafter : (length (following rest) ≤ n)%nat).
    { destruct rest; simpl in *; lia. }
    cbn [parseLoop].
    repeat match goal with
           | |- P (if ?b then _ else _) => destruct b
           end;
      apply IH; try lia; try done; apply Hstep; done. }
  intros options. by apply (H (length args)).
Qed.

Lemma parseLoop_parsed args :
  cli_targetColorParsed (parseLoop args defaultOptions) = None
  ∧ cli_textColorsParsed (parseLoop args defaultOptions) = None.
Proof.
  apply (parseLoop_invariant
           (λ o, cli_targetColorParsed o = None ∧ cli_textColorsParsed o = None));
    [|done].
  intros setting options Hs [H1 H2]. by destruct setting.
Qed.

Lemma oneOf_elem allowed v :
  oneOf allowed v = true ↔ ∃ s, v = Some s ∧ s ∈ allowed.
Proof.
  unfold oneOf. destruct v as [s|].
  - rewrite existsb_exists. split.
    + intros (s' & Hin & E). apply String.eqb_eq in E. subst s'.
      exists s. split; [done|]. by apply list_elem_of_In.
    + intros (s' & E & Hin). simplify_eq. exists s'.
      split; [by apply list_elem_of_In|apply String.eqb_refl].
  - split; [done|]. intros (? & ? & _). done.
Qed.

Lemma parseTextColor_inr colorStr c :
  parseTextColor colorStr = inr c ↔ parseRGBColor colorStr = Some c.
Proof.
  unfold parseTextColor, parseRGBColor.
  destruct (badParts _); [done|]. destruct (colorOfParts _); [|done].
  split; intros ?; by simplify_eq.
Qed.

Lemma parseTextColor_inl colorStr error :
  parseTextColor colorStr = inl error →
  error = textColorError ∧ parseRGBColor colorStr = None.
Proof.
  unfold parseTextColor, parseRGBColor.
  destruct (badParts _); [intros ?; by simplify_eq|].
  destruct (colorOfParts _); [done|]. intros ?. by simplify_eq.
Qed.

Lemma mapThrowing_inr {A B} (f : A → string + B) l bs :
  mapThrowing f l = inr bs → Forall2 (λ a b, f a = inr b) l bs.
Proof.
  revert bs. induction l as [|a l IH]; intros bs; simpl.
  { intros ?. simplify_eq. constructor. }
  destruct (f a) as [|b] eqn:Ea; [done|].
  destruct (mapThrowing f l) as [|bs']; [done|].
  intros ?. simplify_eq. constructor; [done|]. by apply IH.
Qed.

Lemma mapThrowing_inl {A B} (f : A → string + B) l error :
  mapThrowing f l = inl error → ∃ a, a ∈ l ∧ f a = inl error.
Proof.
  induction l as [|a l IH]; simpl; [done|].
  destruct (f a) as [e|b] eqn:Ea.
  - intros ?. simplify_eq. exists a. split; [left|done].
  - destruct (mapThrowing f l) as [e|bs']; [|done].
    intros ?. simplify_eq. destruct IH as (a' & ? & ?); [done|].
    exists a'. split; [by right|done].
Qed.

Lemma mapThrowing_first {A B} (f : A → string + B) l a error :
  a ∈ l → f a = inl error → (∀ a' e, f a' = inl e → e = error) →
  mapThrowing f l = inl error.
Proof.
  intros Hin Ha Hsame. induction l as [|a0 l IH]; [by apply elem_of_nil in Hin|].
  simpl. destruct (f a0) as [e|b] eqn:E0.
  { by rewrite (Hsame a0 e E0). }
  apply elem_of_cons in Hin as [->|Hin]; [congruence|].
  by rewrite (IH Hin).
Qed.

Lemma split_nonempty separator s : split separator s ≠ [].
Proof.
  destruct s as [|c s]; [done|]. simpl.
  destruct (Ascii.eqb c separator); [done|]. by destruct (split separator s).
Qed.

Lemma parseArgs_validated_facts args lines options :
  parseArgs args = (lines, Returns options) →
  lines = []
  ∧ cli_mode options ∈ [Some "ai"; Some "color"; Some "hybrid"]%string
  ∧ cli_format options ∈ [Some "png"; Some "webp"]%string
  ∧ (cli_mode options = Some "color"%string →
     ∃ c, cli_targetColorParsed options = Some c)
  ∧ (∀ c, cli_targetColorParsed options = Some c →
          validColor c
          ∧ ∃ s, cli_targetColor options = Some s ∧ parseRGBColor s = Some c)
  ∧ (∀ colors, cli_textColorsParsed options = Some colors →
               colors ≠ [] ∧ Forall validColor colors).
Proof.
  unfold parseArgs.
  destruct (parseLoop_parsed args) as [Hp1 Hp2].
  set (o := parseLoop args defaultOptions) in *.
  destruct (oneOf _ (cli_mode o)) eqn:Hmode; [|done]. cbn [negb].
  apply oneOf_elem in Hmode as (m & Em & Hm).
  destruct (bool_decide (cli_mode o = Some "color"%string)
            && negb (truthy (cli_targetColor o))) eqn:Hcol; [done|].
  set (parsed := if truthy (cli_targetColor o) then _ else None).
  assert (Hparsed : parsed = None ∧ truthy (cli_targetColor o) = false
                    ∨ ∃ s, cli_targetColor o = Some s
                           ∧ parsed = Some (parseRGBColor s)).
  { unfold parsed. destruct (cli_targetColor o) as [[|? ?]|]; simpl;
      try (left; done). right. by eexists. }
  set (o' := match parsed with
             | Some rgb => assign (SetTargetColorParsed rgb) o
             | None => o
             end).
  assert (Ho' : cli_mode o' = cli_mode o ∧ cli_format o' = cli_format o
                ∧ cli_textColors o' = cli_textColors o
                ∧ cli_targetColor o' = cli_targetColor o
                ∧ cli_textColorsParsed o' = None
                ∧ cli_targetColorParsed o' = default None parsed).
  { unfold o'. destruct parsed; simpl; by rewrite ?Hp1, ?Hp2. }
  destruct Ho' as (Em' & Ef' & Et' & Etc' & Ep2' & Ep1').
  assert (Hcore : ∀ final,
    cli_mode final = cli_mode o' → cli_format final = cli_format o' →
    cli_targetColor final = cli_targetColor o' →
    cli_targetColorParsed final = cli_targetColorParsed o' →
    oneOf ["png"; "webp"]%string (cli_format o') = true →
    (∀ rgb, parsed = Some rgb → rgb ≠ None) →
    cli_mode final ∈ [Some "ai"; Some "color"; Some "hybrid"]%string
    ∧ cli_format final ∈ [Some "png"; Some "webp"]%string
    ∧ (cli_mode final = Some "color"%string →
       ∃ c, cli_targetColorParsed final = Some c)
    ∧ (∀ c, cli_targetColorParsed final = Some c →
            validColor c
            ∧ ∃ s, cli_targetColor final = Some s ∧ parseRGBColor s = Some c)).
  { intros final F1 F2 F3 F4 Hfmt Hrgb.
    rewrite F1, F2, F3, F4, Em', Etc', Ep1', Em.
    split.
    { rewrite !elem_of_cons in Hm. rewrite !elem_of_cons.
      destruct Hm as [->|[->|[->|?%elem_of_nil]]]; tauto. }
    split.
    { apply oneOf_elem in Hfmt as (f & -> & Hf).
      rewrite !elem_of_cons in Hf. rewrite !elem_of_cons.
      destruct Hf as [->|[->|?%elem_of_nil]]; tauto. }
    split.
    - intros Hc. rewrite <- Em in Hc.
      rewrite (bool_decide_eq_true_2 _ Hc) in Hcol. simpl in Hcol.
      apply negb_false_iff in Hcol.
      destruct Hparsed as [[_ Hf]|(s & Es & ->)]; [congruence|].
      simpl. destruct (parseRGBColor s) as [c|] eqn:Ec; [by exists c|].
      by destruct (Hrgb None).
    - intros c Hc. destruct Hparsed as [[-> _]|(s & Es & ->)]; [done|].
      simpl in Hc. split; [by eapply parseRGBColor_valid|]. by exists s. }
  assert (Hcolors : ∀ colors,
    mapThrowing parseTextColor
      (split ";" (default EmptyString (cli_textColors o'))) = inr colors →
    colors ≠ [] ∧ Forall validColor colors).
  { intros colors Emap. apply mapThrowing_inr in Emap. split.
    - intros ->. apply Forall2_nil_inv_r in Emap.
      by apply (split_nonempty ";" (default EmptyString (cli_textColors o'))).
    - apply Forall_forall. intros c' Hin.
      apply list_elem_of_lookup in Hin as [i Hi].
      destruct (Forall2_lookup_r _ _ _ _ _ Emap Hi) as (piece & _ & Hpiece).
      apply parseTextColor_inr in Hpiece. by eapply parseRGBColor_valid. }
  assert (Hgo : ∀ result : list string * Completion CliOptions,
    (∀ rgb, parsed = Some rgb → rgb ≠ None) →
    (if negb (oneOf ["png"; "webp"]%string (cli_format o')) then
       ([ansiRed +:+ "Error: Invalid format. Use 'png' or 'webp'" +:+ ansiReset],
        Exits 1)
     else if truthy (cli_textColors o') then
       match mapThrowing parseTextColor
               (split ";" (default EmptyString (cli_textColors o'))) with
       | inl error => ([], Throws error)
       | inr colors => ([], Returns (assign (SetTextColorsParsed (Some colors)) o'))
       end
     else ([], Returns o')) = result →
    result = (lines, Returns options) →
    lines = []
    ∧ cli_mode options ∈ [Some "ai"; Some "color"; Some "hybrid"]%string
    ∧ cli_format options ∈ [Some "png"; Some "webp"]%string
    ∧ (cli_mode options = Some "color"%string →
       ∃ c, cli_targetColorParsed options = Some c)
    ∧ (∀ c, cli_targetColorParsed options = Some c →
            validColor c
            ∧ ∃ s, cli_targetColor options = Some s ∧ parseRGBColor s = Some c)
    ∧ (∀ colors, cli_textColorsParsed options = Some colors →
                 colors ≠ [] ∧ Forall validColor colors)).
  { intros result Hrgb <-.
    destruct (oneOf _ (cli_format o')) eqn:Hfmt; [|done]. cbn [negb].
    destruct (truthy (cli_textColors o')).
    - destruct (mapThrowing _ _) as [error|colors] eqn:Emap; [done|].
      intros [= <- <-]. split; [done|].
      destruct (Hcore (assign (SetTextColorsParsed (Some colors)) o')
                  eq_refl eq_refl eq_refl eq_refl eq_refl Hrgb) as (H1 & H2 & H3 & H4).
      do 4 (split; [done|]).
      intros colors' Hc'. simpl in Hc'. injection Hc' as <-. by apply Hcolors.
    - intros [= <- <-]. split; [done|].
      destruct (Hcore o' eq_refl eq_refl eq_refl eq_refl eq_refl Hrgb)
        as (H1 & H2 & H3 & H4).
      do 4 (split; [done|]). intros colors. by rewrite Ep2'. }
  clearbody parsed o'.
  destruct parsed as [[c|]|]; [|done|]; intros Hret;
    (eapply Hgo; [|reflexivity|exact Hret]); intros rgb ?; by simplify_eq.
Qed.

(** X19.  How [parseArgs] ends otherwise.  It throws only for a malformed
    text colour, and then the error is the [ReferenceError] of the
    uninitialised [colors], with nothing written to the console (the
    intended message is never printed).  It exits only with code 1, after
    writing to the console, for an invalid mode, a colour mode without
    target colour, a malformed target colour or an invalid format: never
    for a threshold, feather, padding or text colour.  And
    [--text-colors s] with a malformed colour in [s] does throw. *)
Theorem parseArgs_failures args :
  (∀ lines error,
      parseArgs args = (lines, Throws error) →
      lines = [] ∧ error = textColorError
      ∧ ∃ s piece,
          cli_textColors (parseLoop args defaultOptions) = Some s
          ∧ piece ∈ split ";" s ∧ parseRGBColor piece = None)
  ∧ (∀ lines code,
      parseArgs args = (lines, Exits code) →
      code = 1 ∧ lines ≠ []
      ∧ (oneOf ["ai"; "color"; "hybrid"]%string
               (cli_mode (parseLoop args defaultOptions)) = false
         ∨ (cli_mode (parseLoop args defaultOptions) = Some "color"%string
            ∧ truthy (cli_targetColor (parseLoop args defaultOptions)) = false)
         ∨ (∃ s, cli_targetColor (parseLoop args defaultOptions) = Some s
                 ∧ parseRGBColor s = None)
         ∨ oneOf ["png"; "webp"]%string
                 (cli_format (parseLoop args defaultOptions)) = false))
  ∧ (∀ s piece,
      s ≠ EmptyString → piece ∈ split ";" s → parseRGBColor piece = None →
      parseArgs ["--text-colors"%string; s] = ([], Throws textColorError)).
Proof.
  unfold parseArgs. set (o := parseLoop args defaultOptions).
  assert (Hshape : ∀ parsed : option (option RGBColor),
    let o' := match parsed with
              | Some rgb => assign (SetTargetColorParsed rgb) o
              | None => o
              end in
    cli_format o' = cli_format o ∧ cli_textColors o' = cli_textColors o).
  { intros [rgb|]; done. }
  split; [|split].
  - intros lines error.
    destruct (oneOf _ (cli_mode o)); [|done]. cbn [negb].
    destruct (_ && _); [done|].
    set (parsed := if truthy (cli_targetColor o) then _ else None).
    destruct (Hshape parsed) as [Ef Et]. clearbody parsed.
    destruct parsed as [[c|]|]; [|done|].
    all: destruct (oneOf _ (cli_format _)); [|done]; cbn [negb].
    all: try rewrite Et; destruct (cli_textColors o) as [[|c0 s0]|] eqn:Es; try done.
    all: cbn [truthy default].
    all: destruct (mapThrowing _ _) as [e|colors] eqn:Emap; [|done].
    all: intros [= <- <-]; split; [done|].
    all: apply mapThrowing_inl in Emap as (piece & Hin & Hpiece).
    all: apply parseTextColor_inl in Hpiece as [-> Hnone].
    all: split; [done|]; by exists (String c0 s0), piece.
  - intros lines code.
    destruct (oneOf _ (cli_mode o)) eqn:Hmode; cbn [negb].
    2: { intros [= <- <-]. split; [done|]. split; [done|]. by left. }
    destruct (bool_decide _ && _) eqn:Hcol.
    { intros [= <- <-]. split; [done|]. split; [done|]. right. left.
      apply andb_true_iff in Hcol as [Hc Ht].
      apply bool_decide_eq_true in Hc. apply negb_true_iff in Ht. done. }
    set (parsed := if truthy (cli_targetColor o) then _ else None).
    assert (Hbad : parsed = Some None →
                   ∃ s, cli_targetColor o = Some s ∧ parseRGBColor s = None).
    { unfold parsed. destruct (cli_targetColor o) as [[|c0 s0]|]; try done.
      simpl. intros [= E]. by eexists. }
    destruct (Hshape parsed) as [Ef Et]. clearbody parsed.
    destruct parsed as [[c|]|].
    2: { intros [= <- <-]. split; [done|]. split; [done|]. right. right. left.
         by apply Hbad. }
    all: destruct (oneOf _ (cli_format _)) eqn:Hfmt; cbn [negb].
    2, 4: intros [= <- <-]; split; [done|]; split; [done|]; do 3 right;
          done.
    all: destruct (truthy (cli_textColors _)); [|done]; by destruct (mapThrowing _ _).
  - intros s piece Hs Hin Hnone. clear o Hshape.
    assert (Et : truthy (Some s) = true) by (by destruct s).
    assert (Emap : mapThrowing parseTextColor (split ";" s) = inl textColorError).
    { apply (mapThrowing_first _ _ piece); [done| |].
      - unfold parseTextColor. unfold parseRGBColor in Hnone.
        destruct (badParts _); [done|]. by rewrite Hnone.
      - intros a e He. by apply parseTextColor_inl in He as [-> _]. }
    set (o := parseLoop ["--text-colors"%string; s] defaultOptions).
    assert (Hm : cli_mode o = Some "ai"%string) by reflexivity.
    assert (Htc : cli_targetColor o = None) by reflexivity.
    assert (Hf : cli_format o = Some "png"%string) by reflexivity.
    assert (Hs' : cli_textColors o = Some s) by reflexivity.
    clearbody o. rewrite Hm, Htc.
    assert (oneOf ["ai"; "color"; "hybrid"]%string (Some "ai"%string) = true) as ->
      by reflexivity.
    assert (bool_decide (Some "ai"%string = Some "color"%string) = false) as ->
      by reflexivity.
    cbn [negb andb truthy]. rewrite Hf.
    assert (oneOf ["png"; "webp"]%string (Some "png"%string) = true) as ->
      by reflexivity.
    cbn [negb]. rewrite Hs', Et.
    change (default EmptyString (Some s)) with s. by rewrite Emap.
Qed.


(* ================================================================= *)
(** ** The metric, the constructor, the timestamp *)

Section MetricFacts.
Local Open Scope Q_scope.

Lemma js_sqrt_positive n : (1 ≤ n)%Z → 1 <= js_sqrt n.
Proof.
  intros Hn. rewrite <- (root_exact 1) by lia. by apply js_sqrt_mono.
Qed.

Lemma js_sqrt_zero n : js_sqrt n == 0 ↔ (n ≤ 0)%Z.
Proof.
  split.
  - intros E. destruct (Z.le_gt_cases n 0) as [|Hpos]; [done|].
    pose proof (js_sqrt_positive n ltac:(lia)). lra.
  - intros Hn. unfold js_sqrt. by rewrite (proj2 (Z.leb_le n 0)).
Qed.

End MetricFacts.

Lemma squaredDistance_sym c1 c2 : squaredDistance c1 c2 = squaredDistance c2 c1.
Proof. unfold squaredDistance. ring. Qed.

Lemma squaredDistance_zero c1 c2 : squaredDistance c1 c2 ≤ 0 ↔ c1 = c2.
Proof.
  unfold squaredDistance. destruct c1 as [r1 g1 b1], c2 as [r2 g2 b2]. simpl.
  pose proof (Z.square_nonneg (r1 - r2)).
  pose proof (Z.square_nonneg (g1 - g2)).
  pose proof (Z.square_nonneg (b1 - b2)).
  split.
  - intros Hzero.
    assert (E1 : (r1 - r2) * (r1 - r2) = 0) by lia.
    assert (E2 : (g1 - g2) * (g1 - g2) = 0) by lia.
    assert (E3 : (b1 - b2) * (b1 - b2) = 0) by lia.
    apply Z.mul_eq_0 in E1, E2, E3. f_equal; lia.
  - intros ?. simplify_eq. lia.
Qed.

(** X1.  [calculateColorDistance] is symmetric, is 0 exactly when the two colours
    are equal, and for 8-bit colours lies between 0 and the distance from
    black to white, which is above 441 and below 442 (the comment's range
    0-441 is exceeded). *)
Theorem color_distance_metric :
  (∀ c1 c2, calculateColorDistance c1 c2 = calculateColorDistance c2 c1)
  ∧ (∀ c1 c2, (calculateColorDistance c1 c2 == 0)%Q ↔ c1 = c2)
  ∧ (∀ c1 c2,
        validColor c1 → validColor c2 →
        (0 <= calculateColorDistance c1 c2
         ∧ calculateColorDistance c1 c2 <= calculateColorDistance black white)%Q)
  ∧ (441 < calculateColorDistance black white
     ∧ calculateColorDistance black white < 442)%Q.
Proof.
  split; [|split; [|split]].
  - intros c1 c2. rewrite !calculateColorDistance_root.
    by rewrite squaredDistance_sym.
  - intros c1 c2. rewrite calculateColorDistance_root, js_sqrt_zero.
    apply squaredDistance_zero.
  - intros c1 c2 H1 H2. rewrite !calculateColorDistance_root.
    split; [apply js_sqrt_nonneg|]. apply js_sqrt_mono.
    pose proof (squaredDistance_range c1 c2 H1 H2).
    change (squaredDistance black white) with 195075. lia.
  - rewrite calculateColorDistance_root.
    change (squaredDistance black white) with 195075. split; [|apply root_top].
    eapply Qlt_le_trans; [apply (root_above 441); lia|].
    apply js_sqrt_mono. lia.
Qed.

(** X2.  The constructor's [||] defaults.  Whatever the options, the
    engine's [threshold], [textPadding] and [textThreshold] are never 0 and
    its [mode] and [textDetectionMode] are never empty: a requested 0 gives
    50, 5 and 40, and every non-zero number is kept as given. *)
Theorem constructor_defaults options :
  threshold (constructor options) ≠ 0
  ∧ textPadding (constructor options) ≠ 0
  ∧ textThreshold (constructor options) ≠ 0
  ∧ mode (constructor options) ≠ EmptyString
  ∧ textDetectionMode (constructor options) ≠ EmptyString
  ∧ (opt_threshold options = Some 0 → threshold (constructor options) = 50)
  ∧ (opt_textPadding options = Some 0 → textPadding (constructor options) = 5)
  ∧ (opt_textThreshold options = Some 0 → textThreshold (constructor options) = 40)
  ∧ (∀ n, n ≠ 0 →
          (opt_threshold options = Some n → threshold (constructor options) = n)
          ∧ (opt_feather options = Some n → feather (constructor options) = n)
          ∧ (opt_textPadding options = Some n → textPadding (constructor options) = n)
          ∧ (opt_textThreshold options = Some n →
             textThreshold (constructor options) = n)).
Proof.
  assert (Hnz : ∀ v d, d ≠ 0 → numberOr v d ≠ 0).
  { intros [n|] d Hd; simpl; [|done]. by destruct (Z.eqb_spec n 0). }
  assert (Hkeep : ∀ n d, n ≠ 0 → numberOr (Some n) d = n).
  { intros n d Hn. simpl. by destruct (Z.eqb_spec n 0). }
  assert (Hstr : ∀ v d, d ≠ EmptyString → stringOr v d ≠ EmptyString).
  { intros [[|? ?]|] d Hd; done. }
  unfold constructor. simpl.
  split; [by apply Hnz|]. split; [by apply Hnz|]. split; [by apply Hnz|].
  split; [by apply Hstr|]. split; [by apply Hstr|].
  split; [by intros ->|]. split; [by intros ->|]. split; [by intros ->|].
  intros n Hn. repeat split; intros ->; by apply Hkeep.
Qed.

Lemma split_none separator s :
  allChars (λ c, negb (Ascii.eqb c separator)) s = true →
  split separator s = [s].
Proof.
  induction s as [|c s IH]; [done|]. simpl. rewrite andb_true_iff.
  intros [Hc Hs]. apply negb_true_iff in Hc. rewrite Hc, (IH Hs). done.
Qed.

Lemma dashed_clean s :
  allChars (λ c, negb (Ascii.eqb c ":") && negb (Ascii.eqb c ".")) (dashed s) = true.
Proof.
  induction s as [|c s IH]; [done|]. simpl. rewrite IH, andb_true_r.
  destruct (Ascii.eqb c ":") eqn:E1; [done|].
  destruct (Ascii.eqb c ".") eqn:E2; [done|]. simpl. by rewrite E1, E2.
Qed.

Lemma dashed_get s n c :
  String.get n s = Some c →
  String.get n (dashed s)
  = Some (if Ascii.eqb c ":" || Ascii.eqb c "." then "-"%char else c).
Proof.
  revert n. induction s as [|c0 s IH]; intros n; [done|].
  destruct n as [|n]; simpl.
  - intros ?. by simplify_eq.
  - apply IH.
Qed.

Lemma dashed_length s : String.length (dashed s) = String.length s.
Proof. induction s as [|c s IH]; [done|]. simpl. by rewrite IH. Qed.

(** X16.  [getTimestamp] replaces every ':' and '.' of the ISO string by '-'
    and changes nothing else: the [split('.')[0]] that follows finds no
    '.' to cut at, so the result has the length of the ISO string (the
    milliseconds and the final 'Z' stay) and holds no ':' and no '.'. *)
Theorem timestamp_keeps_everything iso :
  getTimestamp iso = dashed iso
  ∧ String.length (getTimestamp iso) = String.length iso
  ∧ allChars (λ c, negb (Ascii.eqb c ":") && negb (Ascii.eqb c "."))
             (getTimestamp iso) = true
  ∧ ∀ n c,
      String.get n iso = Some c →
      String.get n (getTimestamp iso)
      = Some (if Ascii.eqb c ":" || Ascii.eqb c "." then "-"%char else c).
Proof.
  assert (E : getTimestamp iso = dashed iso).
  { unfold getTimestamp. rewrite split_none; [done|].
    eapply allChars_impl; [|apply dashed_clean].
    intros c Hc. by apply andb_true_iff in Hc as [_ ?]. }
  rewrite E. split; [done|]. split; [apply dashed_length|].
  split; [apply dashed_clean|]. intros n c. apply dashed_get.
Qed.

(** X20.  The engine [main] builds from the command line: its mode is one of
    the three, it is not verbose and has no pass list (multi-pass is out of
    the command line's reach), its [threshold], [textPadding] and
    [textThreshold] are never 0 (a threshold that is 0 or not a number
    gives 50), in colour mode it has an 8-bit target colour (so the
    engine's own 'Target color not specified' cannot occur), and its text
    colours are a non-empty list of 8-bit colours. *)
Theorem cli_core_configuration args lines options :
  parseArgs args = (lines, Returns options) →
  mode (mainCore options) ∈ ["ai"; "color"; "hybrid"]%string
  ∧ verbose (mainCore options) = false
  ∧ colorPasses (mainCore options) = None
  ∧ threshold (mainCore options) ≠ 0
  ∧ textPadding (mainCore options) ≠ 0
  ∧ textThreshold (mainCore options) ≠ 0
  ∧ (cli_threshold options = None ∨ cli_threshold options = Some 0 →
     threshold (mainCore options) = 50)
  ∧ (mode (mainCore options) = "color"%string →
     ∃ c, targetColor (mainCore options) = Some c ∧ validColor c)
  ∧ textColors (mainCore options) ≠ []
  ∧ Forall validColor (textColors (mainCore options)).
Proof.
  intros Hret.
  destruct (parseArgs_validated_facts args lines options Hret)
    as (_ & Hmode & _ & Hcol & Hvalid & Htext).
  assert (Hnz : ∀ v d, d ≠ 0 → numberOr v d ≠ 0).
  { intros [n|] d Hd; simpl; [|done]. by destruct (Z.eqb_spec n 0). }
  unfold mainCore, constructor, coreOptions. simpl.
  assert (Em : ∃ m, cli_mode options = Some m ∧ m ∈ ["ai"; "color"; "hybrid"]%string
                    ∧ stringOr (cli_mode options) "ai" = m).
  { rewrite !elem_of_cons in Hmode.
    destruct Hmode as [->|[->|[->|?%elem_of_nil]]]; [| | |done];
      eexists; (split; [done|]); rewrite !elem_of_cons; simpl; tauto. }
  destruct Em as (m & Em & Hm & ->).
  split; [done|]. split; [done|]. split; [done|].
  split; [by apply Hnz|]. split; [by apply Hnz|]. split; [by apply Hnz|].
  split; [intros [->| ->]; done|].
  split.
  { intros ->. destruct (Hcol Em) as [c Hc]. exists c. split; [done|].
    by apply Hvalid. }
  destruct (cli_textColorsParsed options) as [colors|] eqn:Ec; simpl.
  - by apply Htext.
  - split; [done|]. repeat constructor; unfold isByte; simpl; lia.
Qed.

(* ================================================================= *)
(** ** AI mode, the router and the batch loop *)

Lemma ai_run_cases scene format log :
  ∃ b events,
    removeBackgroundAI scene format log = (inr b, log ++ events)
    ∧ (b = true
       ↔ fileExists (world scene) = true
         ∧ isSupported (inputExt (world scene)) = true
         ∧ succeeded (segmentation scene) = true
         ∧ outputDirError scene = None ∧ writeError scene = None)
    ∧ (b = true →
       ∃ bytes,
         segmentation scene = inr bytes
         ∧ events
           = MadeDirectory
             :: (if String.eqb format "webp"
                 then [ConsoleWarn
                         "  Warning: WebP output not available. Saving as PNG instead."]
                 else [])
             ++ [WroteFile bytes])
    ∧ (b = false →
       ∃ steps message,
         events = steps ++ [Engine (ConsoleError message)]
         ∧ ∀ bytes, WroteFile bytes ∉ steps).
Proof.
  unfold removeBackgroundAI, Job.tryCatch. unfold Job.bind at 1, Job.call.
  destruct (checkInput_cases (world scene) []) as [(He & Hs & ->)|[Hbad [message ->]]].
  2: { exists false. eexists. split; [simpl; rewrite app_nil_r; reflexivity|]. split.
       - split; [done|]. intros (? & ? & _). destruct Hbad; congruence.
       - split; [done|]. intros _. exists []. eexists. split; [reflexivity|].
         intros bytes. apply not_elem_of_nil. }
  simpl. rewrite app_nil_r. unfold Job.bind at 1, Job.await.
  destruct (segmentation scene) as [message|bytes].
  { exists false. eexists. split; [reflexivity|]. split.
    - split; [done|]. intros (_ & _ & ? & _). done.
    - split; [done|]. intros _. exists []. eexists. split; [reflexivity|].
      intros ?. apply not_elem_of_nil. }
  unfold Job.bind at 1, makeDirectory.
  destruct (outputDirError scene) as [message|].
  { exists false. eexists. split; [reflexivity|]. split.
    - split; [done|]. intros (_ & _ & _ & ? & _). done.
    - split; [done|]. intros _. exists []. eexists. split; [reflexivity|].
      intros ?. apply not_elem_of_nil. }
  unfold Job.emit at 1. unfold Job.bind at 1.
  set (warning := ConsoleWarn _).
  assert (Hwarn : (if String.eqb format "webp" then Job.emit warning else Job.ret tt)
                    (log ++ [MadeDirectory])
                  = (inr tt, log ++ MadeDirectory
                               :: (if String.eqb format "webp" then [warning] else []))).
  { destruct (String.eqb format "webp"); unfold Job.emit, Job.ret;
      by rewrite <- ?app_assoc. }
  rewrite Hwarn. unfold Job.bind, writeFile.
  destruct (writeError scene) as [message|].
  - exists false. eexists. split.
    + unfold Job.throw, Job.emit, Job.ret. simpl. rewrite <- app_assoc. reflexivity.
    + split; [split; [done|]; intros (_ & _ & _ & _ & ?); done|].
      split; [done|]. intros _. eexists. eexists. split; [reflexivity|].
      intros bytes'. destruct (String.eqb format "webp");
        rewrite ?elem_of_cons, ?elem_of_nil; intros H; decompose [or] H; done.
  - exists true. eexists. split.
    + unfold Job.emit, Job.ret. simpl. rewrite <- app_assoc. reflexivity.
    + split; [done|]. split; [|done]. intros _. exists bytes. done.
Qed.

Lemma call_outcome {A} (m : Run A) (outcome : string + A) events log :
  m [] = (outcome, events) →
  Job.call m log = (outcome, log ++ (Engine <$> events)).
Proof. intros H. unfold Job.call. by rewrite H. Qed.

(** For the three modes the router never throws, and tells whether the
    image's run went through. *)
Lemma removeBackground_known this scene format log :
  knownMode this = true →
  ∃ events,
    removeBackground this scene format log
    = (inr (runSucceeds this scene), log ++ events).
Proof.
  unfold knownMode, removeBackground, runSucceeds. intros Hk.
  destruct (String.eqb (mode this) "ai").
  { destruct (ai_run_cases scene format log) as (b & events & -> & Hiff & _).
    exists events. do 2 f_equal. apply eq_true_iff_eq. rewrite Hiff.
    rewrite !andb_true_iff, !bool_decide_eq_true. tauto. }
  destruct (String.eqb (mode this) "color").
  { destruct (color_run_cases this (world scene) []) as (b & events & Hrun & Hiff & _).
    exists (Engine <$> events). rewrite (call_outcome _ _ _ _ Hrun).
    do 2 f_equal. apply eq_true_iff_eq. rewrite Hiff.
    rewrite !andb_true_iff, !bool_decide_eq_true. tauto. }
  destruct (String.eqb (mode this) "hybrid"); [|done].
  destruct (hybrid_run_cases this (world scene) []) as (b & events & Hrun & Hiff & _).
  exists (Engine <$> events). rewrite (call_outcome _ _ _ _ Hrun).
  do 2 f_equal. apply eq_true_iff_eq. rewrite Hiff.
  rewrite !andb_true_iff, negb_true_iff, !bool_decide_eq_true. tauto.
Qed.

Lemma processFiles_known this format count i entries stats log :
  knownMode this = true →
  ∃ events,
    processFiles this format count i entries stats log
    = (inr (tally this stats entries), log ++ events).
Proof.
  intros Hk. revert i stats log.
  induction entries as [|entry rest IH]; intros i stats log.
  { exists []. by rewrite app_nil_r. }
  cbn [processFiles]. unfold Job.bind at 1, Job.emit at 1.
  unfold Job.bind at 1.
  destruct (removeBackground_known this (scene entry) format
              (log ++ [ConsoleLog ("[" +:+ pretty (i + 1)%nat +:+ "/" +:+ pretty count
                                   +:+ "] Processing: " +:+ file entry)]) Hk)
    as [events ->].
  unfold Job.bind at 1, Job.emit at 1.
  destruct (IH (S i) (record (runSucceeds this (scene entry)) entry stats)
              (((log ++ [ConsoleLog ("[" +:+ pretty (i + 1)%nat +:+ "/" +:+ pretty count
                                   +:+ "] Processing: " +:+ file entry)]) ++ events)
               ++ [ConsoleLog EmptyString]))
    as [events' ->].
  eexists. rewrite <- !app_assoc. reflexivity.
Qed.

Lemma tally_spec this stats entries :
  total (tally this stats entries) = total stats
  ∧ skipped (tally this stats entries) = skipped stats
  ∧ success (tally this stats entries)
    = success stats
      + Z.of_nat (length (List.filter (λ entry, runSucceeds this (scene entry)) entries))
  ∧ failed (tally this stats entries)
    = failed stats
      + Z.of_nat (length (List.filter (λ entry, negb (runSucceeds this (scene entry)))
                                      entries))
  ∧ files (tally this stats entries) = files stats ++ (reportOf this <$> entries).
Proof.
  revert stats. induction entries as [|entry rest IH]; intros stats.
  { simpl. rewrite app_nil_r. repeat split; lia. }
  unfold tally in *. cbn [foldl List.filter].
  destruct (IH (record (runSucceeds this (scene entry)) entry stats))
    as (-> & -> & -> & -> & ->).
  rewrite fmap_cons. unfold record.
  assert (Hr : reportOf this entry
               = if runSucceeds this (scene entry) then succeededReport entry
                 else failedReport entry) by done.
  rewrite Hr. clear Hr.
  destruct (runSucceeds this (scene entry));
    cbn [total success failed skipped files negb length];
    repeat split; rewrite <- ?app_assoc; try done; lia.
Qed.

Lemma filter_split_length {A} (f : A → bool) (l : list A) :
  (length (List.filter f l) + length (List.filter (λ a, negb (f a)) l)
   = length l)%nat.
Proof.
  induction l as [|a l IH]; [done|]. simpl. destruct (f a); simpl; lia.
Qed.

(** X14.  [processBatch], for one of the three modes, a readable input
    directory and a writable output directory: it returns, whatever happens
    to the single files.  [total] is the number of files with a supported
    extension, [success] the number of those whose own run goes through,
    [success + failed = total], [skipped] is 0, and [files] has one report
    per supported file, in directory order: the output name
    [<stem>.png] and 'success', or 'failed' with no output. *)
Theorem batch_accounting this directory format entries log :
  knownMode this = true →
  directoryExists directory = true →
  listing directory = inr entries →
  outputDirFailure directory = None →
  ∃ stats events,
    processBatch this directory format log = (inr stats, log ++ events)
    ∧ total stats = Z.of_nat (length (List.filter isSupportedFormat entries))
    ∧ success stats
      = Z.of_nat (length (List.filter (λ entry, runSucceeds this (scene entry))
                                      (List.filter isSupportedFormat entries)))
    ∧ success stats + failed stats = total stats
    ∧ skipped stats = 0
    ∧ files stats = reportOf this <$> List.filter isSupportedFormat entries.
Proof.
  intros Hk He Hl Hd. unfold processBatch, Job.tryCatch.
  unfold Job.bind at 1. rewrite He. unfold Job.ret at 1.
  unfold Job.bind at 1, Job.await. rewrite Hl.
  set (imageFiles := List.filter isSupportedFormat entries).
  destruct (Nat.eqb_spec (length imageFiles) 0) as [E0|Hne].
  { exists (newStats 0). eexists. split; [reflexivity|].
    rewrite E0. destruct imageFiles; [|done]. simpl. done. }
  unfold Job.bind at 1, Job.emit at 1. unfold Job.bind at 1, makeDirectory.
  rewrite Hd. unfold Job.emit at 1.
  destruct (processFiles_known this format (length imageFiles) 0 imageFiles
              (newStats (Z.of_nat (length imageFiles)))
              ((log ++ [ConsoleLog ("Found " +:+ pretty (length imageFiles)
                                    +:+ " image(s) to process"
                                    +:+ String "010" EmptyString)])
               ++ [MadeDirectory]) Hk) as [events ->].
  eexists. eexists. split; [rewrite <- !app_assoc; reflexivity|].
  destruct (tally_spec this (newStats (Z.of_nat (length imageFiles))) imageFiles)
    as (-> & -> & -> & -> & ->).
  simpl. pose proof (filter_split_length
                       (λ entry, runSucceeds this (scene entry)) imageFiles).
  repeat split; try done; lia.
Qed.

(** X15.  What ends [processBatch] early.  A missing input directory: the
    error is logged and thrown again.  No file with a supported extension:
    zero statistics are returned after one console line, and nothing else
    is done (the mode is not looked at).  An unknown mode with at least one
    supported file: after the count of images, the output directory and
    the first file's progress line, [Unknown mode] is thrown at the first
    file, logged once as a batch error and thrown again; no file is
    processed. *)
Theorem batch_aborts this directory format log :
  (directoryExists directory = false →
   processBatch this directory format log
   = (inl ("Input directory not found: " +:+ inputDir directory),
      log ++ [Engine (ConsoleError
                        ("Batch processing error: "
                         +:+ "Input directory not found: " +:+ inputDir directory))]))
  ∧ (∀ entries,
        directoryExists directory = true → listing directory = inr entries →
        List.filter isSupportedFormat entries = [] →
        processBatch this directory format log
        = (inr (newStats 0),
           log ++ [ConsoleLog "No supported image files found in input directory"]))
  ∧ (∀ entries entry rest,
        directoryExists directory = true → listing directory = inr entries →
        List.filter isSupportedFormat entries = entry :: rest →
        outputDirFailure directory = None → knownMode this = false →
        processBatch this directory format log
        = (inl ("Unknown mode: " +:+ mode this
                +:+ ". Use 'ai', 'color', or 'hybrid'."),
           log ++ [ ConsoleLog ("Found " +:+ pretty (length (entry :: rest))
                                +:+ " image(s) to process"
                                +:+ String "010" EmptyString);
                    MadeDirectory;
                    ConsoleLog ("[" +:+ pretty 1%nat +:+ "/"
                                +:+ pretty (length (entry :: rest))
                                +:+ "] Processing: " +:+ file entry);
                    Engine (ConsoleError
                              ("Batch processing error: "
                               +:+ "Unknown mode: " +:+ mode this
                               +:+ ". Use 'ai', 'color', or 'hybrid'.")) ])).
Proof.
  split; [|split].
  - intros He. unfold processBatch, Job.tryCatch, Job.bind. by rewrite He.
  - intros entries He Hl Hnone.
    unfold processBatch, Job.tryCatch, Job.bind, Job.await. rewrite He, Hl, Hnone.
    done.
  - intros entries entry rest He Hl Ef Hd Hk.
    unfold processBatch, Job.tryCatch. unfold Job.bind at 1. rewrite He.
    unfold Job.ret at 1. unfold Job.bind at 1, Job.await. rewrite Hl, Ef.
    cbn [length Nat.eqb]. unfold Job.bind at 1, Job.emit at 1.
    unfold Job.bind at 1, makeDirectory. rewrite Hd. unfold Job.emit at 1.
    cbn [processFiles]. unfold Job.bind at 1, Job.emit at 1.
    unfold Job.bind at 1, removeBackground.
    unfold knownMode in Hk. apply orb_false_iff in Hk as [Hk Hh].
    apply orb_false_iff in Hk as [Ha Hc]. rewrite Ha, Hc, Hh.
    unfold Job.throw, Job.emit, Job.bind.
    rewrite <- !app_assoc. reflexivity.
Qed.

(** X12.  [removeBackgroundAI] never throws.  It returns [true] exactly when
    the input exists, its extension is supported, the AI collaborator
    answers, and the output directory and file can be written; the bytes
    written are the collaborator's, whatever the format asked for: 'webp'
    only adds a warning.  It returns [false] after writing an error to the
    console, and then no file was written. *)
Theorem ai_run_outcomes scene format log :
  ∃ b events,
    removeBackgroundAI scene format log = (inr b, log ++ events)
    ∧ (b = true
       ↔ fileExists (world scene) = true
         ∧ isSupported (inputExt (world scene)) = true
         ∧ succeeded (segmentation scene) = true
         ∧ outputDirError scene = None ∧ writeError scene = None)
    ∧ (b = true →
       ∃ bytes,
         segmentation scene = inr bytes
         ∧ events
           = MadeDirectory
             :: (if String.eqb format "webp"
                 then [ConsoleWarn
                         "  Warning: WebP output not available. Saving as PNG instead."]
                 else [])
             ++ [WroteFile bytes])
    ∧ (b = false →
       ∃ steps message,
         events = steps ++ [Engine (ConsoleError message)]
         ∧ ∀ bytes, WroteFile bytes ∉ steps).
Proof. apply ai_run_cases. Qed.

(** X13.  The router [removeBackground].  For the modes 'ai', 'color' and
    'hybrid' it never throws and returns whether the image's run went
    through; for any other mode it throws [Unknown mode] before anything
    is done. *)
Theorem router_outcomes this scene format log :
  (knownMode this = true →
   ∃ events,
     removeBackground this scene format log
     = (inr (runSucceeds this scene), log ++ events))
  ∧ (knownMode this = false →
     removeBackground this scene format log
     = (inl ("Unknown mode: " +:+ mode this +:+ ". Use 'ai', 'color', or 'hybrid'."),
        log)).
Proof.
  split; [apply removeBackground_known|].
  unfold knownMode, removeBackground. intros Hk.
  apply orb_false_iff in Hk as [Hk Hh]. apply orb_false_iff in Hk as [Ha Hc].
  by rewrite Ha, Hc, Hh.
Qed.

(* ================================================================= *)
(** ** The further properties at sample inputs *)

Lemma multi_pass_is_union_witness :
  wellFormed bluePair
  ∧ pixelAt (classifyMultiPass [bluePass] bluePair) 0 0 = Some (blue, 0)
  ∧ classifyMultiPass [bluePass; bluePass] bluePair
    = classifyMultiPass [bluePass] bluePair.
Proof.
  split; [concrete_bitmap|].
  destruct (multi_pass_is_union [bluePass] bluePair ltac:(concrete_bitmap))
    as (Hpix & _ & Hsame).
  split.
  - apply (Hpix 0 0 blue 255); [simpl; lia|simpl; lia|reflexivity].
  - apply Hsame. intros pass. rewrite !elem_of_cons. tauto.
Defined.

Lemma single_pass_idempotent_witness :
  wellFormed bluePair ∧ feather (colorCore blue 10 0) = 0
  ∧ classifySinglePass (colorCore blue 10 0) blue
      (classifySinglePass (colorCore blue 10 0) blue bluePair)
    = classifySinglePass (colorCore blue 10 0) blue bluePair.
Proof.
  split; [concrete_bitmap|]. split; [reflexivity|].
  apply single_pass_idempotent; [concrete_bitmap|reflexivity].
Defined.

Lemma composite_pixel_rule_witness :
  wellFormed sampleOriginal ∧ wellFormed sampleCutout
  ∧ pixelAt (compositeRegions sampleOriginal 5 [sampleRegion] sampleCutout) 1 0
    = Some ({| r := 40; g := 50; b := 60 |}, 255).
Proof.
  split; [concrete_bitmap|]. split; [concrete_bitmap|].
  exact (composite_pixel_rule sampleOriginal sampleCutout 5 [sampleRegion] 1 0
           ltac:(concrete_bitmap) ltac:(concrete_bitmap) eq_refl eq_refl
           ltac:(simpl; lia) ltac:(simpl; lia)).
Defined.

Lemma text_mask_marks_text_colours_witness :
  wellFormed whiteCard
  ∧ Z.of_nat (length (textMaskOf (constructor noOptions) whiteCard)) = 10 * 5
  ∧ flagAt (textMaskOf (constructor noOptions) whiteCard) (2 * 10 + 3)
    = nearTextColor (constructor noOptions) white.
Proof.
  assert (Hwf : wellFormed whiteCard).
  { unfold wellFormed, whiteCard. simpl. repeat split; try lia.
    repeat constructor; unfold isByte; lia. }
  split; [exact Hwf|].
  destruct (text_mask_marks_text_colours (constructor noOptions) whiteCard Hwf)
    as (Hlen & Hflag & _).
  split; [exact Hlen|].
  apply (Hflag 3 2 white 255); [simpl; lia|simpl; lia|reflexivity].
Defined.


(** The white card of 50 pixels under an argument limit of 50, and of
    49. *)
Example white_card_restored :
  detectTextByColor 50 (constructor noOptions) whiteCard
  = Some (inr [ {| x := 0; y := 0; width := 10; height := 5;
                   info := pixelCount 50 |} ])
  ∧ compositeRegions whiteCard 5
      [ {| x := 0; y := 0; width := 10; height := 5; info := pixelCount 50 |} ]
      clearCard
    = whiteCard.
Proof. vm_compute. split; reflexivity. Qed.

Example white_card_overflows :
  detectTextByColor 49 (constructor noOptions) whiteCard
  = Some (inl stackOverflow).
Proof. vm_compute. reflexivity. Qed.

(** The hybrid run of the white card: its 50 white pixels are restored
    when they can be spread, and the run fails when they cannot. *)
Example white_card_hybrid_run :
  removeBackgroundHybrid colourDetecting (cardWorld whiteCard clearCard 50) []
  = (inr true, [Segmented; Decoded; Composited; Saved whiteCard])
  ∧ removeBackgroundHybrid colourDetecting (cardWorld whiteCard clearCard 49) []
    = (inr false,
       [Segmented; Decoded;
        ConsoleError "Error processing card.png: Maximum call stack size exceeded"]).
Proof. vm_compute. split; reflexivity. Qed.

Lemma hybrid_unknown_detection_mode_witness :
  textDetectionMode misconfigured = "colour"%string
  ∧ removeBackgroundHybrid misconfigured sampleWorld []
    = (inr true, [Segmented; Decoded; Composited; Saved sampleCutout]).
Proof.
  split; [reflexivity|].
  exact (hybrid_unknown_detection_mode misconfigured sampleWorld sampleCutout
           sampleOriginal [] ltac:(discriminate) ltac:(discriminate)
           eq_refl eq_refl eq_refl eq_refl eq_refl).
Defined.

Lemma batch_accounting_witness :
  knownMode (colorCore black 50 0) = true
  ∧ ∃ stats events,
      processBatch (colorCore black 50 0) sampleDirectory "png" []
      = (inr stats, [] ++ events)
      ∧ total stats = 2 ∧ success stats = 1 ∧ failed stats = 1
      ∧ files stats
        = [ {| input := "photo.png"; output := Some "photo.png"%string;
               status := "success" |};
            {| input := "broken.jpg"; output := None; status := "failed" |} ].
Proof.
  split; [reflexivity|].
  destruct (batch_accounting (colorCore black 50 0) sampleDirectory "png" _ []
              eq_refl eq_refl eq_refl eq_refl)
    as (stats & events & Hrun & Ht & Hs & Hsum & _ & Hf).
  exists stats, events. split; [exact Hrun|].
  change (Z.of_nat (length (List.filter isSupportedFormat _))) with 2 in Ht.
  change (Z.of_nat (length (List.filter _ _))) with 1 in Hs.
  split; [exact Ht|]. split; [exact Hs|]. split; [lia|]. exact Hf.
Defined.

Lemma parseRGBColor_round_trip_witness :
  validColor blue ∧ blank " " ∧ trailing "px"
  ∧ parseRGBColor " 0,0,255px" = Some blue.
Proof.
  split; [concrete_color|]. split; [reflexivity|]. split; [split; reflexivity|].
  exact (parseRGBColor_round_trip blue " " EmptyString EmptyString EmptyString
           EmptyString "px"
           ltac:(concrete_color) eq_refl eq_refl eq_refl
           (conj eq_refl I) (conj eq_refl I) (conj eq_refl eq_refl)).
Defined.


Lemma cli_core_configuration_witness :
  ∃ options,
    parseArgs ["--mode"; "color"; "-c"; "0,0,255"; "-t"; "0"]%string
    = ([], Returns options)
    ∧ threshold (mainCore options) = 50
    ∧ ∃ c, targetColor (mainCore options) = Some c ∧ validColor c.
Proof.
  eexists. split; [vm_compute; reflexivity|].
  match goal with
  | |- threshold (mainCore ?o) = _ ∧ _ =>
      destruct (cli_core_configuration
                  ["--mode"; "color"; "-c"; "0,0,255"; "-t"; "0"]%string [] o
                  ltac:(vm_compute; reflexivity))
        as (_ & _ & _ & _ & _ & _ & H50 & Hc & _)
  end.
  split; [apply H50; right; reflexivity|apply Hc; reflexivity].
Defined.
